(** * A shallow embedding of the TOML v0.4.0 parser and emitter of
    [github.com/kezhuw/toml], and the properties of its specification.

    The development follows the Go sources:
    - [internal/types]  : the value tree ([Value], [Type_]);
    - [util.go]         : the character classifier ([isDigit], [isHex], ...);
    - [parse.go]        : the scanner engine, the lexical scanners and the
                          tree builder, as a push-down automaton over a
                          defunctionalised [scanner] type;
    - [encode.go]       : the emitter, on the Go values produced by the
                          [Interface] projection of a tree.

    Go's [string] is a byte sequence: the input is a [list ascii] indexed by
    byte position, keys and string values are [string]s.  A [rune] is an
    integer.  Go maps with string keys are [gmap string _].  Stacks that Go
    keeps in slices and grows with [append] are lists whose head is the
    top of the stack. *)

From Stdlib Require Import ZArith Ascii String List Lia Bool.
From Stdlib Require Import DecimalString DecimalZ.
From Stdlib Require DecimalPos DecimalFacts.
From stdpp Require Import base tactics option list gmap strings fin_maps.

Set Warnings "-register-all".
Local Open Scope string_scope.
Local Open Scope Z_scope.

(** ** Runes, bytes and strings *)

Definition rune := Z.

(** [rune(b)] for a byte [b] of the input. *)
Definition chr (c : ascii) : rune := Z.of_N (N_of_ascii c).

(** The byte with a given value (values are taken modulo 256, as a Go
    conversion [byte(x)] does). *)
Definition byte_of (z : Z) : ascii := ascii_of_N (Z.to_N (z mod 256)).

Definition eof : rune := 0.

(** A Go string as a Rocq [string], and as the sequence of its bytes. *)
Definition of_bytes (l : list ascii) : string := string_of_list_ascii l.
Definition bytes (s : string) : list ascii := list_ascii_of_string s.

(** [strings.Join(parts, sep)] *)
Fixpoint Join (parts : list string) (sep : string) : string :=
  match parts with
  | [] => ""
  | [a] => a
  | a :: rest => a +:+ sep +:+ Join rest sep
  end.

(** *** unicode/utf8 *)

Definition RuneError : rune := 65533.
Definition MaxRune : rune := 1114111.
Definition RuneSelf : rune := 128.

Definition between (lo hi b : Z) : bool := (lo <=? b) && (b <=? hi).

(** [utf8.DecodeRuneInString]: the first code point of [s] and its width in
    bytes; [(RuneError, 0)] on the empty string and [(RuneError, 1)] on an
    ill-formed sequence (stray continuation byte, truncated or overlong
    encoding, surrogate, value beyond [MaxRune]). *)
Definition DecodeRuneInString (s : list ascii) : rune * nat :=
  match s with
  | [] => (RuneError, 0%nat)
  | c0 :: s1 =>
    let b0 := chr c0 in
    if b0 <? 128 then (b0, 1%nat)
    else if between 194 223 b0 then
      match s1 with
      | c1 :: _ =>
        if between 128 191 (chr c1)
        then (Z.lor (Z.shiftl (Z.land b0 31) 6) (Z.land (chr c1) 63), 2%nat)
        else (RuneError, 1%nat)
      | _ => (RuneError, 1%nat)
      end
    else if between 224 239 b0 then
      let lo := if b0 =? 224 then 160 else 128 in
      let hi := if b0 =? 237 then 159 else 191 in
      match s1 with
      | c1 :: c2 :: _ =>
        if between lo hi (chr c1) && between 128 191 (chr c2)
        then (Z.lor (Z.shiftl (Z.land b0 15) 12)
                (Z.lor (Z.shiftl (Z.land (chr c1) 63) 6) (Z.land (chr c2) 63)),
              3%nat)
        else (RuneError, 1%nat)
      | _ => (RuneError, 1%nat)
      end
    else if between 240 244 b0 then
      let lo := if b0 =? 240 then 144 else 128 in
      let hi := if b0 =? 244 then 143 else 191 in
      match s1 with
      | c1 :: c2 :: c3 :: _ =>
        if between lo hi (chr c1) && between 128 191 (chr c2)
           && between 128 191 (chr c3)
        then (Z.lor (Z.shiftl (Z.land b0 7) 18)
                (Z.lor (Z.shiftl (Z.land (chr c1) 63) 12)
                   (Z.lor (Z.shiftl (Z.land (chr c2) 63) 6)
                      (Z.land (chr c3) 63))),
              4%nat)
        else (RuneError, 1%nat)
      | _ => (RuneError, 1%nat)
      end
    else (RuneError, 1%nat)
  end.

(** [utf8.ValidRune] *)
Definition ValidRune (r : rune) : bool :=
  ((0 <=? r) && (r <? 55296)) || ((57343 <? r) && (r <=? MaxRune)).

(** [string(r)] for a rune [r]: its UTF-8 encoding, the encoding of
    [RuneError] for an invalid rune. *)
Definition string_of_rune (r : rune) : string :=
  let r := if ValidRune r then r else RuneError in
  if r <=? 127 then of_bytes [byte_of r]
  else if r <=? 2047 then
    of_bytes [byte_of (Z.lor 192 (Z.shiftr r 6));
         byte_of (Z.lor 128 (Z.land r 63))]
  else if r <=? 65535 then
    of_bytes [byte_of (Z.lor 224 (Z.shiftr r 12));
         byte_of (Z.lor 128 (Z.land (Z.shiftr r 6) 63));
         byte_of (Z.lor 128 (Z.land r 63))]
  else
    of_bytes [byte_of (Z.lor 240 (Z.shiftr r 18));
         byte_of (Z.lor 128 (Z.land (Z.shiftr r 12) 63));
         byte_of (Z.lor 128 (Z.land (Z.shiftr r 6) 63));
         byte_of (Z.lor 128 (Z.land r 63))].

(** [rune(x)] for a [uint64] [x]: the low 32 bits, read as signed. *)
Definition rune_of_uint64 (x : Z) : rune :=
  let y := x mod 4294967296 in
  if y <? 2147483648 then y else y - 4294967296.

(** ** util.go: the character classifier *)

Definition isDigit (r : rune) : bool := between (chr "0") (chr "9") r.

Definition isHex (r : rune) : bool :=
  between (chr "A") (chr "Z") r || between (chr "a") (chr "z") r
  || between (chr "0") (chr "9") r.

Definition isSpace (r : rune) : bool := (r =? chr " ") || (r =? 9).

Definition isBareKeyChar (r : rune) : bool :=
  between (chr "A") (chr "Z") r || between (chr "a") (chr "z") r
  || between (chr "0") (chr "9") r
  || ((r =? chr "-") || (r =? chr "_")).

(** The string of a newline. *)
Definition nl : string := of_bytes [byte_of 10].

(** ** strconv: integers *)

Inductive numerr := ErrSyntax | ErrRange.

Definition maxUint64 : Z := 18446744073709551615.

(** The value of a digit byte in [strconv.ParseUint]: decimal digits, and
    letters of either case from ten on. *)
Definition digit_val (c : rune) : option Z :=
  if between 48 57 c then Some (c - 48)
  else if between 97 122 (Z.lor c 32) then Some (Z.lor c 32 - 97 + 10)
  else None.

(** The loop of [strconv.ParseUint(s, base, 64)] for an explicit [base],
    byte by byte: a byte that is no digit of the base is a syntax error, a
    value beyond [maxUint64] a range error, whichever comes first. *)
Fixpoint ParseUint_loop (base : Z) (cs : list ascii) (n : Z) : Z + numerr :=
  match cs with
  | [] => inl n
  | c :: cs' =>
    match digit_val (chr c) with
    | None => inr ErrSyntax
    | Some d =>
      if base <=? d then inr ErrSyntax
      else if (maxUint64 / base + 1) <=? n then inr ErrRange
      else if maxUint64 <? n * base + d then inr ErrRange
      else ParseUint_loop base cs' (n * base + d)
    end
  end.

Definition ParseUint (s : string) (base : Z) : Z + numerr :=
  match bytes s with
  | [] => inr ErrSyntax
  | cs => ParseUint_loop base cs 0
  end.

(** [strconv.ParseInt(s, 10, 64)]: an optional sign, then [ParseUint]; the
    result is an [int64]. *)
Definition ParseInt (s : string) : Z + numerr :=
  match bytes s with
  | [] => inr ErrSyntax
  | c :: rest =>
    let neg := chr c =? chr "-" in
    let body := if (chr c =? chr "+") || neg then rest else c :: rest in
    match ParseUint (of_bytes body) 10 with
    | inr ErrSyntax => inr ErrSyntax
    | r =>
      let un := match r with inl n => n | inr _ => maxUint64 end in
      let cutoff := 9223372036854775808 in
      if negb neg && (cutoff <=? un) then inr ErrRange
      else if neg && (cutoff <? un) then inr ErrRange
      else inl (if neg then - un else un)
    end
  end.

(** ** Errors *)

(** An argument of a [fmt] format: a string ([%s]), a rune ([%q]), the
    parser's [char] type (printed [EOF] for 0, quoted otherwise), an
    integer ([%d]). *)
Inductive arg := ArgS (s : string) | ArgR (r : rune) | ArgChar (r : rune) | ArgI (i : Z).

(** Error values: [fmt.Errorf(format, args...)] kept as the format and its
    arguments, and [*strconv.NumError]. *)
Inductive error :=
| Errorf (format : string) (args : list arg)
| NumError (Func Num : string) (Err : numerr).

(** [ParseError] of errors.go: [Line] is 1-based, [Pos] a 0-based byte
    offset into the input. *)
Record ParseError := mkParseError { Line : Z; Pos : nat; Err : error }.

(** ** What the code takes from Go's standard library and the model leaves
    open: binary64 floats and their decimal conversions, instants and
    their RFC 3339 conversions, and the Unicode tables behind
    [strconv.Quote] and [strconv.IsPrint]. *)
Class GoStd := {
  float64 : Type;
  Time : Type;
  (** [strconv.ParseFloat(s, 64)] *)
  ParseFloat : string → float64 + numerr;
  (** [strconv.FormatFloat(f, 'g', -1, 64)] *)
  FormatFloat : float64 → string;
  (** [time.Parse(time.RFC3339Nano, s)], the error given by its text *)
  time_Parse : string → Time + string;
  (** [t.Format(time.RFC3339Nano)] *)
  time_Format : Time → string;
  (** [strconv.Quote] *)
  Quote : string → string;
  (** [strconv.IsPrint] *)
  IsPrint : rune → bool;
  (** [f == 0] *)
  IsZero : float64 → bool;
}.

Section Model.
Context `{GoStd}.

(** ** internal/types: the value tree *)

(** [Value]: [Boolean], [Integer], [Float], [String], [Datetime], [*Array]
    and [*Table].  An [Integer] is an [int64], kept as its value in [Z]. *)
Inductive Value :=
| VBoolean (b : bool)
| VInteger (i : Z)
| VFloat (f : float64)
| VString (s : string)
| VDatetime (d : Time)
| VArray (Closed : bool) (Elems : list Value)
| VTable (Implicit : bool) (Elems : gmap string Value).

Definition Type_ (v : Value) : string :=
  match v with
  | VTable _ _ => "table"
  | VArray _ _ => "array"
  | VString _ => "string"
  | VInteger _ => "integer"
  | VFloat _ => "float"
  | VBoolean _ => "boolean"
  | VDatetime _ => "datetime"
  end.

(** A fresh [&types.Table{Elems: make(map[string]types.Value)}]. *)
Definition newTable (implicit : bool) : Value := VTable implicit ∅.

(** ** parse.go: the parser state *)

(** The Go type [scanner], a function from the parser to the next
    [scanner], defunctionalised: one constructor
    per state function, with the captured variables of the closures built
    by [scanByte], [scanRecord] and [scanConsumeByte].  The only predicate
    [scanConsumeByte] is ever built with is the closure of
    [scanMultiLineString], "space or newline".  A [nil] scanner is [None]. *)
Inductive scanner :=
| ScanByte (r : rune) | ScanDigit | ScanConsumeSpaceOrNewline
| ScanRecord (offset : Z)
| ScanEscapedRune | ScanLiteral | ScanMultiLineLiteral | ScanMultiLineString
| ScanComment | ScanArrayTableEnd | ScanTableEnd | ScanTableStart
| ScanString | ScanTableNameString | ScanTableNameStart
| ScanTableNameInside | ScanTableNameEnd
| ScanTop | ScanTopEnd
| ScanInlineTableFieldEnd | ScanInlineTableStart
| ScanFloatFraction | ScanFloatExponent | ScanFloatExponentSign
| ScanNumber | ScanNumberStart
| SetStringValue | ScanStringStart | ScanLiteralStart
| ScanArrayValue | ScanArrayStart | ScanArrayEnd
| ScanValue | ScanDateEnd | ScanDateTimeEnd | ScanDateTimeFraction
| ScanDateTime | ScanNumberOrDate
| ScanFieldAssign | ScanBareKey | ScanKeyEnd | ScanTableField.

Definition scanColon : scanner := ScanByte (chr ":").
Definition scanHash : scanner := ScanByte (chr "-").
Definition scanRecord0 : scanner := ScanRecord 0.

(** A [*types.Table] or [*types.Array] held by the parser is either an
    object inside the tree under [root], given by the way to it from the
    root, or a fresh object that no tree holds yet (an inline table or a
    bracketed array under construction).  The way to a table is a list of
    hops: through the table-valued key [name], or through element [i] of
    the array-valued key [name]. *)
Inductive hop := AtKey (name : string) | AtIndex (name : string) (i : nat).

Inductive envref := InRoot (way : list hop) | Fresh (v : Value).

Record environment := mkEnvironment { env : envref; path : string }.

Record numParser := mkNumParser {
  sign : string;
  expo : string;  (* the field [e] *)
  esign : string;
  integers : list string;
  fractions : list string;
  exponents : list string;
}.

(** [strParser] is its [parts]; [numParser] and the parser's stacks keep
    the order of the Go slices except [envs], [keys] and [scanners], whose
    head is the last element of the slice. *)
Record parser := mkParser {
  mark : Z;
  pos : nat;
  line : Z;
  input : list ascii;
  backups : list nat;      (* head = last pushed *)
  root : Value;
  envs : list environment; (* head = top *)
  keys : list string;      (* head = top *)
  names : list string;
  strparts : list string;  (* [str.parts] *)
  num : numParser;
  scanners : list scanner; (* head = top *)
  err : option ParseError;
}.

Definition set_mark (x : Z) (p : parser) : parser :=
  mkParser x (pos p) (line p) (input p) (backups p) (root p) (envs p)
    (keys p) (names p) (strparts p) (num p) (scanners p) (err p).
Definition set_pos (x : nat) (bk : list nat) (p : parser) : parser :=
  mkParser (mark p) x (line p) (input p) bk (root p) (envs p)
    (keys p) (names p) (strparts p) (num p) (scanners p) (err p).
Definition set_line (x : Z) (p : parser) : parser :=
  mkParser (mark p) (pos p) x (input p) (backups p) (root p) (envs p)
    (keys p) (names p) (strparts p) (num p) (scanners p) (err p).
Definition set_backups (x : list nat) (p : parser) : parser :=
  mkParser (mark p) (pos p) (line p) (input p) x (root p) (envs p)
    (keys p) (names p) (strparts p) (num p) (scanners p) (err p).
Definition set_root (x : Value) (p : parser) : parser :=
  mkParser (mark p) (pos p) (line p) (input p) (backups p) x (envs p)
    (keys p) (names p) (strparts p) (num p) (scanners p) (err p).
Definition set_envs (x : list environment) (p : parser) : parser :=
  mkParser (mark p) (pos p) (line p) (input p) (backups p) (root p) x
    (keys p) (names p) (strparts p) (num p) (scanners p) (err p).
Definition set_keys (x : list string) (p : parser) : parser :=
  mkParser (mark p) (pos p) (line p) (input p) (backups p) (root p) (envs p)
    x (names p) (strparts p) (num p) (scanners p) (err p).
Definition set_names (x : list string) (p : parser) : parser :=
  mkParser (mark p) (pos p) (line p) (input p) (backups p) (root p) (envs p)
    (keys p) x (strparts p) (num p) (scanners p) (err p).
Definition set_strparts (x : list string) (p : parser) : parser :=
  mkParser (mark p) (pos p) (line p) (input p) (backups p) (root p) (envs p)
    (keys p) (names p) x (num p) (scanners p) (err p).
Definition set_num (x : numParser) (p : parser) : parser :=
  mkParser (mark p) (pos p) (line p) (input p) (backups p) (root p) (envs p)
    (keys p) (names p) (strparts p) x (scanners p) (err p).
Definition set_scanners (x : list scanner) (p : parser) : parser :=
  mkParser (mark p) (pos p) (line p) (input p) (backups p) (root p) (envs p)
    (keys p) (names p) (strparts p) (num p) x (err p).
Definition set_err (x : option ParseError) (p : parser) : parser :=
  mkParser (mark p) (pos p) (line p) (input p) (backups p) (root p) (envs p)
    (keys p) (names p) (strparts p) (num p) (scanners p) x.

(** *** Control: a state monad with the two ways a Go call can leave by
    [panic]: with a [*ParseError], which [errRecover] turns into the result
    of [parse], and with a run-time error (index out of range, failed type
    assertion), which [errRecover] lets through. *)
Inductive outcome (A : Type) :=
| Ret (a : A) (p : parser)
| Raise (e : ParseError)
| Crash.
Arguments Ret {A} a p.
Arguments Raise {A} e.
Arguments Crash {A}.

Definition M (A : Type) : Type := parser → outcome A.

Definition ret {A} (a : A) : M A := λ p, Ret a p.
Definition bind {A B} (m : M A) (k : A → M B) : M B :=
  λ p, match m p with
       | Ret a p' => k a p'
       | Raise e => Raise e
       | Crash => Crash
       end.
Definition get {A} (f : parser → A) : M A := λ p, Ret (f p) p.
Definition modify (f : parser → parser) : M unit := λ p, Ret tt (f p).
Definition raise {A} (e : ParseError) : M A := λ _, Raise e.
Definition crash {A} : M A := λ _, Crash.

Declare Scope go_scope.
Delimit Scope go_scope with go.
Notation "x ← y ; z" := (bind y (λ x, z))
  (at level 20, y at level 100, z at level 200, only parsing) : go_scope.
Notation "' x ← y ; z" := (bind y (λ x, z))
  (at level 20, x pattern, y at level 100, z at level 200, only parsing) : go_scope.
Notation "x ;; z" := (bind x (λ _, z))
  (at level 100, z at level 200, only parsing, right associativity) : go_scope.
Local Open Scope go_scope.

(** *** The scanner stack *)

Definition pushScanner (s : scanner) : M unit :=
  modify (λ p, set_scanners (s :: scanners p) p).

(** Popping an empty slice is an index out of range. *)
Definition popScanner : M (option scanner) :=
  λ p, match scanners p with
       | s :: rest => Ret (Some s) (set_scanners rest p)
       | [] => Crash
       end.

(** [seqScanner(f1, ..., fn)] pushes [fn], ..., [f1] and pops [f1]; with no
    argument it panics with a string, which [errRecover] lets through. *)
Definition seqScanner (seqs : list scanner) : M (option scanner) :=
  match seqs with
  | [] => crash
  | _ => modify (λ p, set_scanners (seqs ++ scanners p) p);; popScanner
  end.

(** *** The scanner engine *)

Definition record (offset : Z) : M unit :=
  modify (λ p, set_mark (Z.of_nat (pos p) + offset) p).

(** [p.input[p.mark : p.pos+offset]]; a slice expression out of bounds is a
    run-time error. *)
Definition slice (offset : Z) : M string :=
  λ p, let lo := mark p in
       let hi := Z.of_nat (pos p) + offset in
       if (0 <=? lo) && (lo <=? hi) && (hi <=? Z.of_nat (length (input p)))
       then Ret (of_bytes (take (Z.to_nat (hi - lo)) (drop (Z.to_nat lo) (input p))))
                (set_mark (-1) p)
       else Crash.

Definition stepN (n : nat) : M unit :=
  modify (λ p, set_pos (pos p + n)%nat (n :: backups p) p).

Definition errorf (p : parser) (format : string) (args : list arg) : ParseError :=
  mkParseError (line p) (pos p) (Errorf format args).

Definition readRune : M (rune * nat) :=
  λ p, if decide (pos p ≤ length (input p))%nat then
         let rest := drop (pos p) (input p) in
         let '(r, n) := DecodeRuneInString rest in
         if (r =? RuneError) && (n =? 1)%nat
         then Raise (errorf p "invalid utf8 rune %#.4x" [ArgS (of_bytes rest)])
         else
           let r := if (r =? RuneError) && (n =? 0)%nat then eof else r in
           bind (stepN n) (λ _, ret (r, n)) p
       else Crash.

Definition unread : M unit :=
  λ p, match backups p with
       | rd :: rest => Ret tt (set_pos (pos p - rd)%nat rest p)
       | [] => Crash
       end.

Definition peekRune : M (rune * nat) :=
  rn ← readRune; unread;; ret rn.

Definition readByte : M rune :=
  λ p, match input p !! pos p with
       | None => bind (stepN 0) (λ _, ret eof) p
       | Some c => bind (stepN 1) (λ _, ret (chr c)) p
       end.

Definition peekByte : M rune :=
  get (λ p, match input p !! pos p with None => eof | Some c => chr c end).

Definition tryReadByte (r : rune) : M bool :=
  r1 ← peekByte;
  if r1 =? r then stepN 1;; ret true else ret false.

(** [strings.HasPrefix] *)
Fixpoint HasPrefix (s prefix : list ascii) : bool :=
  match prefix, s with
  | [], _ => true
  | c :: prefix', c' :: s' => (chr c =? chr c') && HasPrefix s' prefix'
  | _ :: _, [] => false
  end.

Definition tryReadPrefix (s : string) : M bool :=
  λ p, if decide (pos p ≤ length (input p))%nat then
         if HasPrefix (drop (pos p) (input p)) (bytes s)
         then bind (stepN (length (bytes s))) (λ _, ret true) p
         else Ret false p
       else Crash.

Definition skipNewline (r : rune) : M bool :=
  if r =? 13 then
    tryReadByte 10;; modify (λ p, set_line (line p + 1) p);; ret true
  else if r =? 10 then
    modify (λ p, set_line (line p + 1) p);; ret true
  else ret false.

Definition tryReadNewline : M bool :=
  r ← readByte;
  b ← skipNewline r;
  if b then ret true else unread;; ret false.

Definition clearBackups : M unit := modify (set_backups []).

(** *** Errors written to [p.err]; the scanner returned is [nil]. *)

Definition errorScanner (format : string) (args : list arg) : M (option scanner) :=
  modify (λ p, set_err (Some (errorf p format args)) p);; ret None.

Definition setError (e : error) : M (option scanner) :=
  modify (λ p, set_err (Some (mkParseError (line p) (pos p) e)) p);; ret None.

Definition expectRune (r : rune) : M (option scanner) :=
  unread;;
  '(got, _) ← peekRune;
  errorScanner "expect %q, got %s" [ArgR r; ArgChar got].

Definition expectStr (s : string) : M (option scanner) :=
  unread;;
  '(got, _) ← peekRune;
  errorScanner "expect %s, got %s" [ArgS s; ArgChar got].

(** *** [numParser] and [strParser] *)

Definition numParser_reset : numParser := mkNumParser "" "" "" [] [] [].

Definition pushInteger (part : string) : M unit :=
  modify (λ p, let n := num p in
    set_num (mkNumParser (sign n) (expo n) (esign n) (integers n ++ [part])
               (fractions n) (exponents n)) p).

Definition pushFraction (part : string) : M unit :=
  modify (λ p, let n := num p in
    set_num (mkNumParser (sign n) (expo n) (esign n) (integers n)
               (fractions n ++ [part]) (exponents n)) p).

Definition pushExponent (part : string) : M unit :=
  modify (λ p, let n := num p in
    set_num (mkNumParser (sign n) (expo n) (esign n) (integers n)
               (fractions n) (exponents n ++ [part])) p).

Definition set_sign (s : string) : M unit :=
  modify (λ p, let n := num p in
    set_num (mkNumParser s (expo n) (esign n) (integers n)
               (fractions n) (exponents n)) p).

Definition set_expo (s : string) : M unit :=
  modify (λ p, let n := num p in
    set_num (mkNumParser (sign n) s (esign n) (integers n)
               (fractions n) (exponents n)) p).

Definition set_esign (s : string) : M unit :=
  modify (λ p, let n := num p in
    set_num (mkNumParser (sign n) (expo n) s (integers n)
               (fractions n) (exponents n)) p).

Definition numParser_join (n : numParser) (sep : string) : string :=
  let s := sign n +:+ Join (integers n) sep in
  let s := match fractions n with
           | [] => s
           | _ => s +:+ "." +:+ Join (fractions n) sep
           end in
  if String.eqb (expo n) "" then s
  else s +:+ expo n +:+ esign n +:+ Join (exponents n) sep.

(** [numParser.Float]: the result of [strconv.ParseFloat] on the joined
    parts; the parser is reset on return. *)
Definition Float (n : numParser) : (float64 + error) * numParser :=
  let s := numParser_join n "" in
  (match ParseFloat s with
   | inl f => inl f
   | inr e => inr (NumError "ParseFloat" s e)
   end, numParser_reset).

(** [numParser.Integer]: the digit runs joined without their underscores;
    a leading zero is an error unless the digits are exactly [0]; then the
    sign is put in front and [strconv.ParseInt] decides.  The parser is
    reset on return.  [None] is the run-time error of [s[0]] on an empty
    [s]. *)
Definition Integer (n : numParser) : option ((Z + error) * numParser) :=
  let s := Join (integers n) "" in
  match bytes s with
  | [] => None
  | c :: _ =>
    if negb (String.eqb s "0") && (chr c =? chr "0")
    then Some (inr (Errorf "leading zero in integer %q" [ArgS s]), numParser_reset)
    else
      let s := sign n +:+ s in
      Some (match ParseInt s with
            | inl i => inl i
            | inr e => inr (NumError "ParseInt" s e)
            end, numParser_reset)
  end.

Definition str_push (s : string) : M unit :=
  if String.eqb s "" then ret tt
  else modify (λ p, set_strparts (strparts p ++ [s]) p).

Definition str_join : M string :=
  s ← get (λ p, Join (strparts p) "");
  modify (set_strparts []);;
  ret s.

(** *** Keys and paths *)

(** [normalizeKey]: the key as it is when all its runes are bare-key
    characters, quoted otherwise.  Bare-key characters are ASCII, and a
    byte of a multi-byte or ill-formed sequence never decodes to one, so
    the runes of the Go loop are all bare exactly when the bytes are. *)
Definition normalizeKey (key : string) : string :=
  if forallb (λ c, isBareKeyChar (chr c)) (bytes key) then key else Quote key.

Definition combineKeyPath (path key : string) : string :=
  let key := normalizeKey key in
  if String.eqb path "" then key else path +:+ "." +:+ key.

(** [strconv.FormatInt(i, 10)] *)
Definition FormatInt (i : Z) : string := NilZero.string_of_int (Z.to_int i).

Definition combineIndexPath (path : string) (i : nat) : string :=
  path +:+ "[" +:+ FormatInt (Z.of_nat i) +:+ "]".

(** *** The tree builder *)

(** The object at the end of a way from [v]. *)
Fixpoint get_at (v : Value) (way : list hop) : option Value :=
  match way with
  | [] => Some v
  | AtKey name :: way' =>
    match v with
    | VTable _ m =>
      match m !! name with
      | Some v' => get_at v' way'
      | None => None
      end
    | _ => None
    end
  | AtIndex name i :: way' =>
    match v with
    | VTable _ m =>
      match m !! name with
      | Some (VArray _ l) =>
        match l !! i with
        | Some v' => get_at v' way'
        | None => None
        end
      | _ => None
      end
    | _ => None
    end
  end.

(** The tree [v] after the object at the end of the way became [new]. *)
Fixpoint set_at (v : Value) (way : list hop) (new : Value) : Value :=
  match way with
  | [] => new
  | AtKey name :: way' =>
    match v with
    | VTable im m =>
      match m !! name with
      | Some v' => VTable im (<[name := set_at v' way' new]> m)
      | None => v
      end
    | _ => v
    end
  | AtIndex name i :: way' =>
    match v with
    | VTable im m =>
      match m !! name with
      | Some (VArray c l) =>
        match l !! i with
        | Some v' => VTable im (<[name := VArray c (<[i := set_at v' way' new]> l)]> m)
        | None => v
        end
      | _ => v
      end
    | _ => v
    end
  end.

Definition topEnv : M (envref * string) :=
  λ p, match envs p with
       | e :: _ => Ret (env e, path e) p
       | [] => Crash
       end.

(** The object an environment refers to.  The parser never removes an
    object from the tree, so a way into the root always ends at one. *)
Definition deref (e : envref) : M Value :=
  λ p, match e with
       | Fresh v => Ret v p
       | InRoot way =>
         match get_at (root p) way with
         | Some v => Ret v p
         | None => Crash
         end
       end.

(** A write through the pointer on top of [envs]. *)
Definition store_top (v : Value) : M unit :=
  λ p, match envs p with
       | mkEnvironment (Fresh _) path :: rest =>
         Ret tt (set_envs (mkEnvironment (Fresh v) path :: rest) p)
       | mkEnvironment (InRoot way) _ :: _ =>
         Ret tt (set_root (set_at (root p) way v) p)
       | [] => Crash
       end.

Definition pushTableKey (key : string) : M (option scanner) :=
  '(e, path) ← topEnv;
  t ← deref e;
  match t with
  | VTable _ elems =>
    match elems !! key with
    | Some value =>
      errorScanner "table %s has key %s defined as %s"
        [ArgS path; ArgS (normalizeKey key); ArgS (Type_ value)]
    | None => modify (λ p, set_keys (key :: keys p) p);; popScanner
    end
  | _ => crash
  end.

Definition topTableKey : M string :=
  λ p, match keys p with
       | key :: _ => Ret key p
       | [] => Crash
       end.

Definition popTableKey : M string :=
  λ p, match keys p with
       | key :: rest => Ret key (set_keys rest p)
       | [] => Crash
       end.

Definition setValue (value : Value) : M (option scanner) :=
  '(e, path) ← topEnv;
  t ← deref e;
  match t with
  | VArray closed elems =>
    match elems with
    | first :: _ =>
      if negb (String.eqb (Type_ first) (Type_ value))
      then errorScanner "array %s expects element type %s, but got %s"
             [ArgS path; ArgS (Type_ first); ArgS (Type_ value)]
      else store_top (VArray closed (elems ++ [value]));; popScanner
    | [] => store_top (VArray closed (elems ++ [value]));; popScanner
    end
  | VTable im elems =>
    key ← popTableKey;
    store_top (VTable im (<[key := value]> elems));; popScanner
  | _ => popScanner
  end.

Definition resetEnv (way : list hop) (path : string) : M unit :=
  modify (set_envs [mkEnvironment (InRoot way) path]).

Definition pushEnv (new : Value) : M unit :=
  '(e, path) ← topEnv;
  t ← deref e;
  path ← match t with
         | VTable _ _ => key ← topTableKey; ret (combineKeyPath path key)
         | VArray _ elems => ret (combineIndexPath path (length elems))
         | _ => ret path
         end;
  modify (λ p, set_envs (mkEnvironment (Fresh new) path :: envs p) p).

(** [popEnv] hands the popped object to [setValue].  Only fresh objects
    are pushed over the bottom of [envs]; popping the bottom leaves [envs]
    empty and the [setValue] that follows at both call sites fails in
    [topEnv], so the model fails here. *)
Definition popEnv : M (Value * string) :=
  λ p, match envs p with
       | mkEnvironment (Fresh v) path :: rest => Ret (v, path) (set_envs rest p)
       | _ => Crash
       end.

(** The tables of the root the header functions walk through. *)
Definition elems_at (way : list hop) : M (bool * gmap string Value) :=
  λ p, match get_at (root p) way with
       | Some (VTable im m) => Ret (im, m) p
       | _ => Crash
       end.

Definition store_at (way : list hop) (v : Value) : M unit :=
  modify (λ p, set_root (set_at (root p) way v) p).

(** [locateTable]: the loop over [names], from the table at [way]. *)
Fixpoint locateTable_loop (names : list string) (way : list hop) (path : string)
  : M (list hop * string) :=
  match names with
  | [] => ret (way, path)
  | name :: names' =>
    let path := combineKeyPath path name in
    '(im, m) ← elems_at way;
    match m !! name with
    | None =>
      store_at way (VTable im (<[name := newTable true]> m));;
      locateTable_loop names' (way ++ [AtKey name]) path
    | Some (VTable _ _) =>
      locateTable_loop names' (way ++ [AtKey name]) path
    | Some (VArray closed elems) =>
      if closed
      then p ← get id; raise (errorf p "%s was defined as array" [ArgS path])
      else
        (* an empty array has no last element: index -1 *)
        let i := (length elems - 1)%nat in
        match elems !! i with
        | Some (VTable _ _) =>
          locateTable_loop names' (way ++ [AtIndex name i]) (combineIndexPath path i)
        | _ => crash
        end
    | Some v =>
      p ← get id;
      raise (errorf p "%s was defined as %s" [ArgS path; ArgS (Type_ v)])
    end
  end.

Definition locateTable (names : list string) : M (list hop * string) :=
  locateTable_loop names [] "".

Definition createTable (way : list hop) (path name : string) : M (list hop * string) :=
  let path := combineKeyPath path name in
  '(im, m) ← elems_at way;
  match m !! name with
  | None =>
    store_at way (VTable im (<[name := newTable false]> m));;
    ret ((way ++ [AtKey name])%list, path)
  | Some (VTable implicit elems) =>
    if negb implicit
    then p ← get id; raise (errorf p "table %s was defined twice" [ArgS path])
    else
      store_at way (VTable im (<[name := VTable false elems]> m));;
      ret ((way ++ [AtKey name])%list, path)
  | Some v =>
    p ← get id;
    raise (errorf p "%s was defined as %s" [ArgS path; ArgS (Type_ v)])
  end.

Definition createTableArray (way : list hop) (path name : string) : M (list hop * string) :=
  let path := combineKeyPath path name in
  '(im, m) ← elems_at way;
  match m !! name with
  | None =>
    store_at way (VTable im (<[name := VArray false [newTable false]]> m));;
    ret ((way ++ [AtIndex name 0%nat])%list, path)
  | Some (VArray closed elems) =>
    if closed
    then p ← get id; raise (errorf p "%s was defined as array" [ArgS path])
    else
      store_at way (VTable im (<[name := VArray false (elems ++ [newTable false])]> m));;
      ret ((way ++ [AtIndex name (length elems)])%list, path)
  | Some v =>
    p ← get id;
    raise (errorf p "%s was defined as %s" [ArgS path; ArgS (Type_ v)])
  end.

(** ** parse.go: the lexical scanners *)

Definition dquote : rune := 34.
Definition squote : rune := chr "'".
Definition backslash : rune := chr "\".
(** The one-byte string of an ASCII code. *)
Definition char_string (r : rune) : string := of_bytes [byte_of r].
(** The string literals with two double quotes and two single quotes. *)
Definition dquote2 : string := of_bytes [byte_of 34; byte_of 34].
Definition squote2 : string := "''".

Definition scanByte (r : rune) : M (option scanner) :=
  r1 ← readByte;
  if negb (r1 =? r) then expectRune r else popScanner.

Definition scanDigit : M (option scanner) :=
  r ← readByte;
  if negb (isDigit r) then expectStr "digit" else popScanner.

(** [scanConsumeByte] with the predicate of [scanMultiLineString],
    [isSpace(r) || p.skipNewline(r)]. *)
Definition scanConsumeSpaceOrNewline : M (option scanner) :=
  r ← readByte;
  b ← (if isSpace r then ret true else skipNewline r);
  if negb b then unread;; popScanner
  else ret (Some ScanConsumeSpaceOrNewline).

Definition scanRecord (offset : Z) : M (option scanner) :=
  record offset;; popScanner.

Definition scanReturnString (s : string) : M (option scanner) :=
  str_push s;; popScanner.

(** The loop of [scanUnicodeRune]: [None] when all [n] bytes are
    hexadecimal by [isHex], the error scanner otherwise. *)
Fixpoint readHex (n : nat) : M (option (option scanner)) :=
  match n with
  | O => ret None
  | S n' =>
    r ← readByte;
    if negb (isHex r) then s ← expectStr "hexadecimal digit"; ret (Some s)
    else readHex n'
  end.

Definition scanUnicodeRune (n : nat) : M (option scanner) :=
  record 0;;
  bad ← readHex n;
  match bad with
  | Some s => ret s
  | None =>
    s ← slice 0;
    match ParseUint s 16 with
    | inr e => setError (NumError "ParseUint" s e)
    | inl codepoint =>
      let r := rune_of_uint64 codepoint in
      if negb (ValidRune r)
      then errorScanner "%s is not a valid utf8 rune" [ArgS s]
      else scanReturnString (string_of_rune r)
    end
  end.

Definition scanEscapedRune : M (option scanner) :=
  r ← readByte;
  if r =? chr "b" then scanReturnString (char_string 8)
  else if r =? chr "t" then scanReturnString (char_string 9)
  else if r =? chr "n" then scanReturnString (char_string 10)
  else if r =? chr "f" then scanReturnString (char_string 12)
  else if r =? chr "r" then scanReturnString (char_string 13)
  else if r =? dquote then scanReturnString (char_string 34)
  else if r =? backslash then scanReturnString "\"
  else if r =? chr "u" then scanUnicodeRune 4
  else if r =? chr "U" then scanUnicodeRune 8
  else expectStr "escaped sequence".

Definition scanLiteral : M (option scanner) :=
  '(r, _) ← readRune;
  if r =? squote then s ← slice (-1); str_push s;; popScanner
  else if (r =? 13) || (r =? 10)
  then errorScanner "newline is not allowed in oneline string" []
  else if r =? eof then errorScanner "string without ending" []
  else ret (Some ScanLiteral).

Definition scanMultiLineLiteral : M (option scanner) :=
  '(r, _) ← readRune;
  if r =? eof then errorScanner "no ending for multi-line literal string" []
  else if r =? squote then
    b ← tryReadPrefix squote2;
    if b then s ← slice (-3); str_push s;; popScanner
    else ret (Some ScanMultiLineLiteral)
  else ret (Some ScanMultiLineLiteral).

Definition scanMultiLineString : M (option scanner) :=
  '(r, _) ← readRune;
  if r =? backslash then
    s ← slice (-1); str_push s;;
    b ← tryReadNewline;
    if b then seqScanner [ScanConsumeSpaceOrNewline; scanRecord0; ScanMultiLineString]
    else seqScanner [ScanEscapedRune; scanRecord0; ScanMultiLineString]
  else if r =? eof then errorScanner "multi-line basic string without ending" []
  else if r =? dquote then
    b ← tryReadPrefix dquote2;
    if b then s ← slice (-3); str_push s;; popScanner
    else ret (Some ScanMultiLineString)
  else ret (Some ScanMultiLineString).

Definition scanComment : M (option scanner) :=
  '(r, _) ← readRune;
  b ← (if r =? eof then ret true else skipNewline r);
  if b then popScanner else ret (Some ScanComment).

(** [p.names[:i]] and [p.names[i]] for [i = len(p.names) - 1]; with no
    name the slice expression is out of range. *)
Definition split_last (names : list string) : option (list string * string) :=
  match reverse names with
  | [] => None
  | name :: rest => Some (reverse rest, name)
  end.

Definition scanArrayTableEnd : M (option scanner) :=
  names ← get names;
  match split_last names with
  | None => crash
  | Some (prefix, name) =>
    '(way, path) ← locateTable prefix;
    '(way, path) ← createTableArray way path name;
    resetEnv way path;;
    ret (Some ScanTopEnd)
  end.

Definition scanTableEnd : M (option scanner) :=
  names ← get names;
  match split_last names with
  | None => crash
  | Some (prefix, name) =>
    '(way, path) ← locateTable prefix;
    '(way, path) ← createTable way path name;
    resetEnv way path;;
    ret (Some ScanTopEnd)
  end.

Definition scanTableStart : M (option scanner) :=
  modify (set_names []);;
  b ← tryReadByte (chr "[");
  if b then seqScanner [ScanTableNameStart; ScanByte (chr "]"); ScanArrayTableEnd]
  else seqScanner [ScanTableNameStart; ScanTableEnd].

Definition scanString : M (option scanner) :=
  '(r, _) ← readRune;
  if r =? dquote then s ← slice (-1); str_push s;; popScanner
  else if r =? backslash then
    s ← slice (-1); str_push s;;
    seqScanner [ScanEscapedRune; scanRecord0; ScanString]
  else if (r =? 13) || (r =? 10)
  then errorScanner "newline is not allowed in oneline string" []
  else if r =? eof then errorScanner "string without ending" []
  else ret (Some ScanString).

Definition appendTableName (name : string) : M unit :=
  modify (λ p, set_names (names p ++ [name]) p).

Definition scanTableNameString : M (option scanner) :=
  s ← str_join;
  appendTableName s;;
  ret (Some ScanTableNameEnd).

Definition scanTableNameStart : M (option scanner) :=
  r ← readByte;
  if isSpace r then ret (Some ScanTableNameStart)
  else if (r =? chr ".") || (r =? chr "]")
  then errorScanner "table name must be non-empty" []
  else if r =? dquote then seqScanner [scanRecord0; ScanString; ScanTableNameString]
  else if isBareKeyChar r then record (-1);; ret (Some ScanTableNameInside)
  else expectStr "table name".

Definition scanTableNameInside : M (option scanner) :=
  r ← readByte;
  if isSpace r then
    s ← slice (-1); appendTableName s;; ret (Some ScanTableNameEnd)
  else if isBareKeyChar r then ret (Some ScanTableNameInside)
  else if r =? chr "." then
    s ← slice (-1); appendTableName s;; ret (Some ScanTableNameStart)
  else if r =? chr "]" then
    s ← slice (-1); appendTableName s;; popScanner
  else expectStr "bare character".

Definition scanTableNameEnd : M (option scanner) :=
  r ← readByte;
  if isSpace r then ret (Some ScanTableNameEnd)
  else if r =? chr "." then ret (Some ScanTableNameStart)
  else if r =? chr "]" then popScanner
  else expectStr "'.' or ']'".

Definition scanTop : M (option scanner) :=
  r ← readByte;
  if isSpace r then ret (Some ScanTop)
  else
    nl ← skipNewline r;
    if nl then ret (Some ScanTop)
    else if r =? chr "#" then seqScanner [ScanComment; ScanTop]
    else if r =? chr "[" then ret (Some ScanTableStart)
    else if r =? eof then ret None
    else unread;; seqScanner [ScanTableField; ScanTopEnd].

Definition scanTopEnd : M (option scanner) :=
  r ← readByte;
  if r =? eof then ret (Some ScanTop)
  else
    nl ← skipNewline r;
    if nl then ret (Some ScanTop)
    else if isSpace r then ret (Some ScanTopEnd)
    else if r =? chr "#" then seqScanner [ScanComment; ScanTop]
    else expectStr "new line, comment or EOF".

Definition setFloatValue : M (option scanner) :=
  n ← get num;
  let '(r, n') := Float n in
  modify (set_num n');;
  match r with
  | inr e => setError e
  | inl f => setValue (VFloat f)
  end.

Definition setIntegerValue : M (option scanner) :=
  n ← get num;
  match Integer n with
  | None => crash
  | Some (r, n') =>
    modify (set_num n');;
    match r with
    | inr e => setError e
    | inl i => setValue (VInteger i)
    end
  end.

Definition setStringValue : M (option scanner) :=
  s ← str_join;
  setValue (VString s).

Definition scanInlineTableFieldEnd : M (option scanner) :=
  r ← readByte;
  if isSpace r then ret (Some ScanInlineTableFieldEnd)
  else if r =? chr "," then seqScanner [ScanTableField; ScanInlineTableFieldEnd]
  else if r =? chr "}" then '(t, _) ← popEnv; setValue t
  else expectStr "inline table separator ',' or terminator '}'".

Definition scanInlineTableStart : M (option scanner) :=
  r ← readByte;
  nl ← skipNewline r;
  if nl then errorScanner "newlines are not allowed in inline table" []
  else if isSpace r then ret (Some ScanInlineTableStart)
  else if r =? chr "," then errorScanner "unexpected ',' in inline table" []
  else if r =? chr "}" then setValue (newTable false)
  else
    unread;;
    pushEnv (newTable false);;
    seqScanner [ScanTableField; ScanInlineTableFieldEnd].

Definition scanFloatFraction : M (option scanner) :=
  r ← readByte;
  if isDigit r then ret (Some ScanFloatFraction)
  else if r =? chr "_" then
    s ← slice (-1); pushFraction s;;
    seqScanner [scanRecord0; ScanDigit; ScanFloatFraction]
  else if r =? chr "." then errorScanner "decimal point already read" []
  else if (r =? chr "e") || (r =? chr "E") then
    set_expo (string_of_rune r);;
    s ← slice (-1); pushFraction s;;
    ret (Some ScanFloatExponentSign)
  else
    unread;;
    s ← slice 0; pushFraction s;;
    setFloatValue.

Definition scanFloatExponent : M (option scanner) :=
  r ← readByte;
  if isDigit r then ret (Some ScanFloatExponent)
  else if r =? chr "_" then
    s ← slice (-1); pushExponent s;;
    seqScanner [scanRecord0; ScanDigit; ScanFloatExponent]
  else
    unread;;
    s ← slice 0; pushExponent s;;
    setFloatValue.

Definition scanFloatExponentSign : M (option scanner) :=
  r ← readByte;
  (if (r =? chr "+") || (r =? chr "-") then set_esign (string_of_rune r)
   else unread);;
  seqScanner [scanRecord0; ScanDigit; ScanFloatExponent].

Definition scanNumber : M (option scanner) :=
  r ← readByte;
  if isDigit r then ret (Some ScanNumber)
  else if r =? chr "_" then
    s ← slice (-1); pushInteger s;;
    seqScanner [scanRecord0; ScanDigit; ScanNumber]
  else if r =? chr "." then
    s ← slice (-1); pushInteger s;;
    seqScanner [scanRecord0; ScanDigit; ScanFloatFraction]
  else if (r =? chr "e") || (r =? chr "E") then
    set_expo (string_of_rune r);;
    s ← slice (-1); pushInteger s;;
    seqScanner [scanRecord0; ScanDigit; ScanFloatExponent]
  else
    unread;;
    s ← slice 0; pushInteger s;;
    setIntegerValue.

Definition scanNumberStart : M (option scanner) :=
  seqScanner [scanRecord0; ScanDigit; ScanNumber].

Definition scanStringStart : M (option scanner) :=
  b ← tryReadPrefix dquote2;
  if b then
    tryReadNewline;;
    seqScanner [scanRecord0; ScanMultiLineString; SetStringValue]
  else seqScanner [scanRecord0; ScanString; SetStringValue].

Definition scanLiteralStart : M (option scanner) :=
  b ← tryReadPrefix squote2;
  if b then
    tryReadNewline;;
    seqScanner [scanRecord0; ScanMultiLineLiteral; SetStringValue]
  else seqScanner [scanRecord0; ScanLiteral; SetStringValue].

Definition scanArrayValue : M (option scanner) :=
  r ← readByte;
  b ← (if isSpace r then ret true else skipNewline r);
  if b then ret (Some ScanArrayValue)
  else if r =? chr "#" then seqScanner [ScanComment; ScanArrayValue]
  else if r =? chr "," then errorScanner "no array element before separator" []
  else if r =? chr "]" then unread;; popScanner
  else unread;; ret (Some ScanValue).

Definition scanArrayStart : M (option scanner) :=
  pushEnv (VArray true []);;
  seqScanner [ScanArrayValue; ScanArrayEnd].

Definition scanArrayEnd : M (option scanner) :=
  r ← readByte;
  if isSpace r then ret (Some ScanArrayEnd)
  else if r =? chr "#" then seqScanner [ScanComment; ScanArrayEnd]
  else if r =? chr "," then seqScanner [ScanArrayValue; ScanArrayEnd]
  else if r =? chr "]" then '(e, _) ← popEnv; setValue e
  else expectStr "',' or ']'".

Definition scanValue : M (option scanner) :=
  r ← readByte;
  if r =? chr "[" then ret (Some ScanArrayStart)
  else if r =? chr "{" then ret (Some ScanInlineTableStart)
  else if r =? chr "t" then
    b ← tryReadPrefix "rue";
    if negb b then expectStr "true" else setValue (VBoolean true)
  else if r =? chr "f" then
    b ← tryReadPrefix "alse";
    if negb b then expectStr "false" else setValue (VBoolean false)
  else if r =? dquote then ret (Some ScanStringStart)
  else if r =? squote then ret (Some ScanLiteralStart)
  else if (r =? chr "+") || (r =? chr "-") then
    set_sign (string_of_rune r);; ret (Some ScanNumberStart)
  else if isDigit r then record (-1);; ret (Some ScanNumberOrDate)
  else if isSpace r then ret (Some ScanValue)
  else expectStr "value".

Definition scanDateValue (suffix : string) : M (option scanner) :=
  s0 ← slice 0;
  let s := s0 +:+ suffix in
  match time_Parse s with
  | inr msg => errorScanner msg []
  | inl t => setValue (VDatetime t)
  end.

Definition scanDateEnd : M (option scanner) := scanDateValue "".

Definition scanDateTimeEnd : M (option scanner) :=
  r ← readByte;
  if r =? chr "Z" then scanDateEnd
  else if r =? chr "-" then
    seqScanner [ScanDigit; ScanDigit; scanColon; ScanDigit; ScanDigit; ScanDateEnd]
  else unread;; scanDateValue "Z".

(** [for isDigit(p.readByte()) {}]: every turn but the last consumes a
    byte of the input, and at its end [readByte] gives [eof]; [fuel] is
    the number of bytes left plus one. *)
Fixpoint readDigits (fuel : nat) : M unit :=
  match fuel with
  | O => ret tt
  | S fuel' => r ← readByte; if isDigit r then readDigits fuel' else ret tt
  end.

Definition scanDateTimeFraction : M (option scanner) :=
  r ← readByte;
  (if r =? chr "." then
     p ← get id; readDigits (S (length (input p) - pos p))
   else ret tt);;
  unread;;
  ret (Some ScanDateTimeEnd).

Definition scanDateTime : M (option scanner) :=
  r ← readByte;
  if r =? chr "T" then
    seqScanner [ScanDigit; ScanDigit; scanColon; ScanDigit; ScanDigit; scanColon;
                ScanDigit; ScanDigit; ScanDateTimeFraction]
  else unread;; scanDateValue "T00:00:00Z".

Definition scanNumberOrDate : M (option scanner) :=
  r ← readByte;
  if r =? chr "-" then
    seqScanner [ScanDigit; ScanDigit; scanHash; ScanDigit; ScanDigit; ScanDateTime]
  else if isDigit r then ret (Some ScanNumberOrDate)
  else unread;; ret (Some ScanNumber).

Definition scanFieldAssign : M (option scanner) :=
  r ← readByte;
  if isSpace r then ret (Some ScanFieldAssign)
  else if r =? chr "=" then ret (Some ScanValue)
  else expectRune (chr "=").

Definition scanBareKey : M (option scanner) :=
  r ← readByte;
  if isBareKeyChar r then ret (Some ScanBareKey)
  else if isSpace r then
    key ← slice (-1); pushScanner ScanFieldAssign;; pushTableKey key
  else if r =? chr "=" then
    key ← slice (-1); pushScanner ScanValue;; pushTableKey key
  else expectStr "bare character".

Definition scanKeyEnd : M (option scanner) :=
  key ← str_join;
  pushScanner ScanFieldAssign;;
  pushTableKey key.

Definition scanTableField : M (option scanner) :=
  r ← readByte;
  if isSpace r then ret (Some ScanTableField)
  else if isBareKeyChar r then record (-1);; ret (Some ScanBareKey)
  else if r =? chr "=" then errorScanner "key must be non-empty" []
  else if r =? dquote then seqScanner [scanRecord0; ScanString; ScanKeyEnd]
  else if r =? squote then seqScanner [scanRecord0; ScanLiteral; ScanKeyEnd]
  else expectStr "table field".

(** ** The driver *)

(** Calling a scanner value. *)
Definition call (s : scanner) : M (option scanner) :=
  match s with
  | ScanByte r => scanByte r
  | ScanDigit => scanDigit
  | ScanConsumeSpaceOrNewline => scanConsumeSpaceOrNewline
  | ScanRecord offset => scanRecord offset
  | ScanEscapedRune => scanEscapedRune
  | ScanLiteral => scanLiteral
  | ScanMultiLineLiteral => scanMultiLineLiteral
  | ScanMultiLineString => scanMultiLineString
  | ScanComment => scanComment
  | ScanArrayTableEnd => scanArrayTableEnd
  | ScanTableEnd => scanTableEnd
  | ScanTableStart => scanTableStart
  | ScanString => scanString
  | ScanTableNameString => scanTableNameString
  | ScanTableNameStart => scanTableNameStart
  | ScanTableNameInside => scanTableNameInside
  | ScanTableNameEnd => scanTableNameEnd
  | ScanTop => scanTop
  | ScanTopEnd => scanTopEnd
  | ScanInlineTableFieldEnd => scanInlineTableFieldEnd
  | ScanInlineTableStart => scanInlineTableStart
  | ScanFloatFraction => scanFloatFraction
  | ScanFloatExponent => scanFloatExponent
  | ScanFloatExponentSign => scanFloatExponentSign
  | ScanNumber => scanNumber
  | ScanNumberStart => scanNumberStart
  | SetStringValue => setStringValue
  | ScanStringStart => scanStringStart
  | ScanLiteralStart => scanLiteralStart
  | ScanArrayValue => scanArrayValue
  | ScanArrayStart => scanArrayStart
  | ScanArrayEnd => scanArrayEnd
  | ScanValue => scanValue
  | ScanDateEnd => scanDateEnd
  | ScanDateTimeEnd => scanDateTimeEnd
  | ScanDateTimeFraction => scanDateTimeFraction
  | ScanDateTime => scanDateTime
  | ScanNumberOrDate => scanNumberOrDate
  | ScanFieldAssign => scanFieldAssign
  | ScanBareKey => scanBareKey
  | ScanKeyEnd => scanKeyEnd
  | ScanTableField => scanTableField
  end.

(** One turn of the loop of [parser.parse]. *)
Definition turn (s : scanner) : M (option scanner) :=
  clearBackups;; call s.

(** The loop [for scanner != nil], for at most [fuel] turns; [None] when
    the fuel does not reach the [nil] scanner. *)
Fixpoint loop (fuel : nat) (s : option scanner) (p : parser) : option (outcome unit) :=
  match s with
  | None => Some (Ret tt p)
  | Some s =>
    match fuel with
    | O => None
    | S fuel' =>
      match turn s p with
      | Ret s' p' => loop fuel' s' p'
      | Raise e => Some (Raise e)
      | Crash => Some Crash
      end
    end
  end.

Definition newParser (t : Value) (s : list ascii) : parser :=
  {| mark := -1; pos := 0; line := 1; input := s; backups := [];
     root := t; envs := [mkEnvironment (InRoot []) ""]; keys := [];
     names := []; strparts := []; num := numParser_reset;
     scanners := []; err := None |}.

(** What [parse] returns: the root table, a [*ParseError], or a run-time
    panic that leaves [parse]. *)
Inductive result :=
| Tree (t : Value)
| Failure (e : ParseError)
| Panic.

(** [parse(data)], the loop bounded by [fuel]. *)
Definition parse (fuel : nat) (data : string) : option result :=
  match loop fuel (Some ScanTop) (newParser (newTable false) (bytes data)) with
  | None => None
  | Some (Ret _ p) =>
    Some match err p with
         | Some e => Failure e
         | None => Tree (root p)
         end
  | Some (Raise e) => Some (Failure e)
  | Some Crash => Some Panic
  end.

(** ** encode.go: the emitter *)

(** The Go values the emitter is given when it emits a tree: the values
    [Table.Interface] builds, [bool], [int64], [float64], [string],
    [time.Time], [[]interface{}] and [map[string]interface{}].  The
    entries of a map are kept in the order in which [reflect]'s [MapKeys]
    lists its keys on the call that emits the map; Go leaves that order
    open.  Struct-shaped inputs, unsigned integers and byte slices are
    not among these values and stay outside the model. *)
Inductive GoValue :=
| GoBool (b : bool)
| GoInt (i : Z)
| GoFloat (f : float64)
| GoString (s : string)
| GoTime (t : Time)
| GoSlice (elems : list GoValue)
| GoMap (entries : list (string * GoValue)).

(** [reflect.Type.String] *)
Definition go_type (v : GoValue) : string :=
  match v with
  | GoBool _ => "bool"
  | GoInt _ => "int64"
  | GoFloat _ => "float64"
  | GoString _ => "string"
  | GoTime _ => "time.Time"
  | GoSlice _ => "[]interface {}"
  | GoMap _ => "map[string]interface {}"
  end.

Inductive MarshalError :=
| InvalidUTF8Error (S : string)
| DuplicatedKeyError (Path Key : string)
| MarshalTypeError (Type_ As : string)
| MarshalArrayError (Expected Got : string).

(** [tagOptions]: [None] is the [nil] map. *)
Definition tagOptions := option (list string).

Definition Has (o : tagOptions) (opt : string) : bool :=
  match o with
  | None => false
  | Some l => existsb (String.eqb opt) l
  end.

Record field := mkField { key : string; value : GoValue }.

(** [table]; [tkeys] is [None] for the [nil] map of a map-shaped table. *)
Record table := mkTable {
  Inline : bool;
  Path : string;
  sep : string;
  tkeys : option (list string);
  tables : list field;
}.

(** The emitter writes to a buffer and leaves by [panic] with an error,
    which [catchError] returns, or with another value, which it lets
    through; the recursion on the value is bounded by fuel. *)
Inductive emitted (A : Type) :=
| Wrote (a : A) (buf : string)
| Failed (e : MarshalError)
| Aborted
| Starved.
Arguments Wrote {A} a buf.
Arguments Failed {A} e.
Arguments Aborted {A}.
Arguments Starved {A}.

Definition W (A : Type) : Type := string → emitted A.

Definition wret {A} (a : A) : W A := λ buf, Wrote a buf.
Definition wbind {A B} (m : W A) (k : A → W B) : W B :=
  λ buf, match m buf with
         | Wrote a buf' => k a buf'
         | Failed e => Failed e
         | Aborted => Aborted
         | Starved => Starved
         end.
Definition WriteString (s : string) : W unit := λ buf, Wrote tt (buf +:+ s).
Definition wfail {A} (e : MarshalError) : W A := λ _, Failed e.

Declare Scope emit_scope.
Delimit Scope emit_scope with emit.
Notation "x ← y ; z" := (wbind y (λ x, z))
  (at level 20, y at level 100, z at level 200, only parsing) : emit_scope.
Notation "x ;; z" := (wbind x (λ _, z))
  (at level 100, z at level 200, only parsing, right associativity) : emit_scope.
Local Close Scope go_scope.
Local Open Scope emit_scope.

Definition fieldSep (t : table) : string * table :=
  let s := sep t in
  if String.eqb s "" then (s, mkTable (Inline t) (Path t) nl (tkeys t) (tables t))
  else if String.eqb s " " then (s, mkTable (Inline t) (Path t) ", " (tkeys t) (tables t))
  else (s, t).

Definition tableSep (t : table) : string * table :=
  let s := sep t in
  if String.eqb s "" then (s, mkTable (Inline t) (Path t) nl (tkeys t) (tables t))
  else (nl +:+ nl, t).

Definition recordKey (t : table) (k : string) : W table :=
  match tkeys t with
  | None => wret t
  | Some ks =>
    if existsb (String.eqb k) ks then wfail (DuplicatedKeyError (Path t) k)
    else wret (mkTable (Inline t) (Path t) (sep t) (Some (k :: ks)) (tables t))
  end.

Definition appendStructField (t : table) (k : string) (v : GoValue) : W table :=
  t ← recordKey t k;
  wret (mkTable (Inline t) (Path t) (sep t) (tkeys t) (tables t ++ [mkField k v])).

Definition WriteSepKeyAssign (sep key : string) : W unit :=
  WriteString sep;; WriteString (normalizeKey key);; WriteString " = ".

(** A byte of a multi-byte or ill-formed sequence decodes to a rune that
    is not below [RuneSelf], so the runes are ASCII when the bytes are. *)
Definition isASCIIString (s : string) : bool :=
  forallb (λ c, chr c <? RuneSelf) (bytes s).

(** [fmt.Sprintf] with [%04x] and [%08x]: [width] hexadecimal digits. *)
Definition hex_digit (d : Z) : ascii :=
  if d <? 10 then byte_of (48 + d) else byte_of (87 + d).

Fixpoint hex_pad (width : nat) (r : Z) : list ascii :=
  match width with
  | O => []
  | S w => hex_pad w (r / 16) ++ [hex_digit (r mod 16)]
  end.

(** The loop of [quoteBasic]; each turn takes at least one byte of [s], so
    [length s] turns are enough.  [None] is the panic with
    [InvalidUTF8Error]. *)
Fixpoint quoteBasic_loop (fuel : nat) (multiline ASCIIOnly : bool)
    (s : list ascii) (pendingQuotes buf : string) : option string :=
  match fuel, s with
  | O, _ | _, [] => Some buf
  | S fuel', c :: _ =>
    let '(r, width) :=
      if RuneSelf <=? chr c then DecodeRuneInString s else (chr c, 1%nat) in
    let s' := drop width s in
    if r =? RuneError then None
    else if r =? dquote then
      if negb multiline || (String.length pendingQuotes =? 2)%nat
      then quoteBasic_loop fuel' multiline ASCIIOnly s' pendingQuotes
             (buf +:+ "\" +:+ char_string 34)
      else quoteBasic_loop fuel' multiline ASCIIOnly s'
             (pendingQuotes +:+ char_string 34) buf
    else
      let buf := if String.eqb pendingQuotes "" then buf else buf +:+ pendingQuotes in
      let continue := quoteBasic_loop fuel' multiline ASCIIOnly s' pendingQuotes in
      if r =? backslash then continue (buf +:+ "\\")
      else if multiline && ((r =? 13) || (r =? 10)) then continue (buf +:+ char_string r)
      else if ASCIIOnly && ((r <? RuneSelf) && IsPrint r) then continue (buf +:+ char_string r)
      else if negb ASCIIOnly && IsPrint r then continue (buf +:+ string_of_rune r)
      else if r =? 8 then continue (buf +:+ "\b")
      else if r =? 9 then continue (buf +:+ "\t")
      else if r =? 12 then continue (buf +:+ "\f")
      else if r =? 13 then continue (buf +:+ "\r")
      else if r =? 10 then continue (buf +:+ "\n")
      else if r <? 65536 then continue (buf +:+ "\u" +:+ of_bytes (hex_pad 4 r))
      else continue (buf +:+ "\U" +:+ of_bytes (hex_pad 8 r))
  end.

Definition dquote3 : string := of_bytes [byte_of 34; byte_of 34; byte_of 34].

Definition quoteBasic (s quotes : string) (ASCIIOnly : bool) : W string :=
  match quoteBasic_loop (String.length s) (String.eqb quotes dquote3) ASCIIOnly
          (bytes s) "" "" with
  | Some q => wret q
  | None => wfail (InvalidUTF8Error s)
  end.

Definition marshalBasicString (s : string) (options : tagOptions) : W unit :=
  WriteString (char_string 34);;
  q ← quoteBasic s (char_string 34) (Has options "ascii");
  WriteString q;;
  WriteString (char_string 34).

Definition marshalMultilineString (s : string) (options : tagOptions) : W unit :=
  WriteString dquote3;;
  WriteString nl;;
  q ← quoteBasic s dquote3 (Has options "ascii");
  WriteString q;;
  WriteString dquote3.

Definition marshalLiteralString (s : string) (options : tagOptions) : W unit :=
  if Has options "ascii" && negb (isASCIIString s) then marshalBasicString s options
  else WriteString "'";; WriteString s;; WriteString "'".

Definition marshalMultilineLiteral (s : string) (options : tagOptions) : W unit :=
  if Has options "ascii" && negb (isASCIIString s) then marshalMultilineString s options
  else WriteString "'''";; WriteString nl;; WriteString s;; WriteString "'''".

(** [strings.Index(s, sub) != -1] *)
Fixpoint contains (s sub : list ascii) : bool :=
  HasPrefix s sub ||
  match s with
  | [] => false
  | _ :: s' => contains s' sub
  end.

(** [strings.IndexAny(s, chars) != -1], for ASCII [chars] *)
Definition containsAny (s : string) (chars : list rune) : bool :=
  existsb (λ c, existsb (Z.eqb (chr c)) chars) (bytes s).

Definition marshalStringValue (s : string) (options : tagOptions) : W unit :=
  if Has options "multiline" then
    if Has options "literal" && negb (contains (bytes s) (bytes "'''"))
    then marshalMultilineLiteral s options
    else marshalMultilineString s options
  else if Has options "literal" && negb (containsAny s [squote; 13; 10])
  then marshalLiteralString s options
  else marshalBasicString s options.

Definition marshalRawValue (v : string) (options : tagOptions) : W unit :=
  if Has options "string" || Has options "literal" then marshalStringValue v options
  else WriteString v.

Definition marshalBoolValue (b : bool) (options : tagOptions) : W unit :=
  marshalRawValue (if b then "true" else "false") options.

Definition marshalIntValue (i : Z) (options : tagOptions) : W unit :=
  marshalRawValue (FormatInt i) options.

Definition marshalFloatValue (f : float64) (options : tagOptions) : W unit :=
  let s := FormatFloat f in
  let s := if containsAny s [chr "."; chr "e"] then s else s +:+ ".0" in
  marshalRawValue s options.

Definition marshalDatetimeValue (t : Time) (options : tagOptions) : W unit :=
  marshalRawValue (time_Format t) options.

(** The scalar fields: [recordKey], the separator and the key, the value. *)
Definition marshalField (t : table) (k : string) (body : W unit) : W table :=
  t ← recordKey t k;
  let '(s, t) := fieldSep t in
  WriteSepKeyAssign s k;;
  body;;
  wret t.

Definition isEmptyValue (v : GoValue) : bool :=
  match v with
  | GoSlice l => (length l =? 0)%nat
  | GoMap l => (length l =? 0)%nat
  | GoString s => (String.length s =? 0)%nat
  | GoBool b => negb b
  | GoInt i => i =? 0
  | GoFloat f => IsZero f
  | GoTime _ => false
  end.

(** [indirectPtr] finds an [encoding.TextMarshaler] among these values
    only in [time.Time], which is also their only struct. *)
Definition textMarshaler (v : GoValue) : bool :=
  match v with GoTime _ => true | _ => false end.

Definition isTableType (v : GoValue) : bool :=
  match v with GoMap _ | GoTime _ => true | _ => false end.

(** [checkArrayElemType]: the closure's variable is threaded. *)
Definition check (elemType newType : string) : W string :=
  if String.eqb elemType "" then wret newType
  else if negb (String.eqb elemType newType)
  then wfail (MarshalArrayError elemType newType)
  else wret elemType.

Fixpoint wfold {A S} (f : S → A → W S) (l : list A) (s : S) : W S :=
  match l with
  | [] => wret s
  | a :: l' => s' ← f s a; wfold f l' s'
  end.

Definition starve {A} : W A := λ _, Starved.
Definition abort {A} : W A := λ _, Aborted.

(** [marshalArrayValue], [marshalMapValue] and [marshalTableField] with
    [marshalArrayField] and [marshalMapField], which call each other on
    the parts of a value. *)
Fixpoint marshalArrayValue (fuel : nat) (path : string) (elems : list GoValue)
    (options : tagOptions) : W string :=
  match fuel with
  | O => starve
  | S fuel' =>
    WriteString "[";;
    wfold (λ '(sep, elemType, i) elem,
      WriteString sep;;
      match elem with
      | GoTime t =>
        ty ← check elemType "datetime";
        marshalDatetimeValue t options;;
        wret (sep, ty, S i)
      | GoBool b =>
        ty ← check elemType "boolean";
        marshalBoolValue b options;;
        wret (", ", ty, S i)
      | GoInt n =>
        ty ← check elemType "integer";
        marshalIntValue n options;;
        wret (", ", ty, S i)
      | GoFloat f =>
        ty ← check elemType "float";
        marshalFloatValue f options;;
        wret (", ", ty, S i)
      | GoString s =>
        ty ← check elemType "string";
        marshalStringValue s options;;
        wret (", ", ty, S i)
      | GoSlice l =>
        new ← marshalArrayValue fuel' (combineIndexPath path i) l options;
        ty ← check elemType new;
        wret (", ", ty, S i)
      | GoMap entries =>
        ty ← check elemType "table";
        marshalMapValue fuel' (combineIndexPath path i) entries options;;
        wret (", ", ty, S i)
      end) elems (" ", "", 0%nat);;
    WriteString " ]";;
    wret "array"
  end
with marshalMapValue (fuel : nat) (path : string) (entries : list (string * GoValue))
    (options : tagOptions) : W unit :=
  match fuel with
  | O => starve
  | S fuel' =>
    WriteString "{";;
    wfold (λ t '(k, v), marshalTableField fuel' t k v None) entries
      (mkTable true "" " " None []);;
    WriteString "}"
  end
with marshalTableField (fuel : nat) (t : table) (k : string) (v : GoValue)
    (options : tagOptions) : W table :=
  match fuel with
  | O => starve
  | S fuel' =>
    match v with
    | GoTime d => marshalField t k (marshalDatetimeValue d options)
    | _ =>
      if Has options "omitempty" && isEmptyValue v then wret t
      else
        match v with
        | GoBool b => marshalField t k (marshalBoolValue b options)
        | GoInt i => marshalField t k (marshalIntValue i options)
        | GoFloat f => marshalField t k (marshalFloatValue f options)
        | GoString s => marshalField t k (marshalStringValue s options)
        | GoSlice l =>
          (* marshalArrayField *)
          match l with
          | elem :: _ =>
            if negb (textMarshaler elem) && isTableType elem
               && negb (Has options "inline")
            then appendStructField t k v
            else marshalField t k
                   (marshalArrayValue fuel' (combineKeyPath (Path t) k) l options;;
                    wret tt)
          | [] =>
            marshalField t k
              (marshalArrayValue fuel' (combineKeyPath (Path t) k) l options;;
               wret tt)
          end
        | GoMap entries =>
          if Inline t || Has options "inline"
          then (* marshalMapField *)
            marshalField t k
              (marshalMapValue fuel' (combineKeyPath (Path t) k) entries None)
          else appendStructField t k v
        | GoTime _ => wret t
        end
    end
  end.

(** [marshalMap] with [marshalTables], over the postponed fields. *)
Fixpoint marshalMap (fuel : nat) (path : string) (entries : list (string * GoValue))
  : W unit :=
  match fuel with
  | O => starve
  | S fuel' =>
    t ← wfold (λ t '(k, v), marshalTableField fuel t k v None) entries
          (mkTable false path (if String.eqb path "" then "" else nl) None []);
    (* marshalTables(t, t.tables) *)
    wfold (λ sup f,
      let path := combineKeyPath (Path sup) (key f) in
      match value f with
      | GoMap entries' =>
        let '(s, sup) := tableSep sup in
        WriteString (s +:+ "[" +:+ path +:+ "]");;
        marshalMap fuel' path entries';;
        wret sup
      | GoSlice l =>
        wfold (λ sup elem,
          let '(s, sup) := tableSep sup in
          WriteString (s +:+ "[[" +:+ path +:+ "]]");;
          if textMarshaler elem then wfail (MarshalTypeError (go_type elem) "table")
          else
            match elem with
            | GoMap entries' => marshalMap fuel' path entries';; wret sup
            | _ => wfail (MarshalTypeError (go_type elem) "table")
            end) l sup
      | _ => abort
      end) (tables t) t;;
    wret tt
  end.

(** [Marshal(v)] for a value of these kinds: a map is a table, anything
    else is refused by [validMarshal].  The bytes returned are the buffer
    of [Wrote]. *)
Definition Marshal (fuel : nat) (v : GoValue) : emitted unit :=
  match v with
  | GoMap entries => (marshalMap fuel "" entries;; WriteString nl) ""
  | _ => Failed (MarshalTypeError (go_type v) "table")
  end.

(** ** [Table.Interface]: the tree as Go values *)

(** [Interface] gives a Go map; the order of its entries here is the one
    in which [map_to_list] lists the keys, one of the orders [MapKeys]
    may list them in. *)
Fixpoint Interface (v : Value) : GoValue :=
  match v with
  | VBoolean b => GoBool b
  | VInteger i => GoInt i
  | VFloat f => GoFloat f
  | VString s => GoString s
  | VDatetime d => GoTime d
  | VArray _ l => GoSlice (map Interface l)
  | VTable _ m => GoMap (map_to_list (Interface <$> m))
  end.

End Model.

Arguments Ret {_ _} a p.
Arguments Raise {_ _} e.
Arguments Crash {_ _}.
Arguments Wrote {_} a buf.
Arguments Failed {_} e.
Arguments Aborted {_}.
Arguments Starved {_}.

(** A small instance of the library for running the model on documents
    without float and datetime literals: a float is kept as the text
    handed to [ParseFloat], an instant as its RFC 3339 text, and
    [Quote] and [IsPrint] are the ones of printable ASCII without quotes
    and backslashes. *)
Definition TextStd : GoStd :=
  {| float64 := string; Time := string;
     ParseFloat := λ s, inl s;
     FormatFloat := λ s, s;
     time_Parse := λ s, inl s;
     time_Format := λ s, s;
     Quote := λ s, char_string 34 +:+ s +:+ char_string 34;
     IsPrint := λ r, between 32 126 r;
     IsZero := λ s, String.eqb s "0" |}.



(** ** Notions used by the statements *)


(** The range of [int64]. *)
Definition int64_range (i : Z) : Prop :=
  -9223372036854775808 <= i <= 9223372036854775807.

(** The elements of an array have one type. *)
Definition homogeneous `{GoStd} (l : list Value) : Prop :=
  ∀ x y, x ∈ l → y ∈ l → Type_ x = Type_ y.

(** An open array, the array of tables of a [[name]] header, starts with a
    table. *)
Definition starts_with_table `{GoStd} (l : list Value) : Prop :=
  ∃ x, head l = Some x ∧ Type_ x = "table".

(** Every array inside the value is homogeneous, and the open ones are
    arrays of tables. *)
Inductive well_typed `{GoStd} : Value → Prop :=
| wt_Boolean b : well_typed (VBoolean b)
| wt_Integer i : well_typed (VInteger i)
| wt_Float f : well_typed (VFloat f)
| wt_String s : well_typed (VString s)
| wt_Datetime d : well_typed (VDatetime d)
| wt_Array c l :
    Forall well_typed l → homogeneous l → (c = false → starts_with_table l) →
    well_typed (VArray c l)
| wt_Table im m :
    (∀ k v, m !! k = Some v → well_typed v) → well_typed (VTable im m).

(** [inside v t]: the value [v] occurs in the tree [t], as [t] itself, as
    an element of an array or as the value of a key of a table in it. *)
Inductive inside `{GoStd} (v : Value) : Value → Prop :=
| inside_here : inside v v
| inside_array c l x : x ∈ l → inside v x → inside v (VArray c l)
| inside_table im m k x : m !! k = Some x → inside v x → inside v (VTable im m).

(** The root of a parse: a table that no header made implicit. *)
Definition is_root `{GoStd} (v : Value) : Prop := ∃ m, v = VTable false m.

(** Hoare triples over the parser's monad; nothing is asked of a call that
    leaves by panic. *)
Definition hoare `{GoStd} {A} (P : parser → Prop) (m : M A) (Q : A → parser → Prop)
  : Prop :=
  ∀ p, P p → match m p with
             | Ret a p' => Q a p'
             | Raise _ | Crash => True
             end.

(** A call that leaves the tree, the environments and the error alone. *)
Definition neutral `{GoStd} {A} (m : M A) : Prop :=
  ∀ p, match m p with
       | Ret _ p' => root p' = root p ∧ envs p' = envs p ∧ err p' = err p
       | Raise _ | Crash => True
       end.

(** The invariant of the loop of [parse]: the tree and the objects under
    construction are well typed, the root is the root table, and no error
    has been written. *)
Definition fresh_ok `{GoStd} (e : environment) : Prop :=
  match env e with
  | Fresh v => well_typed v
  | InRoot _ => True
  end.

Definition tree_ok `{GoStd} (p : parser) : Prop :=
  well_typed (root p) ∧ is_root (root p) ∧ Forall fresh_ok (envs p).

Definition running `{GoStd} (p : parser) : Prop := tree_ok p ∧ err p = None.

(** What a scanner leaves: the tree invariant, and no error unless the
    next scanner is [nil]. *)
Definition scanned `{GoStd} (s : option scanner) (p : parser) : Prop :=
  tree_ok p ∧ (is_Some s → err p = None).

(** [steps n s p]: the scanner and the parser after [n] turns of the loop
    of [parse] from [s] and [p], when no turn panics and the [nil]
    scanner is not reached before. *)
Fixpoint steps `{GoStd} (n : nat) (s : scanner) (p : parser) : option (option scanner * parser) :=
  match n with
  | O => Some (Some s, p)
  | S n' =>
    match turn s p with
    | Ret (Some s') p' => steps n' s' p'
    | Ret None p' => match n' with O => Some (None, p') | S _ => None end
    | _ => None
    end
  end.

(** The NUL byte. *)
Definition nul : ascii := "000"%char.

(** The parser with the input cut at the cursor. *)
Definition cut `{GoStd} (p : parser) : parser :=
  mkParser (mark p) (pos p) (line p) (take (pos p) (input p)) (backups p)
    (root p) (envs p) (keys p) (names p) (strparts p) (num p) (scanners p) (err p).

(** The string of a double quote. *)
Definition dq : string := of_bytes [byte_of 34].

(** What the header [[names]] does to the tree once its names are
    scanned: [scanTableEnd] with [p.names = names]. *)
Definition define_table `{GoStd} (names : list string) : M (option scanner) :=
  bind (modify (set_names names)) (λ _, scanTableEnd).

(** The tree after a call, when it returns and has written no error. *)
Definition tree_after `{GoStd} {A} (m : M A) (p : parser) : option Value :=
  match m p with
  | Ret _ p' => match err p' with None => Some (root p') | Some _ => None end
  | _ => None
  end.


(** The number of the line a byte offset of a document is on: one more
    than the number of line feeds before it. *)
Definition line_of (data : string) (offset : nat) : Z :=
  1 + Z.of_nat (length (filter (λ c, c = "010"%char) (take offset (bytes data)))).

(** ** C4: number or date *)

(** The two ways [scanNumberOrDate] hands a token over. *)
Inductive branch := DateBranch | NumberBranch.

(** [scanNumberOrDate] called as long as it returns itself: the scanner
    it hands over to, and the parser then. *)
Fixpoint numberOrDate_exit `{GoStd} (fuel : nat) (p : parser)
  : option (option scanner * parser) :=
  match fuel with
  | O => None
  | S fuel' =>
    match turn ScanNumberOrDate p with
    | Ret (Some ScanNumberOrDate) p' => numberOrDate_exit fuel' p'
    | Ret s p' => Some (s, p')
    | _ => None
    end
  end.

(** The branch taken on a value token that is the whole input: [scanValue]
    on its first byte, then [scanNumberOrDate].  The date branch is the one
    that returns [scanDigit] with the rest of the date scanners pushed,
    the number branch the one that returns [scanNumber]. *)
Definition branch_of `{GoStd} (tok : string) : option branch :=
  match turn ScanValue (newParser (newTable false) (bytes tok)) with
  | Ret (Some ScanNumberOrDate) p =>
    match numberOrDate_exit (S (String.length tok)) p with
    | Some (Some ScanDigit, p') =>
      match scanners p' with
      | [ScanDigit; ScanByte _; ScanDigit; ScanDigit; ScanDateTime] => Some DateBranch
      | _ => None
      end
    | Some (Some ScanNumber, _) => Some NumberBranch
    | _ => None
    end
  | _ => None
  end.

(** The branch as the specification has it: a date when the token matches
    [dddd-], four digits and a hyphen as its fifth character, a number
    otherwise. *)
Definition spec_branch (tok : string) : branch :=
  match bytes tok with
  | d1 :: d2 :: d3 :: d4 :: c :: _ =>
    if isDigit (chr d1) && isDigit (chr d2) && isDigit (chr d3) && isDigit (chr d4)
       && (chr c =? chr "-")
    then DateBranch else NumberBranch
  | _ => NumberBranch
  end.

(** *** Notions of C9 *)



(** The width of the last read of [readDigits]: none at the end of the
    input. *)
Definition last_step (tl : list ascii) : nat :=
  match tl with [] => 0 | _ :: _ => 1 end.



(** What [parse] makes of the outcome of the loop. *)
Definition verdict `{GoStd} (o : option (outcome unit)) : option result :=
  match o with
  | None => None
  | Some (Ret _ p) =>
    Some match err p with
         | Some e => Failure e
         | None => Tree (root p)
         end
  | Some (Raise e) => Some (Failure e)
  | Some Crash => Some Panic
  end.


(** *** Notions of C2 *)

(** A byte the emitter writes as it is inside a basic string and the
    parser reads as it is: printable ASCII, no quote, no backslash. *)
Definition plain_char `{GoStd} (c : ascii) : Prop :=
  32 ≤ chr c < 127 ∧ chr c ≠ 34 ∧ chr c ≠ 92 ∧ IsPrint (chr c) = true.

Definition plain_string `{GoStd} (s : string) : Prop :=
  Forall plain_char (bytes s).

(** The byte of a double quote. *)
Definition dqc : ascii := byte_of 34.

(** The Go values of the flat fragment: booleans, integers of 64 bits
    and strings of plain bytes. *)
Definition flat_go `{GoStd} (g : GoValue) : Prop :=
  match g with
  | GoBool _ => True
  | GoInt i => int64_range i
  | GoString s => plain_string s
  | _ => False
  end.

(** What the emitter writes for such a value. *)
Definition text_of `{GoStd} (g : GoValue) : string :=
  match g with
  | GoBool b => if b then "true" else "false"
  | GoInt i => FormatInt i
  | GoString s => dq +:+ s +:+ dq
  | _ => ""
  end.

(** The tree value such a Go value comes from. *)
Definition value_of `{GoStd} (g : GoValue) : Value :=
  match g with
  | GoInt i => VInteger i
  | GoBool b => VBoolean b
  | GoString s => VString s
  | _ => VBoolean false
  end.

(** A key the emitter writes bare and the parser reads back. *)
Definition bare_key (k : string) : Prop :=
  k ≠ "" ∧ forallb (λ c, isBareKeyChar (chr c)) (bytes k) = true.

(** The parser between two fields of the root table [m]. *)
Definition st `{GoStd} (mk : Z) (ps : nat) (ln : Z) (inp : list ascii)
    (bk : list nat) (m : gmap string Value) : parser :=
  {| mark := mk; pos := ps; line := ln; input := inp; backups := bk;
     root := VTable false m; envs := [mkEnvironment (InRoot []) ""];
     keys := []; names := []; strparts := []; num := numParser_reset;
     scanners := []; err := None |}.

(** The parser on the value of the field [k]. *)
Definition st_value `{GoStd} (mk : Z) (ps : nat) (ln : Z) (inp : list ascii)
    (bk : list nat) (m : gmap string Value) (k : string) : parser :=
  {| mark := mk; pos := ps; line := ln; input := inp; backups := bk;
     root := VTable false m; envs := [mkEnvironment (InRoot []) ""];
     keys := [k]; names := []; strparts := []; num := numParser_reset;
     scanners := [ScanTopEnd]; err := None |}.

(** The byte of a line feed. *)
Definition lf : ascii := "010"%char.

(** The value [ParseUint] reaches on a numeral from the value [n] read
    so far. *)
Fixpoint uint_val (d : Decimal.uint) (n : Z) : Z :=
  match d with
  | Decimal.Nil => n
  | Decimal.D0 d => uint_val d (n * 10 + 0)
  | Decimal.D1 d => uint_val d (n * 10 + 1)
  | Decimal.D2 d => uint_val d (n * 10 + 2)
  | Decimal.D3 d => uint_val d (n * 10 + 3)
  | Decimal.D4 d => uint_val d (n * 10 + 4)
  | Decimal.D5 d => uint_val d (n * 10 + 5)
  | Decimal.D6 d => uint_val d (n * 10 + 6)
  | Decimal.D7 d => uint_val d (n * 10 + 7)
  | Decimal.D8 d => uint_val d (n * 10 + 8)
  | Decimal.D9 d => uint_val d (n * 10 + 9)
  end.

(** The digits of a positive number: [FormatInt] of it. *)
Definition digits_of (p : positive) : string :=
  NilEmpty.string_of_uint (Pos.to_uint p).

(** The text of a boolean. *)
Definition bool_text (b : bool) : string := if b then "true" else "false".

(** [reach s p s' p']: some turns of the loop lead from the scanner [s]
    and the parser [p] to [s'] and [p']. *)
Definition reach `{GoStd} (s : scanner) (p : parser) (s' : scanner) (p' : parser) : Prop :=
  ∃ n, steps n s p = Some (Some s', p').

(** What the emitter writes for the entries of a flat table: a field a
    line, the separator in front. *)
Fixpoint body `{GoStd} (s0 : string) (es : list (string * GoValue)) : string :=
  match es with
  | [] => ""
  | (k, g) :: es' => s0 +:+ k +:+ " = " +:+ text_of g +:+ body nl es'
  end.

Definition flat_entries `{GoStd} (es : list (string * GoValue)) : Prop :=
  Forall (λ e, bare_key e.1 ∧ flat_go e.2) es.

(** The bytes of the line of a field, and of the lines of the fields. *)
Definition line_bytes `{GoStd} (e : string * GoValue) : list ascii :=
  (bytes e.1 ++ bytes " = " ++ bytes (text_of e.2) ++ [lf])%list.

Definition doc_bytes `{GoStd} (es : list (string * GoValue)) : list ascii :=
  flat_map line_bytes es.

(** The field of an entry put into a table. *)
Definition put `{GoStd} (m : gmap string Value) (e : string * GoValue) : gmap string Value :=
  <[e.1 := value_of e.2]> m.

(** The tree values of the flat fragment. *)
Definition flat_value `{GoStd} (v : Value) : Prop :=
  match v with
  | VBoolean _ => True
  | VInteger i => int64_range i
  | VString s => plain_string s
  | _ => False
  end.

(** A blank byte: a space, a tab or a line feed. *)
Definition blank (c : ascii) : Prop :=
  c = " "%char ∨ c = "009"%char ∨ c = lf.

(** The number of line feeds among bytes. *)
Definition line_feeds (cs : list ascii) : nat :=
  length (filter (λ c, c = lf) cs).
(** What the header [[[names]]] does to the tree once its names are
    scanned: [scanArrayTableEnd] with [p.names = names]. *)
Definition define_array `{GoStd} (names : list string) : M (option scanner) :=
  bind (modify (set_names names)) (λ _, scanArrayTableEnd).
(** A call made [n] times in a row. *)
Fixpoint iterate `{GoStd} {A} (n : nat) (m : M A) : M unit :=
  match n with
  | O => ret tt
  | S n' => bind m (λ _, iterate n' m)
  end.
(** The Go values the emitter writes as plain scalars whatever they
    hold: booleans and integers. *)
Definition plain_go `{GoStd} (g : GoValue) : Prop :=
  match g with
  | GoBool _ | GoInt _ => True
  | _ => False
  end.

(** The TOML type the emitter checks an array element as. *)
Definition kind_of `{GoStd} (g : GoValue) : string :=
  match g with
  | GoBool _ => "boolean"
  | GoInt _ => "integer"
  | GoFloat _ => "float"
  | GoString _ => "string"
  | GoTime _ => "datetime"
  | GoSlice _ => "array"
  | GoMap _ => "table"
  end.

(** The step of the loop of [marshalArrayValue] over the elements. *)
Definition array_step `{GoStd} (fuel : nat) (path : string) (options : tagOptions)
  : string * string * nat → GoValue → W (string * string * nat) :=
  λ '(sep, elemType, i) elem,
  wbind (WriteString sep) (λ _,
    match elem with
    | GoTime t =>
      wbind (check elemType "datetime") (λ ty,
      wbind (marshalDatetimeValue t options) (λ _, wret (sep, ty, S i)))
    | GoBool b =>
      wbind (check elemType "boolean") (λ ty,
      wbind (marshalBoolValue b options) (λ _, wret (", ", ty, S i)))
    | GoInt n =>
      wbind (check elemType "integer") (λ ty,
      wbind (marshalIntValue n options) (λ _, wret (", ", ty, S i)))
    | GoFloat f =>
      wbind (check elemType "float") (λ ty,
      wbind (marshalFloatValue f options) (λ _, wret (", ", ty, S i)))
    | GoString s =>
      wbind (check elemType "string") (λ ty,
      wbind (marshalStringValue s options) (λ _, wret (", ", ty, S i)))
    | GoSlice l =>
      wbind (marshalArrayValue fuel (combineIndexPath path i) l options) (λ new,
      wbind (check elemType new) (λ ty, wret (", ", ty, S i)))
    | GoMap entries =>
      wbind (check elemType "table") (λ ty,
      wbind (marshalMapValue fuel (combineIndexPath path i) entries options)
        (λ _, wret (", ", ty, S i)))
    end).

(** The step of the loop of [marshalTables] over the postponed fields. *)
Definition tables_step `{GoStd} (fuel : nat) : table → field → W table :=
  λ sup f,
    let path := combineKeyPath (Path sup) (key f) in
    match value f with
    | GoMap entries' =>
      let '(s, sup) := tableSep sup in
      wbind (WriteString (s +:+ "[" +:+ path +:+ "]")) (λ _,
      wbind (marshalMap fuel path entries') (λ _, wret sup))
    | GoSlice l =>
      wfold (λ sup elem,
        let '(s, sup) := tableSep sup in
        wbind (WriteString (s +:+ "[[" +:+ path +:+ "]]")) (λ _,
        if textMarshaler elem then wfail (MarshalTypeError (go_type elem) "table")
        else
          match elem with
          | GoMap entries' => wbind (marshalMap fuel path entries') (λ _, wret sup)
          | _ => wfail (MarshalTypeError (go_type elem) "table")
          end)) l sup
    | _ => abort
    end.

(** The separator in front of the next field, after the fields [es]. *)
Definition next_sep `{GoStd} (s0 : string) (es : list (string * GoValue)) : string :=
  match es with [] => s0 | _ :: _ => nl end.

(** *** Notions of the bound on the turns of the loop *)

(** The weight of a scanner: more than the weights of the scanners it
    pushes or hands over to without reading a byte. *)
Definition weight (s : scanner) : nat :=
  match s with
  | ScanTableStart => 5
  | ScanTop | ScanFloatExponentSign | ScanNumberStart | ScanStringStart
  | ScanLiteralStart | ScanArrayStart => 4
  | ScanArrayTableEnd | ScanTableEnd | ScanInlineTableStart => 3
  | ScanTopEnd | ScanTableNameString | ScanArrayValue | ScanDateTimeFraction
  | ScanNumberOrDate | ScanKeyEnd => 2
  | _ => 1
  end.

(** The bytes of the input after the cursor. *)
Definition left_over `{GoStd} (p : parser) : nat := length (input p) - pos p.

(** The weight of the scanner that runs: [scanTop] at the end of the
    input returns [nil]. *)
Definition rank `{GoStd} (s : scanner) (p : parser) : nat :=
  match s with
  | ScanTop => if decide (left_over p = 0%nat) then 1 else 4
  | _ => weight s
  end.

(** What bounds the turns left: the bytes left, the scanner that runs and
    the scanners of the stack. *)
Definition turns_left `{GoStd} (s : scanner) (p : parser) : nat :=
  16 * left_over p + rank s p + sum_list (weight <$> scanners p).

(** A call that, when it returns a scanner, has popped it and has not
    moved the cursor back. *)
Definition pops `{GoStd} (m : M (option scanner)) : Prop :=
  ∀ p s' p', m p = Ret (Some s') p' →
    input p' = input p ∧ (pos p ≤ pos p')%nat ∧ scanners p = s' :: scanners p'.

(** A call that leaves the input, the cursor and the stack alone. *)
Definition quiet `{GoStd} {A} (m : M A) : Prop :=
  ∀ p a p', m p = Ret a p' →
    input p' = input p ∧ pos p' = pos p ∧ backups p' = backups p
    ∧ scanners p' = scanners p.

(** A call that returns no scanner. *)
Definition halts `{GoStd} (m : M (option scanner)) : Prop :=
  ∀ p a p', m p = Ret a p' → a = None.

(** A scanner whose turn leaves fewer turns. *)
Definition descends `{GoStd} (s : scanner) : Prop :=
  ∀ p s' p', turn s p = Ret (Some s') p' →
    (turns_left s' p' < turns_left s p)%nat.

Section Properties.
Context `{GoStd}.

(** ** strconv *)





(** ** The invariant of the parser *)

Lemma hoare_ret {A} (P : parser → Prop) (a : A) (Q : A → parser → Prop) :
  (∀ p, P p → Q a p) → hoare P (ret a) Q.
Proof. intros HPQ p Hp. simpl. auto. Qed.

Lemma hoare_bind {A B} P (m : M A) (k : A → M B) R Q :
  hoare P m R → (∀ a, hoare (R a) (k a) Q) → hoare P (bind m k) Q.
Proof.
  intros Hm Hk p Hp. unfold bind. specialize (Hm p Hp).
  destruct (m p) as [a p'| |]; [|done..]. by apply Hk.
Qed.

Lemma hoare_weaken {A} (P P' : parser → Prop) (m : M A) (Q Q' : A → parser → Prop) :
  hoare P' m Q' → (∀ p, P p → P' p) → (∀ a p, Q' a p → Q a p) → hoare P m Q.
Proof.
  intros Hm HP HQ p Hp. specialize (Hm p (HP p Hp)).
  destruct (m p); auto.
Qed.

Lemma hoare_pure {A} (φ : Prop) P (m : M A) Q :
  (φ → hoare P m Q) → hoare (λ p, P p ∧ φ) m Q.
Proof. intros Hm p [Hp Hφ]. by apply Hm. Qed.

Lemma hoare_crash {A} P (Q : A → parser → Prop) : hoare P crash Q.
Proof. by intros p Hp. Qed.

Lemma hoare_raise {A} P e (Q : A → parser → Prop) : hoare P (raise e) Q.
Proof. by intros p Hp. Qed.

(** *** Neutral calls *)

Lemma neutral_ret {A} (a : A) : neutral (ret a).
Proof. by intros p. Qed.

Lemma neutral_bind {A B} (m : M A) (k : A → M B) :
  neutral m → (∀ a, neutral (k a)) → neutral (bind m k).
Proof.
  intros Hm Hk p. unfold bind. specialize (Hm p).
  destruct (m p) as [a p'| |]; [|done..].
  specialize (Hk a p'). destruct (k a p'); [|done..].
  destruct Hm as (<- & <- & <-). done.
Qed.

Lemma neutral_get {A} (f : parser → A) : neutral (get f).
Proof. by intros p. Qed.

Lemma neutral_modify (f : parser → parser) :
  (∀ p, root (f p) = root p ∧ envs (f p) = envs p ∧ err (f p) = err p) →
  neutral (modify f).
Proof. intros Hf p. apply Hf. Qed.

Lemma neutral_crash {A} : neutral (crash (A := A)).
Proof. by intros p. Qed.

Lemma neutral_raise {A} e : neutral (raise (A := A) e).
Proof. by intros p. Qed.

Ltac neutral_step :=
  first
    [ apply neutral_ret | apply neutral_get | apply neutral_crash
    | apply neutral_raise
    | apply neutral_modify; intros ?; done
    | apply neutral_bind; [|intros ?]
    | match goal with
      | |- neutral (if ?b then _ else _) => destruct b
      | |- neutral (match ?x with _ => _ end) => destruct x
      | |- neutral (let '(_, _) := ?x in _) => destruct x
      end ].

Ltac neutral_auto := repeat neutral_step; eauto.

Ltac neutral_brute :=
  intros ?; cbv [bind ret modify get stepN]; cbv zeta;
  repeat case_match; simplify_eq/=; done.

Lemma neutral_pushScanner s : neutral (pushScanner s).
Proof. unfold pushScanner. neutral_auto. Qed.

Lemma neutral_popScanner : neutral popScanner.
Proof. unfold popScanner. neutral_brute. Qed.

Lemma neutral_seqScanner l : neutral (seqScanner l).
Proof. unfold seqScanner. destruct l; neutral_auto; apply neutral_popScanner. Qed.

Lemma neutral_record o : neutral (record o).
Proof. unfold record. neutral_auto. Qed.

Lemma neutral_slice o : neutral (slice o).
Proof. unfold slice. neutral_brute. Qed.

Lemma neutral_stepN n : neutral (stepN n).
Proof. unfold stepN. neutral_auto. Qed.

Lemma neutral_readRune : neutral readRune.
Proof. unfold readRune. neutral_brute. Qed.

Lemma neutral_unread : neutral unread.
Proof. unfold unread. neutral_brute. Qed.

Lemma neutral_peekRune : neutral peekRune.
Proof. unfold peekRune. neutral_auto; auto using neutral_readRune, neutral_unread. Qed.

Lemma neutral_readByte : neutral readByte.
Proof. unfold readByte. neutral_brute. Qed.

Lemma neutral_peekByte : neutral peekByte.
Proof. unfold peekByte. neutral_auto. Qed.

Lemma neutral_tryReadByte r : neutral (tryReadByte r).
Proof. unfold tryReadByte. neutral_auto; auto using neutral_peekByte, neutral_stepN. Qed.

Lemma neutral_tryReadPrefix s : neutral (tryReadPrefix s).
Proof. unfold tryReadPrefix. neutral_brute. Qed.

Lemma neutral_skipNewline r : neutral (skipNewline r).
Proof. unfold skipNewline. neutral_auto; auto using neutral_tryReadByte. Qed.

Lemma neutral_tryReadNewline : neutral tryReadNewline.
Proof.
  unfold tryReadNewline.
  neutral_auto; auto using neutral_readByte, neutral_skipNewline, neutral_unread.
Qed.

Lemma neutral_clearBackups : neutral clearBackups.
Proof. unfold clearBackups. neutral_auto. Qed.


Lemma neutral_str_push s : neutral (str_push s).
Proof. unfold str_push. neutral_auto. Qed.

Lemma neutral_str_join : neutral str_join.
Proof. unfold str_join. neutral_auto. Qed.

Lemma neutral_pushInteger s : neutral (pushInteger s).
Proof. unfold pushInteger. neutral_auto. Qed.
Lemma neutral_pushFraction s : neutral (pushFraction s).
Proof. unfold pushFraction. neutral_auto. Qed.
Lemma neutral_pushExponent s : neutral (pushExponent s).
Proof. unfold pushExponent. neutral_auto. Qed.
Lemma neutral_set_sign s : neutral (set_sign s).
Proof. unfold set_sign. neutral_auto. Qed.
Lemma neutral_set_expo s : neutral (set_expo s).
Proof. unfold set_expo. neutral_auto. Qed.
Lemma neutral_set_esign s : neutral (set_esign s).
Proof. unfold set_esign. neutral_auto. Qed.
Lemma neutral_appendTableName s : neutral (appendTableName s).
Proof. unfold appendTableName. neutral_auto. Qed.
Lemma neutral_topEnv : neutral topEnv.
Proof. unfold topEnv. neutral_brute. Qed.
Lemma neutral_deref e : neutral (deref e).
Proof. unfold deref. neutral_brute. Qed.
Lemma neutral_topTableKey : neutral topTableKey.
Proof. unfold topTableKey. neutral_brute. Qed.
Lemma neutral_popTableKey : neutral popTableKey.
Proof. unfold popTableKey. neutral_brute. Qed.
Lemma neutral_elems_at w : neutral (elems_at w).
Proof. unfold elems_at. neutral_brute. Qed.
Lemma neutral_readDigits n : neutral (readDigits n).
Proof.
  induction n; simpl; neutral_auto; auto using neutral_readByte.
Qed.

(** *** The invariant under neutral calls and under errors *)

Lemma running_scanned s p : running p → scanned s p.
Proof. intros [? ?]. by split. Qed.

Lemma hoare_neutral {A} (m : M A) : neutral m → hoare running m (λ _, running).
Proof.
  intros Hm p [(Hw & Hr & He) Herr]. specialize (Hm p).
  destruct (m p) as [a p'| |]; [|done..].
  destruct Hm as (E1 & E2 & E3). unfold running, tree_ok.
  by rewrite E1, E2, E3.
Qed.

Lemma hoare_neutral_scanned (m : M (option scanner)) :
  neutral m → hoare running m scanned.
Proof.
  intros Hm. eapply hoare_weaken; [by apply hoare_neutral|done|].
  intros a p. apply running_scanned.
Qed.

Lemma hoare_ret_scanned s : hoare running (ret s) scanned.
Proof. apply hoare_ret. intros p. apply running_scanned. Qed.

Lemma hoare_errorScanner f a : hoare running (errorScanner f a) scanned.
Proof.
  intros p [Ht _]. unfold errorScanner, bind, modify, ret. simpl.
  split; [done|]. by intros [? [=]].
Qed.

Lemma hoare_setError e : hoare running (setError e) scanned.
Proof.
  intros p [Ht _]. unfold setError, bind, modify, ret. simpl.
  split; [done|]. by intros [? [=]].
Qed.

Lemma hoare_expectStr s : hoare running (expectStr s) scanned.
Proof.
  unfold expectStr.
  eapply hoare_bind; [apply hoare_neutral, neutral_unread|intros ?; cbv beta].
  eapply hoare_bind; [apply hoare_neutral, neutral_peekRune|intros [got ?]; cbv beta iota].
  apply hoare_errorScanner.
Qed.

Lemma hoare_expectRune r : hoare running (expectRune r) scanned.
Proof.
  unfold expectRune.
  eapply hoare_bind; [apply hoare_neutral, neutral_unread|intros ?; cbv beta].
  eapply hoare_bind; [apply hoare_neutral, neutral_peekRune|intros [got ?]; cbv beta iota].
  apply hoare_errorScanner.
Qed.

(** *** Well-typed trees under the writes of the tree builder *)

Lemma well_typed_table_inv im m k v :
  well_typed (VTable im m) → m !! k = Some v → well_typed v.
Proof. inversion 1; eauto. Qed.

Lemma well_typed_array_inv c l :
  well_typed (VArray c l) →
  Forall well_typed l ∧ homogeneous l ∧ (c = false → starts_with_table l).
Proof. inversion 1; eauto. Qed.

Lemma starts_with_table_insert (l : list Value) i x y :
  starts_with_table l → l !! i = Some x → Type_ y = Type_ x →
  starts_with_table (<[i := y]> l).
Proof.
  intros (h & Hh & Hty) Hi Hy. destruct l as [|a l]; [done|].
  injection Hh as ->. destruct i as [|i]; simpl in *.
  - injection Hi as ->. exists y. split; [done|congruence].
  - by exists h.
Qed.

Lemma starts_with_table_snoc (l : list Value) x :
  starts_with_table l → starts_with_table (l ++ [x])%list.
Proof. intros (h & Hh & Hty). destruct l; [done|]. by exists h. Qed.

Lemma well_typed_insert im m k v :
  well_typed (VTable im m) → well_typed v → well_typed (VTable im (<[k := v]> m)).
Proof.
  intros Hm Hv. constructor. intros k' v'.
  rewrite lookup_insert. case_decide; [by intros [= <-]|].
  eauto using well_typed_table_inv.
Qed.

Lemma homogeneous_insert (l : list Value) i x y :
  homogeneous l → l !! i = Some x → Type_ y = Type_ x →
  homogeneous (<[i := y]> l).
Proof.
  intros Hl Hi Hty.
  assert (∀ z, z ∈ <[i := y]> l → Type_ z = Type_ x) as Hz.
  { intros z [j Hj]%list_elem_of_lookup.
    destruct (decide (i = j)) as [->|Hne].
    - rewrite list_lookup_insert_eq in Hj by eauto using lookup_lt_Some.
      by injection Hj as <-.
    - rewrite list_lookup_insert_ne in Hj by done.
      apply Hl; eauto using list_elem_of_lookup_2. }
  intros a b Ha Hb. by rewrite (Hz a Ha), (Hz b Hb).
Qed.

Lemma homogeneous_snoc (l : list Value) x :
  homogeneous l → (∀ first, head l = Some first → Type_ first = Type_ x) →
  homogeneous (l ++ [x])%list.
Proof.
  intros Hl Hx.
  assert (∀ z, z ∈ (l ++ [x])%list → Type_ z = Type_ x) as Hz.
  { intros z [Hz|Hz%list_elem_of_singleton]%elem_of_app; [|by subst].
    destruct l as [|first l']; [by apply elem_of_nil in Hz|].
    rewrite <- (Hx first eq_refl). apply Hl; [done|]. apply list_elem_of_here. }
  intros a b Ha Hb. by rewrite (Hz a Ha), (Hz b Hb).
Qed.

Lemma get_at_well_typed way : ∀ v t,
  well_typed v → get_at v way = Some t → well_typed t.
Proof.
  induction way as [|[name|name i] way IH]; intros v t Hv; simpl.
  - by intros [= <-].
  - destruct v; try done. destruct (_ !! name) as [v'|] eqn:Hn; [|done].
    apply IH. eauto using well_typed_table_inv.
  - destruct v; try done. destruct (_ !! name) as [[]|] eqn:Hn; try done.
    destruct (_ !! i) as [v'|] eqn:Hi; [|done].
    apply IH. eapply well_typed_table_inv in Hn; [|done].
    apply well_typed_array_inv in Hn as (Hall & _ & _).
    eapply Forall_lookup_1; eauto.
Qed.

Lemma set_at_well_typed way : ∀ v t t',
  well_typed v → get_at v way = Some t → well_typed t' → Type_ t' = Type_ t →
  well_typed (set_at v way t') ∧ Type_ (set_at v way t') = Type_ v.
Proof.
  induction way as [|[name|name i] way IH]; intros v t t' Hv; simpl.
  - intros [= <-] Ht' Hty. done.
  - destruct v; try done. destruct (_ !! name) as [v'|] eqn:Hn; [|done].
    intros Hg Ht' Hty. split; [|done].
    apply well_typed_insert; [done|].
    eapply IH; eauto using well_typed_table_inv.
  - destruct v; try done. destruct (_ !! name) as [[]|] eqn:Hn; try done.
    destruct (_ !! i) as [v'|] eqn:Hi; [|done].
    intros Hg Ht' Hty. split; [|done].
    pose proof (well_typed_table_inv _ _ _ _ Hv Hn) as Harr.
    apply well_typed_array_inv in Harr as (Hall & Hhom & Hopen).
    assert (well_typed v') as Hv' by (eapply Forall_lookup_1; eauto).
    destruct (IH v' t t' Hv' Hg Ht' Hty) as [Hw Hsame].
    apply well_typed_insert; [done|].
    constructor.
    + by apply Forall_insert.
    + eapply homogeneous_insert; eauto.
    + intros Hc. eapply starts_with_table_insert; eauto.
Qed.

Lemma set_at_is_root way v t' :
  is_root v → (way = [] → is_root t') → is_root (set_at v way t').
Proof.
  intros [m ->] Ht'. destruct way as [|[name|name i] way]; simpl.
  - by apply Ht'.
  - destruct (m !! name); by eexists.
  - destruct (m !! name) as [[]|]; try by eexists.
    destruct (_ !! i); by eexists.
Qed.


(** The object an environment refers to, well typed under the invariant. *)
Lemma deref_well_typed e p t :
  tree_ok p → e ∈ envs p → deref (env e) p = Ret t p → well_typed t.
Proof.
  intros (Hw & _ & Hf) He. unfold deref.
  rewrite Forall_forall in Hf. specialize (Hf e He). unfold fresh_ok in Hf.
  destruct (env e) as [way|v].
  - destruct (get_at (root p) way) eqn:Hg; [|done].
    intros [= <-]. eauto using get_at_well_typed.
  - by intros [= <-].
Qed.

Lemma deref_Ret e p t p' : deref e p = Ret t p' → p' = p.
Proof. unfold deref. repeat case_match; congruence. Qed.

(** A write through the top of [envs] that keeps the type of the object,
    and the flag of a table. *)
Lemma store_top_running p e rest t t' :
  running p → envs p = e :: rest → deref (env e) p = Ret t p →
  well_typed t' → Type_ t' = Type_ t →
  (∀ m, t = VTable false m → is_root t') →
  match store_top t' p with
  | Ret _ p' => running p'
  | _ => True
  end.
Proof.
  intros [(Hw & Hr & Hf) Herr] Henvs Hd Ht' Hty Hroot.
  unfold store_top. rewrite Henvs. destruct e as [[way|v] path]; simpl in *.
  - destruct (get_at (root p) way) as [t0|] eqn:Hg; [|done].
    injection Hd as ->.
    destruct (set_at_well_typed way _ _ _ Hw Hg Ht' Hty) as [Hw' _].
    split; [|done]. split_and!; simpl; [done| |done].
    apply set_at_is_root; [done|]. intros ->. simpl in Hg.
    injection Hg as <-. destruct Hr as [m Hr]. eauto.
  - injection Hd as ->. split; [|done]. split_and!; simpl; [done..|].
    rewrite Henvs in Hf. apply Forall_cons in Hf as [_ Hf].
    by apply Forall_cons.
Qed.

Lemma hoare_popScanner_scanned : hoare running popScanner scanned.
Proof. apply hoare_neutral_scanned, neutral_popScanner. Qed.

Lemma hoare_setValue v : well_typed v → hoare running (setValue v) scanned.
Proof.
  intros Hv p Hrun. unfold setValue.
  unfold bind at 1. unfold topEnv.
  destruct (envs p) as [|e rest] eqn:Henvs; [done|].
  unfold bind at 1.
  destruct (deref (env e) p) as [t p'| |] eqn:Hd; [|done..].
  pose proof (deref_Ret _ _ _ _ Hd) as ->.
  assert (well_typed t) as Ht.
  { eapply deref_well_typed; [apply Hrun| |done]. rewrite Henvs. apply list_elem_of_here. }
  pose proof (store_top_running p e rest t) as Hst.
  destruct t as [| | | | |closed elems|im elems].
  1-5: by apply hoare_popScanner_scanned.
  - apply well_typed_array_inv in Ht as (Hall & Hhom & Hopen).
    assert (negb (match elems with
                  | first :: _ => negb (String.eqb (Type_ first) (Type_ v))
                  | [] => false end) = true →
            match (bind (store_top (VArray closed (elems ++ [v])%list))
                     (λ _, popScanner)) p with
            | Ret a p' => scanned a p'
            | _ => True
            end) as Hok.
    { intros Hchk. unfold bind.
      specialize (Hst (VArray closed (elems ++ [v])%list) Hrun Henvs Hd).
      destruct (store_top _ p) as [u p'| |]; [|done..].
      apply hoare_popScanner_scanned. apply Hst; [|done|done].
      constructor.
      - apply Forall_app; split; [done|]. by constructor.
      - apply homogeneous_snoc; [done|]. intros first Hfirst.
        destruct elems as [|f ?]; [done|]. injection Hfirst as ->.
        apply negb_true_iff, negb_false_iff, String.eqb_eq in Hchk. done.
      - intros Hc. by apply starts_with_table_snoc, Hopen. }
    destruct elems as [|first elems'].
    + by apply Hok.
    + destruct (negb (String.eqb (Type_ first) (Type_ v))) eqn:Hchk.
      * by apply hoare_errorScanner.
      * by apply Hok.
  - unfold bind at 1. unfold popTableKey.
    destruct (keys p) as [|key keys'] eqn:Hkeys; [done|].
    unfold bind.
    assert (running (set_keys keys' p)) as Hrun' by apply Hrun.
    specialize (store_top_running (set_keys keys' p) e rest (VTable im elems)
                  (VTable im (<[key := v]> elems)) Hrun' Henvs) as Hst'.
    destruct (store_top _ (set_keys keys' p)) as [u p'| |]; [|done..].
    apply hoare_popScanner_scanned. apply Hst'; [|by apply well_typed_insert|done|].
    + clear -Hd. unfold deref in *. destruct (env e); simpl.
      * destruct (get_at (root p) way); [|done]. by injection Hd as ->.
      * by injection Hd as ->.
    + intros m [= -> ->]. by eexists.
Qed.

Lemma hoare_pushTableKey k : hoare running (pushTableKey k) scanned.
Proof.
  intros p Hrun. unfold pushTableKey.
  unfold bind at 1. unfold topEnv.
  destruct (envs p) as [|e rest] eqn:Henvs; [done|].
  unfold bind at 1.
  destruct (deref (env e) p) as [t p'| |] eqn:Hd; [|done..].
  pose proof (deref_Ret _ _ _ _ Hd) as ->.
  destruct t; try done.
  destruct (_ !! k).
  - by apply hoare_errorScanner.
  - unfold bind, modify. apply hoare_popScanner_scanned. apply Hrun.
Qed.

Lemma hoare_pushEnv v : well_typed v → hoare running (pushEnv v) (λ _, running).
Proof.
  intros Hv p Hrun. unfold pushEnv.
  unfold bind at 1. unfold topEnv.
  destruct (envs p) as [|e rest] eqn:Henvs; [done|].
  unfold bind at 1.
  destruct (deref (env e) p) as [t p'| |] eqn:Hd; [|done..].
  pose proof (deref_Ret _ _ _ _ Hd) as ->.
  assert (∀ path', running (set_envs (mkEnvironment (Fresh v) path' :: envs p) p)) as Hok.
  { intros path'. destruct Hrun as [(Hw & Hr & Hf) Herr].
    split; [|done]. split_and!; simpl; [done..|]. by apply Forall_cons. }
  unfold bind, modify, ret, topTableKey.
  destruct t; try apply Hok.
  destruct (keys p); [done|]. apply Hok.
Qed.

Lemma hoare_popEnv :
  hoare running popEnv (λ vp p, running p ∧ well_typed vp.1).
Proof.
  intros p [(Hw & Hr & Hf) Herr]. unfold popEnv.
  destruct (envs p) as [|[[way|v] path] rest] eqn:Henvs; try done.
  simpl. apply Forall_cons in Hf as [Hv Hf].
  split; [|done]. split; [|done]. split_and!; done.
Qed.

Lemma hoare_resetEnv way path : hoare running (resetEnv way path) (λ _, running).
Proof.
  intros p [(Hw & Hr & Hf) Herr]. unfold resetEnv, modify.
  split; [|done]. split_and!; simpl; [done..|].
  by repeat constructor.
Qed.

(** A write of the header functions: the table at [way] gets another map. *)
Lemma store_at_running p way im m m' :
  running p → get_at (root p) way = Some (VTable im m) →
  (well_typed (VTable im m) → well_typed (VTable im m')) →
  running (set_root (set_at (root p) way (VTable im m')) p).
Proof.
  intros [(Hw & Hr & Hf) Herr] Hg Hm'.
  pose proof (get_at_well_typed _ _ _ Hw Hg) as Hwt.
  destruct (set_at_well_typed way _ _ (VTable im m') Hw Hg (Hm' Hwt) eq_refl) as [Hw' _].
  split; [|done]. split_and!; simpl; [done| |done].
  apply set_at_is_root; [done|]. intros ->. simpl in Hg. injection Hg as E.
  destruct Hr as [m0 Hr]. rewrite Hr in E. injection E as <- <-. by eexists.
Qed.

Lemma well_typed_newTable b : well_typed (newTable b).
Proof. constructor. intros k v. by rewrite lookup_empty. Qed.

Lemma hoare_locateTable_loop names : ∀ way path,
  hoare running (locateTable_loop names way path) (λ _, running).
Proof.
  induction names as [|name names IH]; intros way path p Hrun; simpl; [done|].
  unfold bind at 1. unfold elems_at.
  destruct (get_at (root p) way) as [[| | | | | |im m]|] eqn:Hg; try done.
  destruct (m !! name) as [v|] eqn:Hn.
  - destruct v as [| | | | |closed elems|]; try done.
    + destruct closed; [done|].
      destruct (elems !! _) as [[]|]; try done.
      by apply IH.
    + by apply IH.
  - unfold bind, store_at, modify. apply IH.
    apply store_at_running with (m := m); [done..|].
    intros Hm. apply well_typed_insert; [done|apply well_typed_newTable].
Qed.

Lemma hoare_createTable way path name :
  hoare running (createTable way path name) (λ _, running).
Proof.
  intros p Hrun. unfold createTable.
  unfold bind at 1. unfold elems_at.
  destruct (get_at (root p) way) as [[| | | | | |im m]|] eqn:Hg; try done.
  destruct (m !! name) as [v|] eqn:Hn.
  - destruct v as [| | | | | |implicit elems]; try done.
    destruct implicit; simpl; [|done].
    unfold bind, store_at, modify, ret.
    apply store_at_running with (m := m); [done..|].
    intros Hm. apply well_typed_insert; [done|].
    constructor. intros k v Hk.
    apply (well_typed_table_inv _ _ _ _ Hm) in Hn.
    eauto using well_typed_table_inv.
  - unfold bind, store_at, modify, ret.
    apply store_at_running with (m := m); [done..|].
    intros Hm. apply well_typed_insert; [done|apply well_typed_newTable].
Qed.

Lemma hoare_createTableArray way path name :
  hoare running (createTableArray way path name) (λ _, running).
Proof.
  intros p Hrun. unfold createTableArray.
  unfold bind at 1. unfold elems_at.
  destruct (get_at (root p) way) as [[| | | | | |im m]|] eqn:Hg; try done.
  destruct (m !! name) as [v|] eqn:Hn.
  - destruct v as [| | | | |closed elems|]; try done.
    destruct closed; simpl; [done|].
    unfold bind, store_at, modify, ret.
    apply store_at_running with (m := m); [done..|].
    intros Hm. apply well_typed_insert; [done|].
    apply (well_typed_table_inv _ _ _ _ Hm) in Hn.
    apply well_typed_array_inv in Hn as (Hall & Hhom & Hopen).
    specialize (Hopen eq_refl).
    constructor.
    + apply Forall_app; split; [done|].
      apply Forall_cons; split; [apply well_typed_newTable|constructor].
    + apply homogeneous_snoc; [done|]. intros first Hfirst.
      destruct Hopen as (h & Hh & Hty). rewrite Hh in Hfirst.
      by injection Hfirst as <-.
    + intros _. by apply starts_with_table_snoc.
  - unfold bind, store_at, modify, ret.
    apply store_at_running with (m := m); [done..|].
    intros Hm. apply well_typed_insert; [done|].
    constructor; [apply Forall_cons; split; [apply well_typed_newTable|constructor]| |].
    + intros x y Hx%list_elem_of_singleton Hy%list_elem_of_singleton. by subst.
    + intros _. by eexists.
Qed.


(** *** Every scanner keeps the invariant *)

Create HintDb scan discriminated.

#[local] Hint Resolve neutral_ret neutral_get neutral_crash neutral_raise
  neutral_pushScanner neutral_popScanner neutral_seqScanner neutral_record
  neutral_slice neutral_stepN neutral_readRune neutral_unread neutral_peekRune
  neutral_readByte neutral_peekByte neutral_tryReadByte neutral_tryReadPrefix
  neutral_skipNewline neutral_tryReadNewline neutral_clearBackups
  neutral_str_push neutral_str_join neutral_pushInteger neutral_pushFraction
  neutral_pushExponent neutral_set_sign neutral_set_expo neutral_set_esign
  neutral_appendTableName neutral_topEnv neutral_deref neutral_topTableKey
  neutral_popTableKey neutral_elems_at neutral_readDigits : scan.

#[local] Hint Resolve hoare_errorScanner hoare_setError hoare_expectStr hoare_expectRune
  hoare_ret_scanned hoare_popScanner_scanned hoare_pushTableKey
  hoare_resetEnv hoare_locateTable_loop hoare_createTable
  hoare_createTableArray well_typed_newTable : scan.

#[local] Hint Constructors well_typed : scan.
#[local] Hint Resolve hoare_setValue hoare_pushEnv : scan.

Ltac neutral_solve := solve [repeat neutral_step; eauto with scan].

Ltac scan_step :=
  first [ assumption | solve [auto with scan] |
  lazymatch goal with
  | |- hoare running (bind _ _) _ =>
    eapply hoare_bind;
    [ first [ solve [eauto with scan]
            | apply hoare_neutral; neutral_solve ]
    | intros ?; cbv beta ]
  | |- hoare running (if ?b then _ else _) _ => destruct b
  | |- hoare running (match ?x with _ => _ end) _ => destruct x
  | |- hoare running _ scanned =>
    first [ solve [eauto with scan]
          | apply hoare_neutral_scanned; neutral_solve ]
  | |- hoare running _ (λ _, running) =>
    first [ solve [eauto with scan]
          | apply hoare_neutral; neutral_solve ]
  end ].

Ltac scan_auto := repeat scan_step.

Lemma hoare_scanByte r : hoare running (scanByte r) scanned.
Proof. unfold scanByte. scan_auto. Qed.

Lemma hoare_scanDigit : hoare running scanDigit scanned.
Proof. unfold scanDigit. scan_auto. Qed.

Lemma hoare_scanConsumeSpaceOrNewline :
  hoare running scanConsumeSpaceOrNewline scanned.
Proof. unfold scanConsumeSpaceOrNewline. scan_auto. Qed.

Lemma hoare_scanRecord o : hoare running (scanRecord o) scanned.
Proof. unfold scanRecord. scan_auto. Qed.

Lemma hoare_scanReturnString s : hoare running (scanReturnString s) scanned.
Proof. unfold scanReturnString. scan_auto. Qed.

Lemma hoare_readHex n :
  hoare running (readHex n)
    (λ bad p, match bad with None => running p | Some s => scanned s p end).
Proof.
  induction n as [|n IH]; simpl.
  - by apply hoare_ret.
  - eapply hoare_bind; [apply hoare_neutral, neutral_readByte|intros r; cbv beta].
    destruct (negb (isHex r)); [|done].
    eapply hoare_bind; [apply hoare_expectStr|intros s; cbv beta].
    by apply hoare_ret.
Qed.

Lemma hoare_scanUnicodeRune n : hoare running (scanUnicodeRune n) scanned.
Proof.
  unfold scanUnicodeRune.
  eapply hoare_bind; [apply hoare_neutral, neutral_record|intros ?; cbv beta].
  eapply hoare_bind; [apply hoare_readHex|intros [s|]; cbv beta].
  - by apply hoare_ret.
  - pose proof hoare_scanReturnString.
    match goal with |- hoare _ ?m ?Q => change (hoare running m Q) end.
    scan_auto.
Qed.

Lemma hoare_scanEscapedRune : hoare running scanEscapedRune scanned.
Proof.
  unfold scanEscapedRune.
  pose proof hoare_scanReturnString. pose proof hoare_scanUnicodeRune.
  scan_auto.
Qed.

Lemma hoare_scanLiteral : hoare running scanLiteral scanned.
Proof. unfold scanLiteral. scan_auto. Qed.

Lemma hoare_scanMultiLineLiteral : hoare running scanMultiLineLiteral scanned.
Proof. unfold scanMultiLineLiteral. scan_auto. Qed.

Lemma hoare_scanMultiLineString : hoare running scanMultiLineString scanned.
Proof. unfold scanMultiLineString. scan_auto. Qed.

Lemma hoare_scanComment : hoare running scanComment scanned.
Proof. unfold scanComment. scan_auto. Qed.

Lemma hoare_scanArrayTableEnd : hoare running scanArrayTableEnd scanned.
Proof. unfold scanArrayTableEnd, locateTable. scan_auto. Qed.

Lemma hoare_scanTableEnd : hoare running scanTableEnd scanned.
Proof. unfold scanTableEnd, locateTable. scan_auto. Qed.

Lemma hoare_scanTableStart : hoare running scanTableStart scanned.
Proof. unfold scanTableStart. scan_auto. Qed.

Lemma hoare_scanString : hoare running scanString scanned.
Proof. unfold scanString. scan_auto. Qed.

Lemma hoare_scanTableNameString : hoare running scanTableNameString scanned.
Proof. unfold scanTableNameString. scan_auto. Qed.

Lemma hoare_scanTableNameStart : hoare running scanTableNameStart scanned.
Proof. unfold scanTableNameStart. scan_auto. Qed.

Lemma hoare_scanTableNameInside : hoare running scanTableNameInside scanned.
Proof. unfold scanTableNameInside. scan_auto. Qed.

Lemma hoare_scanTableNameEnd : hoare running scanTableNameEnd scanned.
Proof. unfold scanTableNameEnd. scan_auto. Qed.

Lemma hoare_scanTop : hoare running scanTop scanned.
Proof. unfold scanTop. scan_auto. Qed.

Lemma hoare_scanTopEnd : hoare running scanTopEnd scanned.
Proof. unfold scanTopEnd. scan_auto. Qed.

Lemma hoare_setFloatValue : hoare running setFloatValue scanned.
Proof. unfold setFloatValue. scan_auto. Qed.

Lemma hoare_setIntegerValue : hoare running setIntegerValue scanned.
Proof. unfold setIntegerValue. scan_auto. Qed.

Lemma hoare_setStringValue : hoare running setStringValue scanned.
Proof. unfold setStringValue. scan_auto. Qed.

Lemma hoare_pop_set :
  hoare running (bind popEnv (λ '(t, _), setValue t)) scanned.
Proof.
  eapply hoare_bind; [apply hoare_popEnv|intros [t ?]; cbv beta iota].
  simpl. apply hoare_pure. apply hoare_setValue.
Qed.

Lemma hoare_scanInlineTableFieldEnd : hoare running scanInlineTableFieldEnd scanned.
Proof.
  unfold scanInlineTableFieldEnd. pose proof hoare_pop_set. scan_auto.
Qed.

Lemma hoare_scanInlineTableStart : hoare running scanInlineTableStart scanned.
Proof. unfold scanInlineTableStart. scan_auto. Qed.

Lemma hoare_scanFloatFraction : hoare running scanFloatFraction scanned.
Proof. unfold scanFloatFraction. pose proof hoare_setFloatValue. scan_auto. Qed.

Lemma hoare_scanFloatExponent : hoare running scanFloatExponent scanned.
Proof. unfold scanFloatExponent. pose proof hoare_setFloatValue. scan_auto. Qed.

Lemma hoare_scanFloatExponentSign : hoare running scanFloatExponentSign scanned.
Proof. unfold scanFloatExponentSign. scan_auto. Qed.

Lemma hoare_scanNumber : hoare running scanNumber scanned.
Proof. unfold scanNumber. pose proof hoare_setIntegerValue. scan_auto. Qed.

Lemma hoare_scanNumberStart : hoare running scanNumberStart scanned.
Proof. unfold scanNumberStart. scan_auto. Qed.

Lemma hoare_scanStringStart : hoare running scanStringStart scanned.
Proof. unfold scanStringStart. scan_auto. Qed.

Lemma hoare_scanLiteralStart : hoare running scanLiteralStart scanned.
Proof. unfold scanLiteralStart. scan_auto. Qed.

Lemma hoare_scanArrayValue : hoare running scanArrayValue scanned.
Proof. unfold scanArrayValue. scan_auto. Qed.

Lemma hoare_scanArrayStart : hoare running scanArrayStart scanned.
Proof.
  unfold scanArrayStart.
  assert (well_typed (VArray true [])).
  { constructor; [constructor| |done]. intros x y Hx. by apply elem_of_nil in Hx. }
  scan_auto.
Qed.

Lemma hoare_scanArrayEnd : hoare running scanArrayEnd scanned.
Proof. unfold scanArrayEnd. pose proof hoare_pop_set. scan_auto. Qed.

Lemma hoare_scanValue : hoare running scanValue scanned.
Proof. unfold scanValue. scan_auto. Qed.

Lemma hoare_scanDateValue s : hoare running (scanDateValue s) scanned.
Proof. unfold scanDateValue. scan_auto. Qed.

Lemma hoare_scanDateTimeEnd : hoare running scanDateTimeEnd scanned.
Proof.
  unfold scanDateTimeEnd, scanDateEnd. pose proof hoare_scanDateValue. scan_auto.
Qed.

Lemma hoare_scanDateTimeFraction : hoare running scanDateTimeFraction scanned.
Proof. unfold scanDateTimeFraction. scan_auto. Qed.

Lemma hoare_scanDateTime : hoare running scanDateTime scanned.
Proof. unfold scanDateTime. pose proof hoare_scanDateValue. scan_auto. Qed.

Lemma hoare_scanNumberOrDate : hoare running scanNumberOrDate scanned.
Proof. unfold scanNumberOrDate. scan_auto. Qed.

Lemma hoare_scanFieldAssign : hoare running scanFieldAssign scanned.
Proof. unfold scanFieldAssign. scan_auto. Qed.

Lemma hoare_scanBareKey : hoare running scanBareKey scanned.
Proof. unfold scanBareKey. scan_auto. Qed.

Lemma hoare_scanKeyEnd : hoare running scanKeyEnd scanned.
Proof. unfold scanKeyEnd. scan_auto. Qed.

Lemma hoare_scanTableField : hoare running scanTableField scanned.
Proof. unfold scanTableField. scan_auto. Qed.


(** ** C5: leading zeros of integers *)


Lemma hoare_call s : hoare running (call s) scanned.
Proof.
  destruct s; simpl; try unfold scanDateEnd;
    auto using hoare_scanByte, hoare_scanDigit, hoare_scanConsumeSpaceOrNewline,
      hoare_scanRecord, hoare_scanEscapedRune, hoare_scanLiteral,
      hoare_scanMultiLineLiteral, hoare_scanMultiLineString, hoare_scanComment,
      hoare_scanArrayTableEnd, hoare_scanTableEnd, hoare_scanTableStart,
      hoare_scanString, hoare_scanTableNameString, hoare_scanTableNameStart,
      hoare_scanTableNameInside, hoare_scanTableNameEnd, hoare_scanTop,
      hoare_scanTopEnd, hoare_scanInlineTableFieldEnd, hoare_scanInlineTableStart,
      hoare_scanFloatFraction, hoare_scanFloatExponent, hoare_scanFloatExponentSign,
      hoare_scanNumber, hoare_scanNumberStart, hoare_setStringValue,
      hoare_scanStringStart, hoare_scanLiteralStart, hoare_scanArrayValue,
      hoare_scanArrayStart, hoare_scanArrayEnd, hoare_scanValue,
      hoare_scanDateValue, hoare_scanDateTimeEnd, hoare_scanDateTimeFraction,
      hoare_scanDateTime, hoare_scanNumberOrDate, hoare_scanFieldAssign,
      hoare_scanBareKey, hoare_scanKeyEnd, hoare_scanTableField.
Qed.

Lemma hoare_turn s : hoare running (turn s) scanned.
Proof.
  unfold turn. eapply hoare_bind; [apply hoare_neutral, neutral_clearBackups|].
  intros ?. apply hoare_call.
Qed.

Lemma scanned_Some s p : scanned (Some s) p → running p.
Proof. intros [Ht He]. split; [done|]. by apply He. Qed.

Lemma loop_tree_ok fuel : ∀ s p p',
  scanned s p → loop fuel s p = Some (Ret tt p') → tree_ok p'.
Proof.
  induction fuel as [|fuel IH]; intros s p p' Hs; destruct s as [s|]; simpl;
    try done; try by (intros [= <-]; apply Hs).
  pose proof (hoare_turn s p (scanned_Some _ _ Hs)) as Ht.
  destruct (turn s p) as [s' p1| |]; [|done..]. by apply IH.
Qed.

Lemma running_newParser data : running (newParser (newTable false) data).
Proof.
  split; [|done]. split_and!; simpl.
  - apply well_typed_newTable.
  - by eexists.
  - by repeat constructor.
Qed.

(** The tree of a successful parse is well typed, and its root is a table
    that is not implicit. *)
Lemma parse_well_typed fuel data t :
  parse fuel data = Some (Tree t) → well_typed t ∧ is_root t.
Proof.
  unfold parse.
  destruct (loop _ _ _) as [[[] p| |]|] eqn:Hl; try done.
  eapply loop_tree_ok in Hl; [|apply running_scanned, running_newParser].
  destruct (err p); intros [= <-]. destruct Hl as (? & ? & _). done.
Qed.

Lemma well_typed_inside v t : well_typed t → inside v t → well_typed v.
Proof.
  intros Ht Hin. induction Hin as [|c l x Hx Hin IH|im m k x Hk Hin IH]; [done|..].
  - apply IH. apply well_typed_array_inv in Ht as (Hall & _).
    rewrite Forall_forall in Hall. auto.
  - apply IH. eauto using well_typed_table_inv.
Qed.

Lemma steps_scanned n : ∀ s p s' p',
  running p → steps n s p = Some (s', p') → scanned s' p'.
Proof.
  induction n as [|n IH]; intros s p s' p' Hrun; simpl.
  - intros [= <- <-]. by apply running_scanned.
  - pose proof (hoare_turn s p Hrun) as Ht.
    destruct (turn s p) as [[s1|] p1| |]; [| |done..].
    + intros Hs. eapply IH; [|done]. by eapply scanned_Some.
    + destruct n; [|done]. by intros [= <- <-].
Qed.

Lemma steps_loop n : ∀ s p s' p' k,
  steps n s p = Some (s', p') → loop (n + k) (Some s) p = loop k s' p'.
Proof.
  induction n as [|n IH]; intros s p s' p' k; simpl.
  - by intros [= <- <-].
  - destruct (turn s p) as [[s1|] p1| |]; [| |done..].
    + apply IH.
    + destruct n; [|done]. intros [= <- <-]. simpl. by destruct k.
Qed.

(** [scanTop] on a NUL byte: the scanner is [nil], as at the end of the
    input, and the tree and the error are left as they are. *)
Lemma scanTop_nul p :
  input p !! pos p = Some nul →
  ∃ p', turn ScanTop p = Ret None p' ∧ root p' = root p ∧ err p' = err p
    ∧ envs p' = envs p.
Proof.
  intros Hn. unfold turn, clearBackups, modify. unfold bind at 1.
  change (call ScanTop) with scanTop. unfold scanTop. unfold bind at 1.
  unfold readByte. cbn [input pos set_backups]. rewrite Hn.
  cbn. eexists. split; [reflexivity|]. done.
Qed.

Lemma scanTop_eof p :
  input p !! pos p = None →
  ∃ p', turn ScanTop p = Ret None p' ∧ root p' = root p ∧ err p' = err p
    ∧ envs p' = envs p.
Proof.
  intros Hn. unfold turn, clearBackups, modify. unfold bind at 1.
  change (call ScanTop) with scanTop. unfold scanTop. unfold bind at 1.
  unfold readByte. cbn [input pos set_backups]. rewrite Hn.
  cbn. eexists. split; [reflexivity|]. done.
Qed.



(** ** C6: arrays are homogeneous *)


(** ** C10: a NUL byte where a statement may begin *)

(** C10.  When the loop of [parse] is at [scanTop] and the next byte is
    NUL, the parse succeeds with the tree built so far, whatever follows
    the NUL; and [scanTop] does there what it does at the end of the
    input: on the parser with the input cut at the cursor it returns the
    [nil] scanner too, with the same tree, environments and error. *)
Theorem C10_nul_ends_parse (data : string) (n : nat) (p : parser) :
  steps n ScanTop (newParser (newTable false) (bytes data)) = Some (Some ScanTop, p) →
  input p !! pos p = Some nul →
  parse (S n) data = Some (Tree (root p))
  ∧ ∃ p1 p2, turn ScanTop p = Ret None p1 ∧ turn ScanTop (cut p) = Ret None p2
      ∧ root p1 = root p2 ∧ err p1 = err p2 ∧ envs p1 = envs p2.
Proof.
  intros Hsteps Hnul. split.
  - unfold parse.
    replace (S n) with (n + 1)%nat by lia.
    rewrite (steps_loop _ _ _ _ _ 1 Hsteps).
    apply steps_scanned in Hsteps; [|apply running_newParser].
    apply scanned_Some in Hsteps as [_ Herr].
    destruct (scanTop_nul p Hnul) as (p' & Ht & Hroot & Herr' & _).
    simpl. rewrite Ht. simpl. rewrite Herr', Herr, Hroot. done.
  - destruct (scanTop_nul p Hnul) as (p1 & Ht1 & Hr1 & He1 & Hv1).
    assert (input (cut p) !! pos (cut p) = None) as Heof.
    { simpl. apply lookup_ge_None. rewrite length_take. lia. }
    destruct (scanTop_eof (cut p) Heof) as (p2 & Ht2 & Hr2 & He2 & Hv2).
    exists p1, p2. split_and!; try done.
    + by rewrite Hr1, Hr2.
    + by rewrite He1, He2.
    + by rewrite Hv1, Hv2.
Qed.

(** ** C1: the order of the keys of a map *)

(** C1 (the code at the failing input).  [marshalMap] ranges over the keys
    as [MapKeys] lists them and never sorts them: for the map [{b:1, a:2}]
    listed as [b], [a] the text is [b = 1], [a = 2]. *)
Theorem C1_marshalMap_keeps_MapKeys_order :
  Marshal 2 (GoMap [("b", GoInt 1); ("a", GoInt 2)])
  = Wrote tt ("b = 1" +:+ nl +:+ "a = 2" +:+ nl).
Proof. vm_compute. reflexivity. Qed.

(** ** C3: newlines inside an array *)

(** C3 (the code at the failing input).  After an element [scanArrayEnd]
    skips spaces and tabs only: the newline before the closing bracket of
    the array in [x = [1], newline, []]] is a parse error. *)
Theorem C3_newline_after_element :
  parse 30 ("x = [1" +:+ nl +:+ "]")
  = Some (Failure (mkParseError 1 6
      (Errorf "expect %s, got %s" [ArgS "',' or ']'"; ArgChar 10]))).
Proof. vm_compute. reflexivity. Qed.

(** ** C8: the order of the headers [a.b] and [a.b.c] *)

(** Symbolic execution of the header functions on a tree given by its
    lookups. *)
Ltac go :=
  repeat first
    [ progress unfold bind, ret, modify, get, raise, crash, elems_at, store_at,
        resetEnv, locateTable, createTable, newTable
    | progress cbn [get_at set_at root set_root set_names set_envs names envs err
                    mark pos line input backups keys strparts num scanners
                    locateTable_loop split_last
                    reverse rev_append app fst snd negb id]
    | rewrite lookup_insert_eq
    | rewrite lookup_empty
    | rewrite insert_insert_eq ].

Ltac known :=
  match goal with
  | H : ?m !! ?k = _ |- context [?m !! ?k] => rewrite H
  end.

Ltac split_case :=
  match goal with
  | |- context [match ?x with _ => _ end] => is_var x; destruct x
  | |- context [if ?x then _ else _] => is_var x; destruct x
  | |- context [negb ?x] => is_var x; destruct x
  | |- context [match ?m !! ?k with _ => _ end] => is_var m; destruct (m !! k) eqn:?
  end.

Ltac crush :=
  repeat first
    [ known
    | rewrite lookup_insert_eq
    | rewrite lookup_empty
    | rewrite length_insert
    | rewrite list_lookup_insert_eq by (eapply lookup_lt_Some; eassumption)
    | rewrite list_insert_insert_eq
    | rewrite insert_insert_eq
    | progress go
    | done
    | split_case ].


(** ** C7: duplicate keys *)

(** A key that the table on top of the environments already has is an
    error whatever the type of its value, with the parser's line. *)
Lemma pushTableKey_defined (p : parser) e rest im elems k v :
  envs p = e :: rest →
  deref (env e) p = Ret (VTable im elems) p →
  elems !! k = Some v →
  pushTableKey k p
  = Ret None (set_err (Some (mkParseError (line p) (pos p)
                (Errorf "table %s has key %s defined as %s"
                   [ArgS (path e); ArgS (normalizeKey k); ArgS (Type_ v)]))) p).
Proof.
  intros Henvs Hd Hk. unfold pushTableKey, bind, topEnv.
  rewrite Henvs, Hd, Hk. reflexivity.
Qed.

(** C7 (the code at the failing input).  The second [a] of the document
    [a = 1], [a = 2] is an error on line 2, also when the second value is
    a string.  But the line counter misses the line feeds inside a
    multi-line string: in the document with [a] bound to a multi-line
    literal string of one line and bound again on the fourth line, the
    error for the second [a], which is at byte 16 on line 4, carries
    line 3. *)
Theorem C7_duplicate_key_line :
  parse 30 ("a = 1" +:+ nl +:+ "a = 2")
  = Some (Failure (mkParseError 2 8
      (Errorf "table %s has key %s defined as %s" [ArgS ""; ArgS "a"; ArgS "integer"])))
  ∧ parse 30 ("a = 1" +:+ nl +:+ "a = 'two'")
  = Some (Failure (mkParseError 2 8
      (Errorf "table %s has key %s defined as %s" [ArgS ""; ArgS "a"; ArgS "integer"])))
  ∧ parse 30 ("a = '''" +:+ nl +:+ "foo" +:+ nl +:+ "'''" +:+ nl +:+ "a = 2")
  = Some (Failure (mkParseError 3 18
      (Errorf "table %s has key %s defined as %s" [ArgS ""; ArgS "a"; ArgS "string"])))
  ∧ line_of ("a = '''" +:+ nl +:+ "foo" +:+ nl +:+ "'''" +:+ nl +:+ "a = 2") 16 = 4.
Proof. split_and!; vm_compute; reflexivity. Qed.

(** ** Symbolic execution: character classes and single turns *)

Lemma isDigit_range r : isDigit r = true ↔ 48 <= r <= 57.
Proof.
  unfold isDigit, between. change (chr "0") with 48. change (chr "9") with 57. lia.
Qed.

Lemma isSpace_spec r : isSpace r = true ↔ r = 32 ∨ r = 9.
Proof. unfold isSpace. change (chr " ") with 32. lia. Qed.

Lemma isBareKeyChar_range r :
  isBareKeyChar r = true ↔
  65 <= r <= 90 ∨ 97 <= r <= 122 ∨ 48 <= r <= 57 ∨ r = 45 ∨ r = 95.
Proof.
  unfold isBareKeyChar, between.
  change (chr "A") with 65. change (chr "Z") with 90.
  change (chr "a") with 97. change (chr "z") with 122.
  change (chr "0") with 48. change (chr "9") with 57.
  change (chr "-") with 45. change (chr "_") with 95. lia.
Qed.

(** Deciding the tests of a scanner on a rune known by its range. *)
Ltac consts :=
  repeat match goal with
  | |- context [chr (Ascii ?a ?b ?c ?d ?e ?f ?g ?h)] =>
    let v := eval vm_compute in (chr (Ascii a b c d e f g h)) in
    change (chr (Ascii a b c d e f g h)) with v
  end.

Ltac tests :=
  unfold isDigit, isSpace, isBareKeyChar, between, dquote, squote, backslash, eof;
  consts;
  repeat match goal with
  | |- context [?a =? ?b] =>
    first [ rewrite (proj2 (Z.eqb_eq a b)) by lia
          | rewrite (proj2 (Z.eqb_neq a b)) by lia ]
  | |- context [?a <=? ?b] =>
    first [ rewrite (proj2 (Z.leb_le a b)) by lia
          | rewrite (proj2 (Z.leb_gt a b)) by lia ]
  | |- context [?a <? ?b] =>
    first [ rewrite (proj2 (Z.ltb_lt a b)) by lia
          | rewrite (proj2 (Z.ltb_ge a b)) by lia ]
  end;
  cbn [andb orb negb].

Lemma drop_lookup {A} (l : list A) n c t : drop n l = c :: t → l !! n = Some c.
Proof.
  intros Hd. pose proof (lookup_drop l n 0) as E.
  rewrite Hd, Nat.add_0_r in E. done.
Qed.

Lemma drop_next {A} (l : list A) n c t : drop n l = c :: t → drop (S n) l = t.
Proof.
  intros Hd. pose proof (drop_drop l 1 n) as E.
  rewrite Hd in E. simpl in E. rewrite drop_0 in E.
  replace (n + 1)%nat with (S n) in E by lia. done.
Qed.

Lemma drop_nil_lookup {A} (l : list A) n : drop n l = [] → l !! n = None.
Proof.
  intros Hd. apply lookup_ge_None. apply (f_equal length) in Hd.
  rewrite length_drop in Hd. simpl in Hd. lia.
Qed.

Ltac norm :=
  cbv [set_mark set_pos set_line set_backups set_root set_envs set_keys
       set_names set_strparts set_num set_scanners set_err
       mark pos line input backups root envs keys names strparts num
       scanners err].

Ltac fin := norm; repeat f_equal; try lia.

Ltac unfold_turn :=
  unfold turn, bind, clearBackups, modify, readByte, stepN, ret, unread,
    seqScanner, popScanner, record, get.

Lemma turn_Value_digit p c t :
  drop (pos p) (input p) = c :: t → isDigit (chr c) = true →
  turn ScanValue p
  = Ret (Some ScanNumberOrDate)
      (set_mark (Z.of_nat (pos p + 1) + -1) (set_pos (pos p + 1) [1%nat] p)).
Proof.
  intros Hd%drop_lookup Hc%isDigit_range. destruct p as [mk ps ln inp bk rt ev ks nm sp nu sc er]. cbn in *.
  unfold scanValue. unfold_turn. cbn. rewrite Hd. cbn. tests. fin.
Qed.

Lemma turn_NumberOrDate_digit p c t :
  drop (pos p) (input p) = c :: t → isDigit (chr c) = true →
  turn ScanNumberOrDate p
  = Ret (Some ScanNumberOrDate) (set_pos (pos p + 1) [1%nat] p).
Proof.
  intros Hd%drop_lookup Hc%isDigit_range. destruct p as [mk ps ln inp bk rt ev ks nm sp nu sc er]. cbn in *.
  unfold scanNumberOrDate. unfold_turn. cbn. rewrite Hd. cbn. tests. fin.
Qed.

Lemma turn_NumberOrDate_hyphen p c t :
  drop (pos p) (input p) = c :: t → chr c = 45 →
  turn ScanNumberOrDate p
  = Ret (Some ScanDigit)
      (set_scanners ([ScanDigit; scanHash; ScanDigit; ScanDigit; ScanDateTime]
                       ++ scanners p)
         (set_pos (pos p + 1) [1%nat] p)).
Proof.
  intros Hd%drop_lookup Hc. destruct p as [mk ps ln inp bk rt ev ks nm sp nu sc er]. cbn in *.
  unfold scanNumberOrDate. unfold_turn. cbn. rewrite Hd. cbn. tests. fin.
Qed.

Lemma turn_NumberOrDate_other p c t :
  drop (pos p) (input p) = c :: t → isDigit (chr c) = false → chr c ≠ 45 →
  turn ScanNumberOrDate p = Ret (Some ScanNumber) (set_pos (pos p) [] p).
Proof.
  intros Hd%drop_lookup Hc Hh. destruct p as [mk ps ln inp bk rt ev ks nm sp nu sc er]. cbn in *.
  unfold scanNumberOrDate. unfold_turn. cbn. rewrite Hd. cbn. rewrite Hc.
  tests. fin.
Qed.

Lemma turn_NumberOrDate_end p :
  drop (pos p) (input p) = [] →
  turn ScanNumberOrDate p = Ret (Some ScanNumber) (set_pos (pos p) [] p).
Proof.
  intros Hd%drop_nil_lookup. destruct p as [mk ps ln inp bk rt ev ks nm sp nu sc er]. cbn in *.
  unfold scanNumberOrDate. unfold_turn. cbn. rewrite Hd. cbn. tests. fin.
Qed.

(** ** C4 *)

Lemma numberOrDate_exit_digits ds : ∀ p tl fuel,
  Forall (λ d, isDigit (chr d) = true) ds →
  drop (pos p) (input p) = (ds ++ tl)%list →
  (length ds < fuel)%nat →
  match tl with
  | [] => ∃ p', numberOrDate_exit fuel p = Some (Some ScanNumber, p')
  | c :: _ =>
    isDigit (chr c) = false →
    if chr c =? 45
    then ∃ p', numberOrDate_exit fuel p = Some (Some ScanDigit, p')
           ∧ scanners p' = ([ScanDigit; scanHash; ScanDigit; ScanDigit; ScanDateTime]
                             ++ scanners p)%list
    else ∃ p', numberOrDate_exit fuel p = Some (Some ScanNumber, p')
  end.
Proof.
  induction ds as [|d ds IH]; intros p tl fuel Hds Hd Hfuel;
    (destruct fuel as [|fuel]; [simpl in Hfuel; lia|]); simpl in *.
  - destruct tl as [|c tl].
    + rewrite turn_NumberOrDate_end by done. eauto.
    + intros Hc. destruct (chr c =? 45) eqn:Hh.
      * apply Z.eqb_eq in Hh.
        rewrite (turn_NumberOrDate_hyphen _ _ _ Hd Hh). eauto.
      * apply Z.eqb_neq in Hh.
        rewrite (turn_NumberOrDate_other _ _ _ Hd Hc Hh). eauto.
  - apply Forall_cons in Hds as [Hdig Hds].
    rewrite (turn_NumberOrDate_digit _ _ _ Hd Hdig).
    apply drop_next in Hd.
    specialize (IH (set_pos (pos p + 1) [1%nat] p) tl fuel Hds).
    destruct p as [mk ps ln inp bk rt ev ks nm sp nu sc er]; cbn in *.
    replace (ps + 1)%nat with (S ps) in * by lia.
    apply IH; [done|lia].
Qed.

Lemma bytes_of_bytes l : bytes (of_bytes l) = l.
Proof. apply list_ascii_of_string_of_list_ascii. Qed.

Lemma length_of_bytes l : String.length (of_bytes l) = length l.
Proof. induction l; simpl; congruence. Qed.

(** C4, amended.  For a value token that begins with an unsigned digit,
    the scanner takes the date branch exactly when the first character
    after its leading run of digits is a hyphen, however long the run is
    (so in particular when the token matches [dddd-]); on any other
    character after the digits, and at the end of the input, it takes the
    number branch. *)
Theorem C4_date_branch_after_digits (ds : list ascii) (c : ascii) (rest : list ascii) :
  ds ≠ [] →
  Forall (λ d, isDigit (chr d) = true) ds →
  isDigit (chr c) = false →
  branch_of (of_bytes (ds ++ c :: rest))
    = Some (if chr c =? chr "-" then DateBranch else NumberBranch)
  ∧ branch_of (of_bytes ds) = Some NumberBranch.
Proof.
  intros Hne Hds Hc. destruct ds as [|d ds]; [done|].
  apply Forall_cons in Hds as [Hd Hds].
  unfold branch_of. rewrite !bytes_of_bytes, !length_of_bytes. split.
  - rewrite (turn_Value_digit _ d (ds ++ c :: rest)) by done.
    pose proof (numberOrDate_exit_digits ds
      (set_mark (Z.of_nat (0 + 1) + -1)
         (set_pos (0 + 1) [1%nat]
            (newParser (newTable false) ((d :: ds) ++ c :: rest))))
      (c :: rest) (S (length ((d :: ds) ++ c :: rest))) Hds eq_refl) as Hx.
    cbn [pos newParser set_pos set_mark] in *.
    specialize (Hx ltac:(rewrite length_app; simpl; lia) Hc).
    change (chr "-") with 45.
    destruct (chr c =? 45).
    + destruct Hx as (p' & -> & ->). reflexivity.
    + destruct Hx as (p' & ->). reflexivity.
  - rewrite (turn_Value_digit _ d ds) by done.
    pose proof (numberOrDate_exit_digits ds
      (set_mark (Z.of_nat (0 + 1) + -1)
         (set_pos (0 + 1) [1%nat]
            (newParser (newTable false) (d :: ds))))
      [] (S (length (d :: ds)))  Hds) as Hx.
    cbn [pos newParser set_pos set_mark input] in *.
    rewrite app_nil_r in Hx.
    specialize (Hx eq_refl ltac:(simpl; lia)).
    destruct Hx as (p' & ->). reflexivity.
Qed.

(** ** C9: dates and date-times without a zone *)

(** *** Running the machine turn by turn *)

Lemma loop_turn fuel s p s' p' :
  turn s p = Ret s' p' → loop (S fuel) (Some s) p = loop fuel s' p'.
Proof. intros Ht. simpl. by rewrite Ht. Qed.

Lemma loop_S fuel s p :
  loop (S fuel) (Some s) p
  = match turn s p with
    | Ret s' p' => loop fuel s' p'
    | Raise e => Some (Raise e)
    | Crash => Some Crash
    end.
Proof. reflexivity. Qed.



(** The parser state as one record expression: a tower of setters is
    expensive to compare. *)
Ltac flat :=
  cbv [set_mark set_pos set_line set_backups set_root set_envs set_keys
       set_names set_strparts set_num set_scanners set_err newParser
       mark pos line input backups root envs keys names strparts num
       scanners err].




(** *** The fraction of a date-time and its end *)

Lemma readByte_some p c :
  input p !! pos p = Some c →
  readByte p = Ret (chr c) (set_pos (pos p + 1) (1%nat :: backups p) p).
Proof. intros E. unfold readByte. rewrite E. reflexivity. Qed.

Lemma readByte_none p :
  input p !! pos p = None →
  readByte p = Ret eof (set_pos (pos p + 0) (0%nat :: backups p) p).
Proof. intros E. unfold readByte. rewrite E. reflexivity. Qed.

Lemma readByte_tail p tl :
  drop (pos p) (input p) = tl →
  readByte p
  = Ret (match tl with [] => eof | c :: _ => chr c end)
        (set_pos (pos p + last_step tl) (last_step tl :: backups p) p).
Proof.
  intros E. destruct tl as [|c tl].
  - apply drop_nil_lookup in E. by rewrite readByte_none.
  - apply drop_lookup in E. by rewrite (readByte_some _ c).
Qed.








Lemma append_empty s : s +:+ "" = s.
Proof.
  induction s as [|a s IH]; [done|].
  change (String a (s +:+ "") = String a s). by rewrite IH.
Qed.




Lemma parse_verdict fuel data :
  parse fuel data
  = verdict (loop fuel (Some ScanTop) (newParser (newTable false) (bytes data))).
Proof. reflexivity. Qed.


(** ** A flat table, emitted and parsed *)

Ltac flat_in H :=
  cbv [set_mark set_pos set_line set_backups set_root set_envs set_keys
       set_names set_strparts set_num set_scanners set_err newParser
       mark pos line input backups root envs keys names strparts num
       scanners err] in H.

(** *** Decimal numerals: [FormatInt] and [ParseInt] *)

Lemma uint_val_mono d : ∀ n, 0 ≤ n → n ≤ uint_val d n.
Proof.
  induction d; intros n Hn; cbn [uint_val]; [lia|..];
    (etrans; [|apply IHd; lia]); lia.
Qed.

Lemma ParseUint_loop_uint d : ∀ n,
  0 ≤ n → uint_val d n ≤ maxUint64 →
  ParseUint_loop 10 (bytes (NilEmpty.string_of_uint d)) n = inl (uint_val d n).
Proof.
  unfold maxUint64.
  induction d; intros n Hn Hv; cbn [uint_val NilEmpty.string_of_uint] in *;
    [reflexivity|..];
    (match goal with
     | |- context [uint_val ?d ?m] =>
       pose proof (uint_val_mono d m ltac:(lia))
     end);
    cbn [bytes list_ascii_of_string ParseUint_loop];
    unfold digit_val, between, maxUint64; consts; cbn [Z.leb Z.compare andb Pos.compare Pos.compare_cont];
    tests; change (18446744073709551615 / 10 + 1) with 1844674407370955162;
    tests; apply IHd; lia.
Qed.

Lemma uint_val_acc d : ∀ acc,
  uint_val d (Z.pos acc) = Z.pos (Pos.of_uint_acc d acc).
Proof. induction d; intros acc; cbn [uint_val Pos.of_uint_acc]; [done|..];
  (etrans; [|apply IHd]); f_equal; lia.
Qed.

Lemma uint_val_of_uint d : uint_val d 0 = Z.of_N (Pos.of_uint d).
Proof.
  induction d; cbn [uint_val Pos.of_uint]; [done|exact IHd|..];
    cbn [Z.mul Z.add]; apply uint_val_acc.
Qed.

Lemma digits_string_of_uint d :
  Forall (λ c, isDigit (chr c) = true) (bytes (NilEmpty.string_of_uint d)).
Proof. induction d; cbn; constructor; done. Qed.

Lemma string_of_uint_nonnil d :
  d ≠ Decimal.Nil → NilZero.string_of_uint d = NilEmpty.string_of_uint d.
Proof. by destruct d. Qed.

Lemma to_uint_head p d : Pos.to_uint p ≠ Decimal.D0 d.
Proof.
  intros E. pose proof (DecimalPos.Unsigned.to_of (Pos.to_uint p)) as Hn.
  rewrite DecimalPos.Unsigned.of_to in Hn. cbn [N.to_uint] in Hn.
  rewrite DecimalFacts.unorm_nzhead in Hn.
  - rewrite E in Hn at 1. symmetry in Hn. by apply DecimalFacts.nzhead_nonzero in Hn.
  - intros Hnil. apply DecimalFacts.unorm_0 in Hnil. rewrite <- Hn in Hnil.
    by apply DecimalPos.Unsigned.to_uint_nonzero in Hnil.
Qed.

Lemma FormatInt_pos p : FormatInt (Z.pos p) = digits_of p.
Proof.
  unfold FormatInt, digits_of. cbn [Z.to_int NilZero.string_of_int].
  apply string_of_uint_nonnil, DecimalPos.Unsigned.to_uint_nonnil.
Qed.

Lemma FormatInt_neg p : FormatInt (Z.neg p) = "-" +:+ digits_of p.
Proof.
  unfold FormatInt, digits_of. cbn [Z.to_int NilZero.string_of_int].
  by rewrite string_of_uint_nonnil by apply DecimalPos.Unsigned.to_uint_nonnil.
Qed.

Lemma digits_of_digits p :
  Forall (λ c, isDigit (chr c) = true) (bytes (digits_of p)).
Proof. apply digits_string_of_uint. Qed.

Lemma digits_of_head p :
  ∃ c cs, bytes (digits_of p) = c :: cs ∧ chr c ≠ chr "0"
          ∧ isDigit (chr c) = true.
Proof.
  unfold digits_of. pose proof (to_uint_head p) as Hh.
  pose proof (DecimalPos.Unsigned.to_uint_nonnil p) as Hn.
  destruct (Pos.to_uint p) as [|d|d|d|d|d|d|d|d|d|d]; [done|by destruct (Hh d)|..];
    cbn [NilEmpty.string_of_uint bytes list_ascii_of_string];
    eexists _, _; (split; [reflexivity|]); by vm_compute.
Qed.

Lemma ParseUint_digits p :
  Z.pos p ≤ maxUint64 → ParseUint (digits_of p) 10 = inl (Z.pos p).
Proof.
  intros Hp. unfold ParseUint.
  destruct (digits_of_head p) as (c & cs & E & _). rewrite E, <- E.
  unfold digits_of.
  assert (Hv : uint_val (Pos.to_uint p) 0 = Z.pos p).
  { by rewrite uint_val_of_uint, DecimalPos.Unsigned.of_to. }
  rewrite ParseUint_loop_uint; [by rewrite Hv|done|by rewrite Hv].
Qed.

Lemma ParseInt_FormatInt i : int64_range i → ParseInt (FormatInt i) = inl i.
Proof.
  unfold int64_range. intros Hi. destruct i as [|p|p].
  - reflexivity.
  - rewrite FormatInt_pos. unfold ParseInt.
    destruct (digits_of_head p) as (c & cs & E & _ & Hc). rewrite E.
    apply isDigit_range in Hc. tests. cbv zeta. cbn [orb].
    rewrite <- E. unfold of_bytes, bytes.
    rewrite string_of_list_ascii_of_string.
    rewrite ParseUint_digits by (unfold maxUint64; lia).
    tests. reflexivity.
  - rewrite FormatInt_neg. unfold ParseInt.
    change (bytes ("-" +:+ digits_of p)) with ("-"%char :: bytes (digits_of p)).
    tests. cbv zeta. cbn [orb].
    unfold of_bytes, bytes. rewrite string_of_list_ascii_of_string.
    rewrite ParseUint_digits by (unfold maxUint64; lia).
    tests. reflexivity.
Qed.

(** *** Turns of the scanners of a field [key = value] *)

Lemma turn_Top_field p c t :
  drop (pos p) (input p) = c :: t → isBareKeyChar (chr c) = true →
  turn ScanTop p
  = Ret (Some ScanTableField)
        (set_scanners (ScanTopEnd :: scanners p) (set_pos (pos p) [] p)).
Proof.
  intros Hd%drop_lookup Hc%isBareKeyChar_range.
  destruct p as [mk ps ln inp bk rt ev ks nm sp nu sc er]. cbn in *.
  unfold scanTop, skipNewline. unfold_turn. cbn. rewrite Hd. cbn. tests. fin.
Qed.

Lemma turn_TableField_bare p c t :
  drop (pos p) (input p) = c :: t → isBareKeyChar (chr c) = true →
  turn ScanTableField p
  = Ret (Some ScanBareKey)
        (set_mark (Z.of_nat (pos p + 1) + -1) (set_pos (pos p + 1) [1%nat] p)).
Proof.
  intros Hd%drop_lookup Hc.
  destruct p as [mk ps ln inp bk rt ev ks nm sp nu sc er]. cbn in *.
  unfold scanTableField. unfold_turn. cbn. rewrite Hd. cbn. rewrite Hc.
  apply isBareKeyChar_range in Hc. tests. fin.
Qed.

Lemma turn_BareKey_bare p c t :
  drop (pos p) (input p) = c :: t → isBareKeyChar (chr c) = true →
  turn ScanBareKey p = Ret (Some ScanBareKey) (set_pos (pos p + 1) [1%nat] p).
Proof.
  intros Hd%drop_lookup Hc.
  destruct p as [mk ps ln inp bk rt ev ks nm sp nu sc er]. cbn in *.
  unfold scanBareKey. unfold_turn. cbn. rewrite Hd. cbn. rewrite Hc. fin.
Qed.

Lemma turn_FieldAssign_eq p c t :
  drop (pos p) (input p) = c :: t → chr c = 61 →
  turn ScanFieldAssign p = Ret (Some ScanValue) (set_pos (pos p + 1) [1%nat] p).
Proof.
  intros Hd%drop_lookup Hc.
  destruct p as [mk ps ln inp bk rt ev ks nm sp nu sc er]. cbn in *.
  unfold scanFieldAssign. unfold_turn. cbn. rewrite Hd. cbn. tests. fin.
Qed.

Lemma turn_Value_space p c t :
  drop (pos p) (input p) = c :: t → chr c = 32 →
  turn ScanValue p = Ret (Some ScanValue) (set_pos (pos p + 1) [1%nat] p).
Proof.
  intros Hd%drop_lookup Hc.
  destruct p as [mk ps ln inp bk rt ev ks nm sp nu sc er]. cbn in *.
  unfold scanValue. unfold_turn. cbn. rewrite Hd. cbn. tests. fin.
Qed.

Lemma turn_Value_minus p c t :
  drop (pos p) (input p) = c :: t → chr c = 45 →
  turn ScanValue p
  = Ret (Some ScanNumberStart)
        (set_num (mkNumParser "-" (expo (num p)) (esign (num p))
                    (integers (num p)) (fractions (num p)) (exponents (num p)))
           (set_pos (pos p + 1) [1%nat] p)).
Proof.
  intros Hd%drop_lookup Hc.
  destruct p as [mk ps ln inp bk rt ev ks nm sp nu sc er]. cbn in *.
  unfold scanValue, set_sign. unfold_turn. cbn. rewrite Hd. cbn. tests.
  rewrite Hc. fin.
Qed.

Lemma turn_NumberStart p :
  turn ScanNumberStart p
  = Ret (Some scanRecord0)
        (set_scanners (ScanDigit :: ScanNumber :: scanners p) (set_backups [] p)).
Proof.
  destruct p as [mk ps ln inp bk rt ev ks nm sp nu sc er].
  unfold scanNumberStart. unfold_turn. cbn. fin.
Qed.

Lemma turn_Record0 p s sc :
  scanners p = s :: sc →
  turn scanRecord0 p
  = Ret (Some s)
        (set_scanners sc (set_mark (Z.of_nat (pos p) + 0) (set_backups [] p))).
Proof.
  destruct p as [mk ps ln inp bk rt ev ks nm sp nu sc' er]. cbn. intros ->.
  unfold scanRecord0, scanRecord. unfold_turn. cbn. fin.
Qed.

Lemma turn_Digit p c t s sc :
  drop (pos p) (input p) = c :: t → isDigit (chr c) = true →
  scanners p = s :: sc →
  turn ScanDigit p
  = Ret (Some s) (set_scanners sc (set_pos (pos p + 1) [1%nat] p)).
Proof.
  intros Hd%drop_lookup Hc.
  destruct p as [mk ps ln inp bk rt ev ks nm sp nu sc' er]. cbn in *. intros ->.
  unfold scanDigit. unfold_turn. cbn. rewrite Hd. cbn. rewrite Hc. cbn. fin.
Qed.

Lemma turn_Number_digit p c t :
  drop (pos p) (input p) = c :: t → isDigit (chr c) = true →
  turn ScanNumber p = Ret (Some ScanNumber) (set_pos (pos p + 1) [1%nat] p).
Proof.
  intros Hd%drop_lookup Hc.
  destruct p as [mk ps ln inp bk rt ev ks nm sp nu sc er]. cbn in *.
  unfold scanNumber. unfold_turn. cbn. rewrite Hd. cbn. rewrite Hc. fin.
Qed.

Lemma turn_TopEnd_nl p c t :
  drop (pos p) (input p) = c :: t → chr c = 10 →
  turn ScanTopEnd p
  = Ret (Some ScanTop) (set_line (line p + 1) (set_pos (pos p + 1) [1%nat] p)).
Proof.
  intros Hd%drop_lookup Hc.
  destruct p as [mk ps ln inp bk rt ev ks nm sp nu sc er]. cbn in *.
  unfold scanTopEnd, skipNewline. unfold_turn. cbn. rewrite Hd. cbn. tests. fin.
Qed.

Lemma turn_Top_nl p c t :
  drop (pos p) (input p) = c :: t → chr c = 10 →
  turn ScanTop p
  = Ret (Some ScanTop) (set_line (line p + 1) (set_pos (pos p + 1) [1%nat] p)).
Proof.
  intros Hd%drop_lookup Hc.
  destruct p as [mk ps ln inp bk rt ev ks nm sp nu sc er]. cbn in *.
  unfold scanTop, skipNewline. unfold_turn. cbn. rewrite Hd. cbn. tests. fin.
Qed.

(** [p.slice(offset)] on the bytes [w] read since the mark. *)
Lemma slice_run p (off : Z) (a : nat) (w : list ascii) c t :
  mark p = Z.of_nat a → drop a (input p) = (w ++ c :: t)%list →
  Z.of_nat (pos p) + off = Z.of_nat (a + length w) →
  slice off p = Ret (of_bytes w) (set_mark (-1) p).
Proof.
  intros Hm Hd Hp. unfold slice. rewrite Hm, Hp.
  assert (a + length w ≤ length (input p))%nat.
  { apply (f_equal length) in Hd. rewrite length_drop, length_app in Hd.
    cbn [length] in Hd. lia. }
  tests. rewrite Nat2Z.id, Hd.
  replace (Z.to_nat (Z.of_nat (a + length w) - Z.of_nat a)) with (length w) by lia.
  by rewrite take_app_length.
Qed.

Lemma turn_BareKey_space p c t (a : nat) (k : string) im m pth sc :
  drop (pos p) (input p) = c :: t → chr c = 32 →
  mark p = Z.of_nat a → drop a (input p) = (bytes k ++ c :: t)%list →
  pos p = (a + length (bytes k))%nat →
  envs p = [mkEnvironment (InRoot []) pth] → root p = VTable im m →
  m !! k = None → scanners p = sc →
  turn ScanBareKey p
  = Ret (Some ScanFieldAssign)
        (set_keys (k :: keys p) (set_mark (-1) (set_pos (pos p + 1) [1%nat] p))).
Proof.
  intros Hd Hc Hm Hk Hp He Hr Hn Hs.
  unfold turn, clearBackups, modify. unfold bind at 1.
  change (call ScanBareKey) with scanBareKey. unfold scanBareKey.
  unfold bind at 1.
  erewrite readByte_tail by exact Hd. cbn [last_step]. cbv beta iota. tests.
  unfold bind at 1.
  erewrite (slice_run _ (-1) a (bytes k) c t); [|exact Hm|exact Hk|].
  2:{ cbn [pos set_pos set_backups]. flat.
      destruct p; cbn in *. lia. }
  unfold of_bytes, bytes. rewrite string_of_list_ascii_of_string.
  destruct p as [mk ps ln inp bk rt ev ks nm sp nu sc' er]. cbn in *. subst.
  unfold pushScanner, pushTableKey, topEnv, deref.
  unfold bind, modify, popScanner, ret. flat. cbn [env path get_at].
  rewrite Hn.
  reflexivity.
Qed.

Lemma setValue_root p v k ks im m pth s sc :
  envs p = [mkEnvironment (InRoot []) pth] → root p = VTable im m →
  keys p = k :: ks → scanners p = s :: sc →
  setValue v p
  = Ret (Some s)
        (set_scanners sc (set_root (VTable im (<[k := v]> m)) (set_keys ks p))).
Proof.
  destruct p as [mk ps ln inp bk rt ev ks' nm sp nu sc' er]. cbn.
  intros -> -> -> ->.
  unfold setValue, bind, topEnv, deref, popTableKey, store_top, popScanner.
  flat. cbn [env path get_at set_at]. reflexivity.
Qed.

Lemma HasPrefix_nil s : HasPrefix s [] = true.
Proof. by destruct s. Qed.

Lemma turn_Value_bool p (b : bool) t k ks im m pth s sc :
  drop (pos p) (input p) = (bytes (bool_text b) ++ t)%list →
  envs p = [mkEnvironment (InRoot []) pth] → root p = VTable im m →
  keys p = k :: ks → scanners p = s :: sc →
  ∃ bk, turn ScanValue p
        = Ret (Some s)
            (set_scanners sc
               (set_root (VTable im (<[k := VBoolean b]> m))
                  (set_keys ks
                     (set_pos (pos p + length (bytes (bool_text b))) bk p)))).
Proof.
  intros Hd He Hr Hk Hs.
  destruct p as [mk ps ln inp bk rt ev ks' nm sp nu sc' er].
  cbn in Hd, He, Hr, Hk, Hs. subst.
  unfold turn, clearBackups, modify. unfold bind at 1.
  change (call ScanValue) with scanValue. unfold scanValue.
  unfold bind at 1.
  assert (Hlen : (ps + length (bytes (bool_text b)) ≤ length inp)%nat).
  { apply (f_equal length) in Hd. rewrite length_drop, length_app in Hd.
    destruct b; cbn in *; lia. }
  destruct b; cbn [bool_text bytes list_ascii_of_string app length] in Hd, Hlen |- *;
    (erewrite readByte_tail by exact Hd); cbn [last_step]; cbv beta iota; tests;
    unfold bind at 1; unfold tryReadPrefix; flat;
    (rewrite decide_True by lia);
    (replace (ps + 1)%nat with (S ps) by lia);
    rewrite (drop_next _ _ _ _ Hd); cbn [bytes list_ascii_of_string HasPrefix];
    tests; unfold bind, stepN, modify, ret; rewrite HasPrefix_nil; cbn [negb];
    (erewrite setValue_root; [|flat; reflexivity..]);
    eexists; flat; cbn [length]; do 2 f_equal; lia.
Qed.

Lemma Join_one s : Join [s] "" = s.
Proof. reflexivity. Qed.

Lemma Integer_digits (neg : bool) p :
  int64_range (if neg then Z.neg p else Z.pos p) →
  Integer (mkNumParser (if neg then "-" else "") "" "" [digits_of p] [] [])
  = Some (inl (if neg then Z.neg p else Z.pos p), numParser_reset).
Proof.
  intros Hi. unfold Integer. cbn [integers sign]. rewrite Join_one.
  destruct (digits_of_head p) as (c & cs & E & Hc & _). rewrite E.
  rewrite (proj2 (Z.eqb_neq _ _) Hc), andb_false_r.
  destruct neg.
  - by rewrite <- FormatInt_neg, ParseInt_FormatInt.
  - change ("" +:+ digits_of p) with (digits_of p).
    by rewrite <- FormatInt_pos, ParseInt_FormatInt.
Qed.

Lemma turn_Number_end p c t (a : nat) (ds sg : string) i k ks im m pth s sc :
  drop (pos p) (input p) = c :: t → chr c = 10 →
  mark p = Z.of_nat a → drop a (input p) = (bytes ds ++ c :: t)%list →
  pos p = (a + length (bytes ds))%nat →
  num p = mkNumParser sg "" "" [] [] [] →
  Integer (mkNumParser sg "" "" [ds] [] []) = Some (inl i, numParser_reset) →
  envs p = [mkEnvironment (InRoot []) pth] → root p = VTable im m →
  keys p = k :: ks → scanners p = s :: sc →
  turn ScanNumber p
  = Ret (Some s)
      (set_scanners sc
         (set_root (VTable im (<[k := VInteger i]> m))
            (set_keys ks
               (set_num numParser_reset
                  (set_mark (-1) (set_pos (pos p) [] p)))))).
Proof.
  intros Hd Hc Hm Hk Hp Hn Hi He Hr Hks Hs.
  destruct p as [mk ps ln inp bk rt ev ks' nm sp nu sc' er].
  cbn in Hd, Hm, Hk, Hp, Hn, He, Hr, Hks, Hs. subst.
  unfold turn, clearBackups, modify. unfold bind at 1.
  change (call ScanNumber) with scanNumber. unfold scanNumber.
  unfold bind at 1.
  erewrite readByte_tail by exact Hd. cbn [last_step]. cbv beta iota. tests.
  unfold bind at 1. unfold unread. flat.
  unfold bind at 1.
  erewrite (slice_run _ 0 a (bytes ds) c t); [|reflexivity|exact Hk|flat; lia].
  unfold of_bytes, bytes. rewrite string_of_list_ascii_of_string.
  unfold pushInteger, setIntegerValue, bind, modify, get. flat.
  cbn [sign expo esign integers fractions exponents app].
  rewrite Hi.
  erewrite setValue_root; [|flat; reflexivity..].
  flat. do 2 f_equal. lia.
Qed.

(** *** Runs of turns *)

Lemma reach_refl s p : reach s p s p.
Proof. by exists 0%nat. Qed.

Lemma reach_turn s p s1 p1 s' p' :
  turn s p = Ret (Some s1) p1 → reach s1 p1 s' p' → reach s p s' p'.
Proof. intros Ht [n Hn]. exists (S n). cbn [steps]. by rewrite Ht. Qed.

Lemma steps_app n : ∀ s p s1 p1 k,
  steps n s p = Some (Some s1, p1) → steps (n + k) s p = steps k s1 p1.
Proof.
  induction n as [|n IH]; intros s p s1 p1 k; cbn [steps plus].
  - by intros [= <- <-].
  - destruct (turn s p) as [[s2|] p2| |]; [|by destruct n|done..].
    apply IH.
Qed.

Lemma reach_trans s p s1 p1 s' p' :
  reach s p s1 p1 → reach s1 p1 s' p' → reach s p s' p'.
Proof.
  intros [n Hn] [k Hk]. exists (n + k)%nat.
  by rewrite (steps_app _ _ _ _ _ _ Hn).
Qed.

Lemma reach_loop s p s' p' :
  reach s p s' p' → ∃ n, ∀ k, loop (n + k) (Some s) p = loop k (Some s') p'.
Proof. intros [n Hn]. exists n. intros k. by apply steps_loop. Qed.

(** A scanner that stays on the bytes of a class runs over any run of
    them. *)
Lemma run_loop (S : scanner) (P : ascii → Prop) :
  (∀ p c t, drop (pos p) (input p) = c :: t → P c →
            turn S p = Ret (Some S) (set_pos (pos p + 1) [1%nat] p)) →
  ∀ cs p t, Forall P cs → drop (pos p) (input p) = (cs ++ t)%list →
  ∃ bk, reach S p S (set_pos (pos p + length cs) bk p).
Proof.
  intros Hturn. induction cs as [|c cs IH]; intros p t Hcs Hd.
  - exists (backups p). destruct p. cbn [length]. flat.
    rewrite Nat.add_0_r. apply reach_refl.
  - inversion Hcs as [|? ? Hc Hcs']; subst. cbn [app] in Hd.
    destruct (IH (set_pos (pos p + 1) [1%nat] p) t Hcs') as [bk Hr].
    { cbn [pos input set_pos]. destruct p; flat.
      rewrite Nat.add_1_r. by eapply drop_next. }
    exists bk. eapply reach_turn; [by eapply Hturn|].
    destruct p; flat. flat_in Hr. cbn [length].
    match goal with
    | |- reach _ _ _ ?q =>
      match type of Hr with
      | reach _ _ _ ?q' => replace q with q'; [exact Hr|f_equal; lia]
      end
    end.
Qed.

(** *** The value of a field *)

Lemma reach_here s p p' : p = p' → reach s p s p'.
Proof. intros ->. apply reach_refl. Qed.

Lemma drop_at {A} (l : list A) n n' t : drop n l = t → n' = n → drop n' l = t.
Proof. by intros ? ->. Qed.

Lemma drop_after {A} (l : list A) n l1 l2 :
  drop n l = (l1 ++ l2)%list → drop (n + length l1) l = l2.
Proof.
  intros Hd. rewrite <- drop_drop, Hd. apply drop_app_length.
Qed.

(** An unsigned numeral [ds], of value [i], read from its first digit. *)
Lemma run_unsigned mk ps ln inp bk m k (ds : string) c cs i rest :
  bytes ds = c :: cs → Forall (λ d, isDigit (chr d) = true) (c :: cs) →
  Integer (mkNumParser "" "" "" [ds] [] []) = Some (inl i, numParser_reset) →
  drop ps inp = (bytes ds ++ lf :: rest)%list →
  ∃ mk' bk',
    reach ScanValue (st_value mk ps ln inp bk m k)
          ScanTopEnd
          (st mk' (ps + length (bytes ds)) ln inp bk' (<[k := VInteger i]> m)).
Proof.
  intros Eds Hds Hi Hd. unfold st_value, st.
  inversion Hds as [|? ? Hc Hcs]; subst.
  pose proof Hd as Hd0. rewrite Eds in Hd. cbn [app] in Hd.
  pose proof (drop_next _ _ _ _ Hd) as Hd1.
  pose proof (drop_after _ _ _ _ Hd0) as Hd2.
  edestruct (run_loop ScanNumberOrDate (λ d, isDigit (chr d) = true))
    as [bk1 Hrun]; [apply turn_NumberOrDate_digit|exact Hcs| |].
  2:{ eexists _, _.
      eapply reach_turn.
      { etrans; [eapply (turn_Value_digit _ c); [exact Hd|exact Hc]|].
        flat. reflexivity. }
      eapply reach_trans; [exact Hrun|]. flat.
      eapply reach_turn.
      { etrans; [eapply (turn_NumberOrDate_other _ lf rest); [|done|done]|].
        - flat. eapply drop_at; [exact Hd2|]. rewrite Eds. cbn [length]. lia.
        - flat. reflexivity. }
      eapply reach_turn.
      { etrans; [eapply (turn_Number_end _ lf rest ps ds "" i k [] false m "" ScanTopEnd []);
                 flat; try reflexivity|].
        - eapply drop_at; [exact Hd2|]. rewrite Eds. cbn [length]. lia.
        - lia.
        - exact Hd0.
        - rewrite Eds. cbn [length]. lia.
        - exact Hi.
        - flat. reflexivity. }
      apply reach_here. f_equal. rewrite Eds. cbn [length]. lia. }
  flat. eapply drop_at; [exact Hd1|]. lia.
Qed.

(** A negative numeral: the sign, then the digits [ds]. *)
Lemma run_negative mk ps ln inp bk m k (ds : string) c cs i rest :
  bytes ds = c :: cs → Forall (λ d, isDigit (chr d) = true) (c :: cs) →
  Integer (mkNumParser "-" "" "" [ds] [] []) = Some (inl i, numParser_reset) →
  drop ps inp = ("-"%char :: bytes ds ++ lf :: rest)%list →
  ∃ mk' bk',
    reach ScanValue (st_value mk ps ln inp bk m k)
          ScanTopEnd
          (st mk' (ps + S (length (bytes ds))) ln inp bk'
              (<[k := VInteger i]> m)).
Proof.
  intros Eds Hds Hi Hd. unfold st_value, st.
  inversion Hds as [|? ? Hc Hcs]; subst.
  pose proof (drop_next _ _ _ _ Hd) as Hd0.
  pose proof Hd0 as Hd1. rewrite Eds in Hd1. cbn [app] in Hd1.
  pose proof (drop_next _ _ _ _ Hd1) as Hd2.
  pose proof (drop_after _ _ _ _ Hd0) as Hd3.
  edestruct (run_loop ScanNumber (λ d, isDigit (chr d) = true))
    as [bk1 Hrun]; [apply turn_Number_digit|exact Hcs| |].
  2:{ eexists _, _.
      eapply reach_turn.
      { etrans; [eapply (turn_Value_minus _ "-"%char); [exact Hd|done]|].
        flat. reflexivity. }
      eapply reach_turn.
      { etrans; [eapply turn_NumberStart|]. flat. reflexivity. }
      eapply reach_turn.
      { etrans; [eapply turn_Record0; flat; reflexivity|]. flat. reflexivity. }
      eapply reach_turn.
      { etrans; [eapply (turn_Digit _ c); flat; [|exact Hc|reflexivity]|].
        - eapply drop_at; [exact Hd1|]. lia.
        - flat. reflexivity. }
      eapply reach_trans; [exact Hrun|]. flat.
      eapply reach_turn.
      { etrans; [eapply (turn_Number_end _ lf rest (S ps) ds "-" i k [] false m ""
                           ScanTopEnd []);
                 flat; try reflexivity|].
        - eapply drop_at; [exact Hd3|]. rewrite Eds. cbn [length]. lia.
        - lia.
        - exact Hd0.
        - rewrite Eds. cbn [length]. lia.
        - exact Hi.
        - flat. reflexivity. }
      apply reach_here. f_equal. rewrite Eds. cbn [length]. lia. }
  flat. eapply drop_at; [exact Hd2|]. lia.
Qed.

(** ** Strings of plain bytes *)

Lemma byte_of_chr c : byte_of (chr c) = c.
Proof.
  unfold byte_of, chr. pose proof (N_ascii_bounded c).
  rewrite Z.mod_small by lia. rewrite N2Z.id. apply ascii_N_embedding.
Qed.

Lemma string_of_rune_ascii c : chr c < 128 → string_of_rune (chr c) = of_bytes [c].
Proof.
  intros Hc. unfold string_of_rune, ValidRune, chr in *.
  pose proof (N2Z.is_nonneg (N_of_ascii c)).
  tests. rewrite (proj2 (Z.leb_le _ 127)) by lia.
  fold (chr c). by rewrite byte_of_chr.
Qed.

Lemma of_bytes_snoc buf cs c :
  buf +:+ of_bytes [c] +:+ of_bytes cs = buf +:+ of_bytes (c :: cs).
Proof. reflexivity. Qed.

Lemma length_bytes s : length (bytes s) = String.length s.
Proof.
  rewrite <- (length_of_bytes (bytes s)). unfold of_bytes, bytes.
  by rewrite string_of_list_ascii_of_string.
Qed.

Lemma readRune_ascii p c t :
  drop (pos p) (input p) = c :: t → chr c < 128 →
  readRune p
  = Ret (chr c, 1%nat) (set_pos (pos p + 1) (1%nat :: backups p) p).
Proof.
  intros Hd Hc. unfold readRune.
  assert (pos p < length (input p))%nat.
  { apply (f_equal length) in Hd. rewrite length_drop in Hd. cbn in Hd. lia. }
  rewrite decide_True by lia. rewrite Hd. cbn [DecodeRuneInString].
  unfold RuneError in *. pose proof (N2Z.is_nonneg (N_of_ascii c)).
  fold (chr c) in *. tests. cbv zeta. cbn [andb].
  reflexivity.
Qed.

Lemma turn_Value_dquote p c t :
  drop (pos p) (input p) = c :: t → chr c = 34 →
  turn ScanValue p
  = Ret (Some ScanStringStart) (set_pos (pos p + 1) [1%nat] p).
Proof.
  intros Hd%drop_lookup Hc.
  destruct p as [mk ps ln inp bk rt ev ks nm sp nu sc er]. cbn in *.
  unfold scanValue. unfold_turn. cbn. rewrite Hd. cbn. tests. fin.
Qed.

Lemma turn_StringStart p tl :
  drop (pos p) (input p) = tl → (pos p ≤ length (input p))%nat →
  HasPrefix tl (bytes dquote2) = false →
  turn ScanStringStart p
  = Ret (Some scanRecord0)
        (set_scanners (ScanString :: SetStringValue :: scanners p)
           (set_backups [] p)).
Proof.
  intros Hd Hp Hpre.
  destruct p as [mk ps ln inp bk rt ev ks nm sp nu sc er]. cbn in Hd, Hp.
  unfold_turn. flat. change (call ScanStringStart) with scanStringStart.
  unfold scanStringStart, tryReadPrefix, bind. flat.
  rewrite decide_True by done. rewrite Hd, Hpre.
  unfold seqScanner, popScanner. flat. reflexivity.
Qed.

Lemma turn_String_plain p c t :
  drop (pos p) (input p) = c :: t → plain_char c →
  turn ScanString p = Ret (Some ScanString) (set_pos (pos p + 1) [1%nat] p).
Proof.
  intros Hd (Hr & Hq & Hb & _).
  unfold turn, clearBackups, modify. unfold bind at 1.
  change (call ScanString) with scanString. unfold scanString.
  unfold bind at 1.
  erewrite readRune_ascii; [|exact Hd|lia].
  cbv beta iota. unfold dquote, backslash. tests.
  destruct p. reflexivity.
Qed.

Lemma turn_String_end p c t (a : nat) (s : string) s1 sc :
  drop (pos p) (input p) = c :: t → chr c = 34 →
  mark p = Z.of_nat a → drop a (input p) = (bytes s ++ c :: t)%list →
  pos p = (a + length (bytes s))%nat →
  strparts p = [] → scanners p = s1 :: sc →
  turn ScanString p
  = Ret (Some s1)
        (set_scanners sc
           (set_strparts (if String.eqb s "" then [] else [s])
              (set_mark (-1) (set_pos (pos p + 1) [1%nat] p)))).
Proof.
  intros Hd Hc Hm Hk Hp Hsp Hs.
  unfold turn, clearBackups, modify. unfold bind at 1.
  change (call ScanString) with scanString. unfold scanString.
  unfold bind at 1.
  erewrite readRune_ascii; [|exact Hd|lia].
  cbv beta iota. unfold dquote. tests. unfold bind at 1.
  destruct p as [mk ps ln inp bk rt ev ks nm sp nu sc' er].
  cbn in Hd, Hm, Hk, Hp, Hsp, Hs. subst.
  erewrite (slice_run _ (-1) a (bytes s) c t); [|reflexivity|exact Hk|flat; lia].
  unfold of_bytes, bytes. rewrite string_of_list_ascii_of_string.
  unfold str_push, bind, popScanner.
  destruct (String.eqb s ""); unfold ret, modify; flat; reflexivity.
Qed.

Lemma turn_SetStringValue p (s : string) k ks im m pth s1 sc :
  Join (strparts p) "" = s →
  envs p = [mkEnvironment (InRoot []) pth] → root p = VTable im m →
  keys p = k :: ks → scanners p = s1 :: sc →
  turn SetStringValue p
  = Ret (Some s1)
      (set_scanners sc
         (set_root (VTable im (<[k := VString s]> m))
            (set_keys ks (set_strparts [] (set_backups [] p))))).
Proof.
  intros Hj He Hr Hk Hs.
  destruct p as [mk ps ln inp bk rt ev ks' nm sp nu sc' er].
  cbn in Hj, He, Hr, Hk, Hs. subst.
  unfold turn, clearBackups, modify. unfold bind at 1.
  change (call SetStringValue) with setStringValue.
  unfold setStringValue, str_join. unfold bind, get, modify, ret. flat.
  erewrite setValue_root; [|flat; reflexivity..]. flat. reflexivity.
Qed.

Lemma Join_parts s : Join (if String.eqb s "" then [] else [s]) "" = s.
Proof. destruct (String.eqb s "") eqn:E; [|done]. by apply String.eqb_eq in E. Qed.

(** A basic string of plain bytes, from its opening quote. *)
Lemma run_string mk ps ln inp bk m k (s : string) rest :
  plain_string s →
  drop ps inp = (dqc :: bytes s ++ dqc :: lf :: rest)%list →
  ∃ mk' bk',
    reach ScanValue (st_value mk ps ln inp bk m k)
          ScanTopEnd
          (st mk' (ps + (length (bytes s) + 2)) ln inp bk'
              (<[k := VString s]> m)).
Proof.
  intros Hs Hd. unfold st_value, st.
  pose proof (drop_next _ _ _ _ Hd) as Hd1.
  pose proof (drop_after _ _ _ _ Hd1) as Hd2.
  assert (Hpre : HasPrefix (bytes s ++ dqc :: lf :: rest) (bytes dquote2) = false).
  { unfold plain_string in Hs. destruct (bytes s) as [|c cs]; [done|].
    inversion Hs as [|? ? (_ & Hq & _) _]; subst.
    cbn [app bytes dquote2 HasPrefix list_ascii_of_string of_bytes
         string_of_list_ascii].
    change (chr (byte_of 34)) with 34.
    by rewrite (proj2 (Z.eqb_neq 34 (chr c))) by lia. }
  assert (Hlen : (ps + 1 + length (bytes s) < length inp)%nat).
  { apply (f_equal length) in Hd2. rewrite length_drop in Hd2. cbn in Hd2. lia. }
  set (p3 := {| mark := Z.of_nat (ps + 1) + 0; pos := ps + 1; line := ln;
                input := inp; backups := []; root := VTable false m;
                envs := [mkEnvironment (InRoot []) ""]; keys := [k];
                names := []; strparts := []; num := numParser_reset;
                scanners := [SetStringValue; ScanTopEnd]; err := None |}).
  destruct (run_loop ScanString plain_char turn_String_plain (bytes s) p3
              (dqc :: lf :: rest) Hs) as [bk1 Hrun].
  { subst p3. flat. eapply drop_at; [exact Hd1|]. lia. }
  subst p3. flat_in Hrun.
  eexists _, _.
  eapply reach_turn.
  { etrans; [eapply (turn_Value_dquote _ dqc); [exact Hd|done]|].
    flat. reflexivity. }
  eapply reach_turn.
  { etrans; [eapply (turn_StringStart _ _); flat; [|lia|exact Hpre]|].
    - eapply drop_at; [exact Hd1|]. lia.
    - flat. reflexivity. }
  eapply reach_turn.
  { etrans; [eapply turn_Record0; flat; reflexivity|]. flat. reflexivity. }
  eapply reach_trans; [exact Hrun|].
  eapply reach_turn.
  { etrans; [eapply (turn_String_end _ dqc (lf :: rest) (ps + 1) s
                       SetStringValue [ScanTopEnd]);
             flat; try reflexivity|].
    - eapply drop_at; [exact Hd2|]. lia.
    - lia.
    - eapply drop_at; [exact Hd1|]. lia.
    - flat. reflexivity. }
  eapply reach_turn.
  { etrans; [eapply (turn_SetStringValue _ s k [] false m "" ScanTopEnd []);
             flat; try reflexivity|].
    - apply Join_parts.
    - flat. reflexivity. }
  apply reach_here. f_equal. lia.
Qed.

Lemma bytes_app s1 s2 : bytes (s1 +:+ s2) = (bytes s1 ++ bytes s2)%list.
Proof.
  induction s1 as [|a s1 IH]; [done|].
  change (a :: bytes (s1 +:+ s2) = a :: (bytes s1 ++ bytes s2)%list).
  by rewrite IH.
Qed.

(** The value of a field of the flat fragment, up to its line feed. *)
Lemma run_value mk ps ln inp bk m k g rest :
  flat_go g → drop ps inp = (bytes (text_of g) ++ lf :: rest)%list →
  ∃ mk' bk',
    reach ScanValue (st_value mk ps ln inp bk m k)
          ScanTopEnd
          (st mk' (ps + length (bytes (text_of g))) ln inp bk'
              (<[k := value_of g]> m)).
Proof.
  intros Hg Hd. destruct g as [b|i| |s| | |]; try done;
    cbn [flat_go text_of value_of] in *.
  - destruct (turn_Value_bool (st_value mk ps ln inp bk m k) b (lf :: rest)
                k [] false m "" ScanTopEnd []) as [bk' Ht]; try done.
    eexists _, _. eapply reach_turn.
    { etrans; [exact Ht|]. flat. reflexivity. }
    apply reach_here. reflexivity.
  - destruct i as [|p|p].
    + eapply (run_unsigned _ _ _ _ _ _ _ "0" "0"%char []); try done.
      by repeat constructor.
    + rewrite FormatInt_pos in *.
      destruct (digits_of_head p) as (c & cs & E & _).
      eapply run_unsigned; [exact E| |by apply (Integer_digits false)|done].
      rewrite <- E. apply digits_of_digits.
    + rewrite FormatInt_neg, bytes_app in *.
      destruct (digits_of_head p) as (c & cs & E & _).
      destruct (run_negative mk ps ln inp bk m k (digits_of p) c cs (Z.neg p) rest)
        as (mk' & bk' & Hr); [exact E| |by apply (Integer_digits true)|done|].
      { rewrite <- E. apply digits_of_digits. }
      exists mk', bk'. exact Hr.
  - rewrite !bytes_app in *. change (bytes dq) with [dqc] in *.
    destruct (run_string mk ps ln inp bk m k s rest Hg) as (mk' & bk' & Hr).
    { rewrite Hd. cbn [app]. by rewrite <- app_assoc. }
    exists mk', bk'.
    replace (ps + length ([dqc] ++ bytes s ++ [dqc]))%nat
      with (ps + (length (bytes s) + 2))%nat; [exact Hr|].
    rewrite !length_app. cbn [length]. lia.
Qed.

(** *** A field, from its key to the end of its line *)

Lemma bare_key_bytes k :
  bare_key k →
  ∃ c cs, bytes k = c :: cs
          ∧ Forall (λ c, isBareKeyChar (chr c) = true) (c :: cs).
Proof.
  intros [Hne Hall]. destruct k as [|c k]; [done|].
  exists c, (bytes k). split; [done|].
  apply Forall_forall. intros x Hx.
  rewrite forallb_forall in Hall. apply Hall. by apply list_elem_of_In.
Qed.

Lemma run_line mk ps ln inp bk m k g rest :
  bare_key k → flat_go g → m !! k = None →
  drop ps inp
  = (bytes k ++ bytes " = " ++ bytes (text_of g) ++ lf :: rest)%list →
  ∃ mk' bk',
    reach ScanTop (st mk ps ln inp bk m)
          ScanTop
          (st mk' (ps + (length (bytes k) + 3 + length (bytes (text_of g)) + 1))
              (ln + 1) inp bk' (<[k := value_of g]> m)).
Proof.
  intros Hk Hg Hm Hd.
  destruct (bare_key_bytes k Hk) as (c & cs & Ek & Hall).
  inversion Hall as [|? ? Hc Hcs]; subst.
  pose proof Hd as Hd0. rewrite Ek in Hd0. cbn [app] in Hd0.
  pose proof (drop_next _ _ _ _ Hd0) as Hd1.
  pose proof (drop_after _ _ _ _ Hd) as Hd2.
  cbn [bytes list_ascii_of_string app] in Hd2.
  pose proof (drop_next _ _ _ _ Hd2) as Hd3.
  pose proof (drop_next _ _ _ _ Hd3) as Hd4.
  pose proof (drop_next _ _ _ _ Hd4) as Hd5.
  pose proof (drop_after _ _ _ _ Hd5) as Hd6.
  edestruct (run_loop ScanBareKey (λ d, isBareKeyChar (chr d) = true))
    as [bk1 Hrun]; [apply turn_BareKey_bare|exact Hcs| |].
  2:{ edestruct (run_value (-1) (S (S (S (ps + length (bytes k))))) ln inp
                   [1%nat] m k g rest Hg Hd5) as (mk' & bk' & Hval).
      exists mk'. eexists.
      unfold st. eapply reach_turn.
      { etrans; [eapply (turn_Top_field _ c); [exact Hd0|exact Hc]|].
        flat. reflexivity. }
      eapply reach_turn.
      { etrans; [eapply (turn_TableField_bare _ c); [exact Hd0|exact Hc]|].
        flat. reflexivity. }
      eapply reach_trans; [exact Hrun|]. flat.
      eapply reach_turn.
      { etrans; [eapply (turn_BareKey_space _ " "%char _ ps k false m "" [ScanTopEnd]);
                 flat; try reflexivity|].
        - eapply drop_at; [exact Hd2|]. rewrite Ek. cbn [length]. lia.
        - lia.
        - exact Hd.
        - rewrite Ek. cbn [length]. lia.
        - exact Hm.
        - flat. reflexivity. }
      eapply reach_turn.
      { etrans; [eapply (turn_FieldAssign_eq _ "="%char); flat; [|reflexivity]|].
        - eapply drop_at; [exact Hd3|]. rewrite Ek. cbn [length]. lia.
        - flat. reflexivity. }
      eapply reach_turn.
      { etrans; [eapply (turn_Value_space _ " "%char); flat; [|reflexivity]|].
        - eapply drop_at; [exact Hd4|]. rewrite Ek. cbn [length]. lia.
        - flat. reflexivity. }
      eapply reach_trans.
      { unfold st_value in Hval.
        match type of Hval with
        | reach _ ?q _ _ =>
          match goal with
          | |- reach _ ?q' _ _ => replace q' with q; [exact Hval|]
          end
        end.
        f_equal. rewrite Ek. cbn [length]. lia. }
      unfold st. eapply reach_turn.
      { etrans; [eapply (turn_TopEnd_nl _ lf rest); flat; [|reflexivity]|].
        - eapply drop_at; [exact Hd6|]. lia.
        - flat. reflexivity. }
      apply reach_here. f_equal. lia. }
  flat. eapply drop_at; [exact Hd1|]. lia.
Qed.

(** *** The emitter on the flat fragment *)

Lemma append_assoc s1 s2 s3 : (s1 +:+ s2) +:+ s3 = s1 +:+ (s2 +:+ s3).
Proof.
  induction s1 as [|a s1 IH]; [done|].
  change (String a ((s1 +:+ s2) +:+ s3) = String a (s1 +:+ (s2 +:+ s3))).
  by rewrite IH.
Qed.

Lemma normalizeKey_bare k : bare_key k → normalizeKey k = k.
Proof. intros [_ Hk]. unfold normalizeKey. by rewrite Hk. Qed.

Lemma nl_sep : String.eqb nl "" = false ∧ String.eqb nl " " = false.
Proof. by vm_compute. Qed.

(** *** The emitter on a string of plain bytes *)

Lemma quoteBasic_loop_plain cs : ∀ fuel buf,
  Forall plain_char cs → (length cs ≤ fuel)%nat →
  quoteBasic_loop fuel false false cs "" buf = Some (buf +:+ of_bytes cs).
Proof.
  induction cs as [|c cs IH]; intros fuel buf Hcs Hf.
  - destruct fuel; cbn; by rewrite append_empty.
  - inversion Hcs as [|? ? (Hr & Hq & Hb & Hp) Hcs']; subst.
    destruct fuel as [|fuel]; [cbn in Hf; lia|].
    cbn [quoteBasic_loop]. unfold RuneSelf, RuneError, dquote, backslash.
    tests. cbn [drop]. rewrite Hp. cbn [andb negb].
    rewrite string_of_rune_ascii by lia.
    rewrite IH by (done || cbn in Hf; lia).
    by rewrite append_assoc.
Qed.

Lemma quoteBasic_plain s :
  plain_string s → quoteBasic s (char_string 34) false = wret s.
Proof.
  intros Hs. unfold quoteBasic.
  assert (E : String.eqb (char_string 34) dquote3 = false) by (by vm_compute).
  rewrite E.
  rewrite quoteBasic_loop_plain; [|done|].
  - unfold of_bytes, bytes. by rewrite string_of_list_ascii_of_string.
  - by rewrite length_bytes.
Qed.

Lemma marshalTableField_flat f il pth s0 k g buf :
  bare_key k → flat_go g → s0 = "" ∨ s0 = nl →
  marshalTableField (S f) (mkTable il pth s0 None []) k g None buf
  = Wrote (mkTable il pth nl None [])
          (buf +:+ (s0 +:+ k +:+ " = " +:+ text_of g)).
Proof.
  intros Hk Hg Hs. destruct nl_sep as [Hn1 Hn2].
  assert (Hsep : fieldSep (mkTable il pth s0 None [])
                 = (s0, mkTable il pth nl None [])).
  { unfold fieldSep. cbn [sep Inline Path tkeys tables].
    destruct Hs as [->| ->]; [done|]. by rewrite Hn1, Hn2. }
  destruct g as [b|i| |s| | |]; try done; cbn [marshalTableField Has andb];
    unfold marshalField, recordKey; cbn [tkeys]; unfold wbind at 1, wret at 1;
    rewrite Hsep; unfold WriteSepKeyAssign, marshalBoolValue, marshalIntValue,
      marshalRawValue, marshalStringValue, marshalBasicString;
    cbn [Has orb andb text_of flat_go] in *;
    try rewrite (quoteBasic_plain s Hg);
    unfold wbind, WriteString, wret;
    rewrite (normalizeKey_bare k Hk), !append_assoc; reflexivity.
Qed.

Lemma wfold_flat f il pth es : ∀ s0 buf,
  flat_entries es → s0 = "" ∨ s0 = nl →
  ∃ s1, wfold (λ t '(k, v), marshalTableField (S f) t k v None) es
          (mkTable il pth s0 None []) buf
        = Wrote (mkTable il pth s1 None []) (buf +:+ body s0 es).
Proof.
  induction es as [|[k g] es IH]; intros s0 buf Hes Hs.
  - exists s0. cbn [wfold body]. unfold wret. by rewrite append_empty.
  - inversion Hes as [|? ? [Hk Hg] Hes']; subst. cbn [fst snd] in *.
    cbn [wfold]. unfold wbind.
    rewrite marshalTableField_flat by done.
    destruct (IH nl (buf +:+ (s0 +:+ k +:+ " = " +:+ text_of g)) Hes')
      as [s1 ->]; [by right|].
    exists s1. cbn [body]. by rewrite !append_assoc.
Qed.

Lemma Marshal_flat f es :
  flat_entries es →
  Marshal (S f) (GoMap es) = Wrote tt (body "" es +:+ nl).
Proof.
  intros Hes. unfold Marshal. cbn [marshalMap]. unfold wbind at 1.
  unfold wbind at 1. cbn [String.eqb].
  destruct (wfold_flat f false "" es "" "" Hes) as [s1 ->]; [by left|].
  cbn [tables wfold]. unfold wbind, wret, WriteString. reflexivity.
Qed.

(** *** The lines of a flat document *)

Lemma bytes_body es : bytes (body nl es +:+ nl) = lf :: doc_bytes es.
Proof.
  induction es as [|[k g] es IH]; [done|].
  cbn [body doc_bytes flat_map]. fold (doc_bytes es).
  rewrite !append_assoc. do 4 rewrite bytes_app. rewrite IH. unfold line_bytes. cbn [fst snd].
  change (bytes nl) with [lf]. by rewrite <- !app_assoc.
Qed.

Lemma bytes_body_top k g es :
  bytes (body "" ((k, g) :: es) +:+ nl) = doc_bytes ((k, g) :: es).
Proof.
  cbn [body doc_bytes flat_map]. fold (doc_bytes es).
  rewrite !append_assoc. do 4 rewrite bytes_app. rewrite bytes_body. unfold line_bytes.
  cbn [fst snd]. change (bytes "") with (@nil ascii).
  by rewrite <- !app_assoc.
Qed.

Lemma run_lines es : ∀ mk ps ln inp bk m rest,
  flat_entries es → NoDup es.*1 → (∀ k, k ∈ es.*1 → m !! k = None) →
  drop ps inp = (doc_bytes es ++ rest)%list →
  ∃ mk' bk',
    reach ScanTop (st mk ps ln inp bk m)
          ScanTop
          (st mk' (ps + length (doc_bytes es)) (ln + Z.of_nat (length es))
              inp bk' (foldl put m es)).
Proof.
  induction es as [|[k g] es IH]; intros mk ps ln inp bk m rest Hes Hnd Hm Hd.
  - exists mk, bk. apply reach_here. unfold st. cbn [doc_bytes flat_map length foldl].
    f_equal; lia.
  - inversion Hes as [|? ? [Hk Hg] Hes']; subst. cbn [fst snd] in *.
    rewrite fmap_cons in Hnd. apply NoDup_cons in Hnd as [Hnk Hnd].
    cbn [doc_bytes flat_map] in Hd. fold (doc_bytes es) in Hd.
    unfold line_bytes in Hd at 1. cbn [fst snd] in Hd.
    rewrite <- !app_assoc in Hd. cbn [app] in Hd.
    destruct (run_line mk ps ln inp bk m k g (doc_bytes es ++ rest) Hk Hg)
      as (mk1 & bk1 & Hr1); [apply Hm; rewrite fmap_cons; left|exact Hd|].
    apply drop_after in Hd. apply drop_next in Hd. apply drop_next in Hd.
    apply drop_next in Hd. apply drop_after in Hd. apply drop_next in Hd.
    edestruct (IH mk1 (S (S (S (S (ps + length (bytes k)))) + length (bytes (text_of g))))
                 (ln + 1) inp bk1 (<[k := value_of g]> m) rest Hes' Hnd)
      as (mk2 & bk2 & Hr2); [|exact Hd|].
    { intros k' Hk'. rewrite lookup_insert_ne; [|by intros ->].
      apply Hm. rewrite fmap_cons. by right. }
    exists mk2, bk2. eapply reach_trans; [exact Hr1|].
    eapply reach_trans; [|eapply reach_here; reflexivity].
    match type of Hr2 with
    | reach _ ?q _ ?q2 =>
      match goal with
      | |- reach _ ?q' _ ?q2' => replace q' with q; [replace q2' with q2; [exact Hr2|]|]
      end
    end.
    + unfold st. cbn [doc_bytes flat_map foldl length]. fold (doc_bytes es).
      unfold line_bytes. cbn [fst snd]. rewrite !length_app. cbn [length bytes list_ascii_of_string].
      f_equal; lia.
    + unfold st. f_equal. lia.
Qed.

Lemma foldl_put es : ∀ m0,
  NoDup es.*1 →
  foldl put m0 es = list_to_map (prod_map id value_of <$> es) ∪ m0.
Proof.
  induction es as [|[k g] es IH]; intros m0 Hnd.
  - cbn. by rewrite (left_id_L ∅ (∪)).
  - rewrite fmap_cons in Hnd. apply NoDup_cons in Hnd as [Hnk Hnd].
    cbn [foldl]. rewrite IH by done. unfold put. cbn [fst snd].
    rewrite fmap_cons.
    change (prod_map id value_of (k, g)) with (k, value_of g).
    rewrite list_to_map_cons.
    rewrite <- insert_union_l. rewrite insert_union_r; [done|].
    apply not_elem_of_list_to_map_1. rewrite <- list_fmap_compose.
    intros Hin. apply Hnk. rewrite list_elem_of_fmap in Hin |- *.
    destruct Hin as ([k' g'] & -> & Hin). by exists (k', g').
Qed.

(** *** The round trip *)

Lemma parse_lines es :
  flat_entries es → NoDup es.*1 →
  ∃ n, ∀ fuel, (n ≤ fuel)%nat →
    parse fuel (of_bytes (doc_bytes es))
    = Some (Tree (VTable false (list_to_map (prod_map id value_of <$> es)))).
Proof.
  intros Hes Hnd.
  destruct (run_lines es (-1) 0 1 (doc_bytes es) [] ∅ [] Hes Hnd)
    as (mk & bk & Hr); [done|by rewrite app_nil_r|].
  apply reach_loop in Hr as [n Hn]. exists (S n). intros fuel Hf.
  rewrite parse_verdict, bytes_of_bytes.
  replace fuel with (n + S (fuel - S n))%nat by lia.
  change (newParser (newTable false) (doc_bytes es))
    with (st (-1) 0 1 (doc_bytes es) [] ∅).
  rewrite Hn, loop_S.
  match goal with
  | |- context [turn ScanTop ?p] =>
    destruct (scanTop_eof p) as (p' & -> & Hr' & He' & _);
      [apply lookup_ge_None; cbn; lia|]
  end.
  destruct (fuel - S n)%nat; cbn [loop verdict]; rewrite He', Hr'; cbn [err root st];
    by rewrite foldl_put, (right_id_L ∅ (∪)).
Qed.

Lemma parse_blank fuel :
  parse (S (S fuel)) (of_bytes [lf]) = Some (Tree (VTable false ∅)).
Proof.
  rewrite parse_verdict, bytes_of_bytes, loop_S.
  erewrite (turn_Top_nl _ lf []); [|reflexivity..].
  rewrite loop_S.
  match goal with
  | |- context [turn ScanTop ?p] =>
    destruct (scanTop_eof p) as (p' & -> & Hr' & He' & _); [done|]
  end.
  destruct fuel; cbn [loop verdict]; by rewrite He', Hr'.
Qed.

Lemma value_of_Interface v : flat_value v → value_of (Interface v) = v.
Proof. by destruct v. Qed.

Lemma flat_go_Interface v : flat_value v → flat_go (Interface v).
Proof. by destruct v. Qed.

Lemma flat_table_entries (m : gmap string Value) es :
  (∀ k v, m !! k = Some v → bare_key k ∧ flat_value v) →
  es ≡ₚ map_to_list (Interface <$> m) →
  flat_entries es ∧ NoDup es.*1
  ∧ list_to_map (prod_map id value_of <$> es) = m.
Proof.
  intros Hm Hp. split_and!.
  - apply Forall_forall. intros [k g] Hin. rewrite Hp in Hin.
    apply elem_of_map_to_list in Hin. apply lookup_fmap_Some in Hin.
    destruct Hin as (v & <- & Hv). destruct (Hm k v Hv) as [Hk Hf].
    split; [done|]. by apply flat_go_Interface.
  - rewrite Hp. apply NoDup_fst_map_to_list.
  - assert (Hid : value_of <$> (Interface <$> m) = m).
    { rewrite <- map_fmap_compose. apply map_eq. intros k.
      rewrite lookup_fmap. destruct (m !! k) as [v|] eqn:E; [|done].
      cbn. f_equal. apply value_of_Interface. by destruct (Hm k v E). }
    etrans; [|exact Hid].
    rewrite <- (list_to_map_to_list (value_of <$> (Interface <$> m))).
    apply list_to_map_proper.
    + rewrite <- list_fmap_compose.
      assert (E : (fst ∘ prod_map id value_of : string * GoValue → string) = fst)
        by done.
      rewrite Hp. eapply NoDup_fmap_2_strong; [|apply NoDup_map_to_list].
      intros [k1 g1] [k2 g2] H1%elem_of_map_to_list H2%elem_of_map_to_list Hk.
      cbn in Hk. subst. rewrite H1 in H2. by injection H2 as ->.
    + rewrite Hp. by rewrite (map_to_list_fmap value_of).
Qed.

(** X1.  A table whose keys are non-empty bare keys and whose values
    are booleans, integers and strings of plain bytes: [Marshal] writes a
    line [key = value] for each entry, a string between double quotes, in
    whatever order the keys of the map are listed, and [parse] of these
    bytes, with enough fuel, returns the table. *)
Theorem X1_emit_parse_flat_table (m : gmap string Value)
    (es : list (string * GoValue)) :
  (∀ k v, m !! k = Some v → bare_key k ∧ flat_value v) →
  es ≡ₚ map_to_list (Interface <$> m) →
  (∀ f, Marshal (S f) (GoMap es) = Wrote tt (body "" es +:+ nl))
  ∧ ∃ n, ∀ fuel, (n ≤ fuel)%nat →
      parse fuel (body "" es +:+ nl) = Some (Tree (VTable false m)).
Proof.
  intros Hm Hp.
  destruct (flat_table_entries m es Hm Hp) as (Hes & Hnd & Hmap).
  split; [intros f; by apply Marshal_flat|].
  destruct es as [|[k g] es].
  - exists 2%nat. intros fuel Hf. cbn in Hmap. subst m.
    destruct fuel as [|[|fuel]]; [lia..|]. apply parse_blank.
  - destruct (parse_lines _ Hes Hnd) as [n Hn]. exists n.
    intros fuel Hf. rewrite <- Hmap, <- (Hn fuel Hf). f_equal.
    rewrite <- bytes_body_top. unfold of_bytes, bytes.
    by rewrite string_of_list_ascii_of_string.
Qed.

(** ** Arrays of tables *)

(** X2.  In the tree of every successful parse the root is a table that
    no header left implicit, and every open array, the array of tables of
    [[name]] headers, at any depth, is not empty and holds tables only. *)
Theorem X2_arrays_of_tables (fuel : nat) (data : string) (t : Value) :
  parse fuel data = Some (Tree t) →
  is_root t
  ∧ ∀ l, inside (VArray false l) t →
         l ≠ [] ∧ ∀ x, x ∈ l → ∃ im m, x = VTable im m.
Proof.
  intros Hp. apply parse_well_typed in Hp as [Hw Hr]. split; [done|].
  intros l Hin. apply (well_typed_inside _ _ Hw) in Hin.
  apply well_typed_array_inv in Hin as (_ & Hh & Hs).
  destruct (Hs eq_refl) as (y & Hy & Hty).
  split; [by intros ->|].
  intros x Hx. assert (Hyl : y ∈ l) by (by apply head_Some_elem_of).
  pose proof (Hh x y Hx Hyl) as E. rewrite Hty in E.
  destruct x; try done. eauto.
Qed.
(** ** Blank lines, and the line and offset of an error *)

Lemma turn_Top_space p c t :
  drop (pos p) (input p) = c :: t → isSpace (chr c) = true →
  turn ScanTop p = Ret (Some ScanTop) (set_pos (pos p + 1) [1%nat] p).
Proof.
  intros Hd%drop_lookup Hc.
  destruct p as [mk ps ln inp bk rt ev ks nm sp nu sc er]. cbn in *.
  unfold scanTop. unfold_turn. cbn. rewrite Hd. cbn. rewrite Hc. fin.
Qed.

Lemma steps_turn n s p s1 p1 :
  turn s p = Ret (Some s1) p1 → steps (S n) s p = steps n s1 p1.
Proof. intros Ht. cbn [steps]. by rewrite Ht. Qed.

Lemma line_feeds_cons c cs :
  line_feeds (c :: cs)
  = ((if decide (c = lf) then 1 else 0) + line_feeds cs)%nat.
Proof. unfold line_feeds. rewrite filter_cons. by destruct (decide (c = lf)). Qed.

(** [scanTop] over blank bytes: the cursor moves over them and the line
    counter counts the line feeds. *)
Lemma run_blank ws : ∀ p rest,
  Forall blank ws → drop (pos p) (input p) = (ws ++ rest)%list →
  ∃ bk, steps (length ws) ScanTop p
        = Some (Some ScanTop,
                set_line (line p + Z.of_nat (line_feeds ws))
                  (set_pos (pos p + length ws) bk p)).
Proof.
  induction ws as [|c ws IH]; intros p rest Hws Hd.
  - exists (backups p). destruct p. cbn [steps length line_feeds filter]. flat.
    do 3 f_equal; cbn; lia.
  - inversion Hws as [|? ? Hc Hws']; subst. cbn [app] in Hd.
    pose proof (drop_next _ _ _ _ Hd) as Hd'.
    cbn [length]. rewrite line_feeds_cons.
    destruct Hc as [->|[->| ->]].
    + erewrite steps_turn by (by eapply turn_Top_space).
      edestruct (IH (set_pos (pos p + 1) [1%nat] p)) as [bk ->]; [done| |].
      { destruct p; flat. rewrite Nat.add_1_r. exact Hd'. }
      exists bk. destruct p; flat. rewrite decide_False by done.
      do 3 f_equal; lia.
    + erewrite steps_turn by (by eapply turn_Top_space).
      edestruct (IH (set_pos (pos p + 1) [1%nat] p)) as [bk ->]; [done| |].
      { destruct p; flat. rewrite Nat.add_1_r. exact Hd'. }
      exists bk. destruct p; flat. rewrite decide_False by done.
      do 3 f_equal; lia.
    + erewrite steps_turn by (by eapply turn_Top_nl).
      edestruct (IH (set_line (line p + 1) (set_pos (pos p + 1) [1%nat] p)))
        as [bk ->]; [done| |].
      { destruct p; flat. rewrite Nat.add_1_r. exact Hd'. }
      exists bk. destruct p; flat. rewrite decide_True by done.
      do 3 f_equal; lia.
Qed.

(** X3.  A document of spaces, tabs and line feeds only, the empty
    document among them, is the empty table. *)
Theorem X3_blank_document (ws : list ascii) (f : nat) :
  Forall blank ws →
  parse (S (length ws) + f) (of_bytes ws) = Some (Tree (VTable false ∅)).
Proof.
  intros Hws. rewrite parse_verdict, bytes_of_bytes.
  destruct (run_blank ws (newParser (newTable false) ws) [] Hws) as [bk Hs].
  { by rewrite app_nil_r. }
  replace (S (length ws) + f)%nat with (length ws + S f)%nat by lia.
  rewrite (steps_loop _ _ _ _ _ _ Hs), loop_S.
  match goal with
  | |- context [turn ScanTop ?p] =>
    destruct (scanTop_eof p) as (p' & -> & Hr' & He' & _);
      [apply lookup_ge_None; cbn; lia|]
  end.
  destruct f; cbn [loop verdict]; by rewrite He', Hr'.
Qed.

Lemma turn_Top_assign p c t :
  drop (pos p) (input p) = c :: t → chr c = 61 →
  turn ScanTop p
  = Ret (Some ScanTableField)
        (set_scanners (ScanTopEnd :: scanners p) (set_pos (pos p) [] p)).
Proof.
  intros Hd%drop_lookup Hc.
  destruct p as [mk ps ln inp bk rt ev ks nm sp nu sc er]. cbn in *.
  unfold scanTop, skipNewline. unfold_turn. cbn. rewrite Hd. cbn. tests. fin.
Qed.

Lemma turn_TableField_assign p c t :
  drop (pos p) (input p) = c :: t → chr c = 61 →
  turn ScanTableField p
  = Ret None
        (set_err (Some (mkParseError (line p) (pos p + 1)
                          (Errorf "key must be non-empty" [])))
           (set_pos (pos p + 1) [1%nat] p)).
Proof.
  intros Hd%drop_lookup Hc.
  destruct p as [mk ps ln inp bk rt ev ks nm sp nu sc er]. cbn in *.
  unfold scanTableField, errorScanner, errorf. unfold_turn. cbn. rewrite Hd.
  cbn. tests. fin.
Qed.

(** X4.  A field with no key after blank bytes: the error is
    [key must be non-empty], its line is one more than the number of line
    feeds before the [=], and its offset is the one after the [=]. *)
Theorem X4_empty_key_position (ws rest : list ascii) (f : nat) :
  Forall blank ws →
  parse (S (S (length ws)) + f) (of_bytes (ws ++ "="%char :: rest))
  = Some (Failure (mkParseError (1 + Z.of_nat (line_feeds ws))
                     (S (length ws))
                     (Errorf "key must be non-empty" []))).
Proof.
  intros Hws. rewrite parse_verdict, bytes_of_bytes.
  destruct (run_blank ws (newParser (newTable false) (ws ++ "="%char :: rest))
              ("="%char :: rest) Hws) as [bk Hs]; [done|].
  replace (S (S (length ws)) + f)%nat with (length ws + S (S f))%nat by lia.
  rewrite (steps_loop _ _ _ _ _ _ Hs).
  assert (Hd : drop (0 + length ws) (ws ++ "="%char :: rest) = "="%char :: rest)
    by apply drop_app_length.
  erewrite loop_turn.
  2:{ etrans; [eapply (turn_Top_assign _ "="%char rest); [exact Hd|done]|].
      flat. reflexivity. }
  erewrite loop_turn.
  2:{ etrans; [eapply (turn_TableField_assign _ "="%char rest); [exact Hd|done]|].
      flat. reflexivity. }
  destruct f; cbn [loop verdict err]; do 3 f_equal; lia.
Qed.
(** ** A key defined twice *)

Lemma turn_BareKey_defined p c t (a : nat) (k : string) im m pth v :
  drop (pos p) (input p) = c :: t → chr c = 32 ∨ chr c = 61 →
  mark p = Z.of_nat a → drop a (input p) = (bytes k ++ c :: t)%list →
  pos p = (a + length (bytes k))%nat →
  envs p = [mkEnvironment (InRoot []) pth] → root p = VTable im m →
  m !! k = Some v →
  ∃ p', turn ScanBareKey p = Ret None p'
        ∧ err p' = Some (mkParseError (line p) (pos p + 1)
                           (Errorf "table %s has key %s defined as %s"
                              [ArgS pth; ArgS (normalizeKey k); ArgS (Type_ v)])).
Proof.
  intros Hd Hc Hm Hk Hp He Hr Hn.
  unfold turn, clearBackups, modify. unfold bind at 1.
  change (call ScanBareKey) with scanBareKey. unfold scanBareKey.
  unfold bind at 1.
  erewrite readByte_tail by exact Hd. cbn [last_step]. cbv beta iota.
  destruct p as [mk ps ln inp bk rt ev ks nm sp nu sc' er]. cbn in *. subst.
  destruct Hc as [Hc|Hc]; tests; unfold bind at 1;
    (erewrite (slice_run _ (-1) a (bytes k) c t); [|reflexivity|exact Hk|flat; lia]);
    unfold of_bytes, bytes; rewrite string_of_list_ascii_of_string;
    unfold pushScanner, pushTableKey, topEnv, deref, errorScanner, errorf;
    unfold bind, modify, popScanner, ret; flat; cbn [env path get_at];
    rewrite Hn; eexists; (split; [reflexivity|]); flat; reflexivity.
Qed.

Lemma foldl_put_lookup es k g :
  NoDup es.*1 → (k, g) ∈ es → foldl put ∅ es !! k = Some (value_of g).
Proof.
  intros Hnd Hin. rewrite foldl_put by done.
  rewrite (right_id_L ∅ (∪)). apply elem_of_list_to_map.
  - rewrite <- list_fmap_compose.
    assert (E : (fst ∘ prod_map id value_of : string * GoValue → string) = fst)
      by done.
    by rewrite E.
  - apply list_elem_of_fmap. by exists (k, g).
Qed.

(** X5.  After the fields of a flat table, a field whose key is one of
    theirs: the error names the key and the type of the value it has, and
    carries the line of the second occurrence and the offset after the
    byte that ends the key, a space or the [=]. *)
Theorem X5_key_defined_twice (es : list (string * GoValue)) (k : string)
    (g : GoValue) (c : ascii) (rest : list ascii) :
  flat_entries es → NoDup es.*1 → (k, g) ∈ es → chr c = 32 ∨ chr c = 61 →
  ∃ n, ∀ fuel, (n ≤ fuel)%nat →
    parse fuel (of_bytes (doc_bytes es ++ bytes k ++ c :: rest))
    = Some (Failure
        (mkParseError (1 + Z.of_nat (length es))
           (length (doc_bytes es) + length (bytes k) + 1)
           (Errorf "table %s has key %s defined as %s"
              [ArgS ""; ArgS k; ArgS (Type_ (value_of g))]))).
Proof.
  intros Hes Hnd Hin Hc.
  assert (Hk : bare_key k).
  { unfold flat_entries in Hes. rewrite Forall_forall in Hes.
    by destruct (Hes _ Hin). }
  destruct (bare_key_bytes k Hk) as (c0 & cs & Ek & Hall).
  inversion Hall as [|? ? Hc0 Hcs]; subst.
  set (inp := (doc_bytes es ++ bytes k ++ c :: rest)%list).
  assert (Hd : drop 0 inp = (doc_bytes es ++ (bytes k ++ c :: rest))%list) by done.
  destruct (run_lines es (-1) 0 1 inp [] ∅ _ Hes Hnd ltac:(done) Hd)
    as (mk & bk & Hr).
  apply drop_after in Hd. pose proof Hd as Hd0. rewrite Ek in Hd0.
  cbn [app] in Hd0. pose proof (drop_next _ _ _ _ Hd0) as Hd1.
  pose proof (drop_after _ _ _ _ Hd) as Hd2.
  set (L := length (doc_bytes es)) in *.
  set (p2 := {| mark := Z.of_nat (0 + L + 1) + -1; pos := 0 + L + 1;
                line := 1 + Z.of_nat (length es); input := inp;
                backups := [1%nat]; root := VTable false (foldl put ∅ es);
                envs := [mkEnvironment (InRoot []) ""]; keys := [];
                names := []; strparts := []; num := numParser_reset;
                scanners := [ScanTopEnd]; err := None |}).
  destruct (run_loop ScanBareKey (λ d, isBareKeyChar (chr d) = true)
              turn_BareKey_bare cs p2 (c :: rest) Hcs) as [bk1 Hrun].
  { subst p2. flat. eapply drop_at; [exact Hd1|]. lia. }
  subst p2. flat_in Hrun.
  match type of Hrun with
  | reach _ _ _ ?q =>
    edestruct (turn_BareKey_defined q c rest (0 + L) k false
                 (foldl put ∅ es) "" (value_of g))
      as (p' & Ht & He); flat; try reflexivity
  end.
  { eapply drop_at; [exact Hd2|]. rewrite Ek. cbn [length]. lia. }
  { done. }
  { lia. }
  { exact Hd. }
  { rewrite Ek. cbn [length]. lia. }
  { by apply foldl_put_lookup. }
  match type of Hrun with
  | reach _ _ _ ?q =>
    assert (Hreach : reach ScanTop (st (-1) 0 1 inp [] ∅) ScanBareKey q)
  end.
  { eapply reach_trans; [exact Hr|]. unfold st.
    eapply reach_turn.
    { etrans; [eapply (turn_Top_field _ c0); [exact Hd0|exact Hc0]|].
      flat. reflexivity. }
    eapply reach_turn.
    { etrans; [eapply (turn_TableField_bare _ c0); [exact Hd0|exact Hc0]|].
      flat. reflexivity. }
    exact Hrun. }
  apply reach_loop in Hreach as [n Hn]. exists (S n). intros fuel Hf.
  rewrite parse_verdict, bytes_of_bytes.
  replace fuel with (n + S (fuel - S n))%nat by lia.
  change (newParser (newTable false) inp) with (st (-1) 0 1 inp [] ∅).
  rewrite Hn, loop_S, Ht.
  cbn [line pos] in He.
  destruct (fuel - S n)%nat; cbn [loop verdict]; rewrite He;
    rewrite (normalizeKey_bare k Hk), Ek; cbn [length];
    do 3 f_equal; lia.
Qed.
(** ** Headers that meet what is defined *)

Lemma table_twice_one (p : parser) (a : string) :
  match define_table [a] p with
  | Ret _ p1 =>
    define_table [a] p1
    = Raise (mkParseError (line p1) (pos p1)
               (Errorf "table %s was defined twice" [ArgS (normalizeKey a)]))
  | _ => True
  end.
Proof.
  unfold define_table, scanTableEnd, errorf.
  destruct p as [mk ps ln inp bk rt ev ks nm sp nu sc er].
  go. destruct rt as [| | | | | |im m]; go; try done.
  destruct (m !! a) as [[| | | | |ca la|ia ma]|] eqn:Ha; go; try done.
  all: crush.
Qed.

Lemma table_twice_two (p : parser) (a b : string) :
  match define_table [a; b] p with
  | Ret _ p1 =>
    ∃ path, define_table [a; b] p1
            = Raise (mkParseError (line p1) (pos p1)
                       (Errorf "table %s was defined twice" [ArgS path]))
  | _ => True
  end.
Proof.
  unfold define_table, scanTableEnd, errorf.
  destruct p as [mk ps ln inp bk rt ev ks nm sp nu sc er].
  go. destruct rt as [| | | | | |im m]; go; try done.
  destruct (m !! a) as [[| | | | |ca la|ia ma]|] eqn:Ha; go; try done.
  all: crush; eexists; crush.
Qed.

(** X6.  A header [[a]] or [[a.b]] that has been resolved, on any tree,
    cannot be resolved again: the second is the error
    [table ... was defined twice], at the parser's line and offset. *)
Theorem X6_table_defined_twice (p p1 : parser) (a b : string) (r : option scanner) :
  (define_table [a] p = Ret r p1 →
   define_table [a] p1
   = Raise (mkParseError (line p1) (pos p1)
              (Errorf "table %s was defined twice" [ArgS (normalizeKey a)])))
  ∧ (define_table [a; b] p = Ret r p1 →
     ∃ path, define_table [a; b] p1
             = Raise (mkParseError (line p1) (pos p1)
                        (Errorf "table %s was defined twice" [ArgS path]))).
Proof.
  split; intros E.
  - pose proof (table_twice_one p a) as Ht. by rewrite E in Ht.
  - pose proof (table_twice_two p a b) as Ht. by rewrite E in Ht.
Qed.
(** X7.  On a root table without the key [a], the header [[a.b]] makes
    [a] an implicit table holding the table [b]; the header [[a]] after it
    is accepted, and makes [a] explicit with [b] kept. *)
Theorem X7_implicit_made_explicit (p : parser) (im : bool)
    (m : gmap string Value) (a b : string) :
  root p = VTable im m → m !! a = None → err p = None →
  tree_after (define_table [a; b]) p
  = Some (VTable im (<[a := VTable true {[b := VTable false ∅]}]> m))
  ∧ tree_after (bind (define_table [a; b]) (λ _, define_table [a])) p
    = Some (VTable im (<[a := VTable false {[b := VTable false ∅]}]> m)).
Proof.
  destruct p as [mk ps ln inp bk rt ev ks nm sp nu sc er]. cbn.
  intros -> Ha ->.
  unfold tree_after, define_table, scanTableEnd. split; crush;
    by rewrite ?insert_empty.
Qed.

Lemma define_array_next (p : parser) im m a l :
  root p = VTable im m → m !! a = Some (VArray false l) →
  define_array [a] p
  = Ret (Some ScanTopEnd)
      (set_envs [mkEnvironment (InRoot [AtIndex a (length l)]) (normalizeKey a)]
         (set_root (VTable im (<[a := VArray false (l ++ [VTable false ∅])]> m))
            (set_names [a] p))).
Proof.
  destruct p as [mk ps ln inp bk rt ev ks nm sp nu sc er]. cbn.
  intros -> Ha. unfold define_array, scanArrayTableEnd.
  unfold createTableArray. crush.
Qed.

Lemma define_array_first (p : parser) im m a :
  root p = VTable im m → m !! a = None →
  define_array [a] p
  = Ret (Some ScanTopEnd)
      (set_envs [mkEnvironment (InRoot [AtIndex a 0%nat]) (normalizeKey a)]
         (set_root (VTable im (<[a := VArray false [VTable false ∅]]> m))
            (set_names [a] p))).
Proof.
  destruct p as [mk ps ln inp bk rt ev ks nm sp nu sc er]. cbn.
  intros -> Ha. unfold define_array, scanArrayTableEnd.
  unfold createTableArray. crush.
Qed.

Lemma iterate_define_array n : ∀ p im m a l,
  root p = VTable im m → m !! a = Some (VArray false l) → err p = None →
  tree_after (iterate n (define_array [a])) p
  = Some (VTable im (<[a := VArray false (l ++ replicate n (VTable false ∅))]> m)).
Proof.
  induction n as [|n IH]; intros p im m a l Hr Ha He.
  - unfold tree_after. cbn [iterate]. unfold ret. rewrite He, Hr.
    cbn [replicate]. by rewrite app_nil_r, insert_id.
  - cbn [iterate]. unfold tree_after, bind.
    rewrite (define_array_next p im m a l Hr Ha).
    match goal with
    | |- context [iterate n _ ?q] =>
      specialize (IH q im (<[a := VArray false (l ++ [VTable false ∅])%list]> m) a
                    (l ++ [VTable false ∅])%list)
    end.
    unfold tree_after in IH. rewrite IH.
    + rewrite insert_insert_eq. cbn [replicate]. by rewrite <- app_assoc.
    + by destruct p.
    + apply lookup_insert_eq.
    + by destruct p.
Qed.

(** X8.  On a root table without the key [a], [n + 1] headers [[[a]]]
    in a row make [a] the open array of [n + 1] empty tables: each header
    appends one. *)
Theorem X8_array_of_tables_appends (n : nat) (p : parser) (im : bool)
    (m : gmap string Value) (a : string) :
  root p = VTable im m → m !! a = None → err p = None →
  tree_after (iterate (S n) (define_array [a])) p
  = Some (VTable im (<[a := VArray false (replicate (S n) (VTable false ∅))]> m)).
Proof.
  intros Hr Ha He. cbn [iterate]. unfold tree_after, bind.
  rewrite (define_array_first p im m a Hr Ha).
  match goal with
  | |- context [iterate n _ ?q] =>
    pose proof (iterate_define_array n q im
                  (<[a := VArray false [VTable false ∅]]> m) a [VTable false ∅])
      as IH
  end.
  unfold tree_after in IH. rewrite IH.
  - by rewrite insert_insert_eq.
  - by destruct p.
  - apply lookup_insert_eq.
  - by destruct p.
Qed.

Lemma table_then_array (p : parser) (a : string) :
  match define_table [a] p with
  | Ret _ p1 =>
    define_array [a] p1
    = Raise (mkParseError (line p1) (pos p1)
               (Errorf "%s was defined as %s" [ArgS (normalizeKey a); ArgS "table"]))
  | _ => True
  end.
Proof.
  unfold define_table, define_array, scanTableEnd, scanArrayTableEnd, errorf.
  unfold createTableArray.
  destruct p as [mk ps ln inp bk rt ev ks nm sp nu sc er].
  go. destruct rt as [| | | | | |im m]; go; try done.
  destruct (m !! a) as [[| | | | |ca la|ia ma]|] eqn:Ha; go; try done.
  all: crush.
Qed.

Lemma array_then_table (p : parser) (a : string) :
  match define_array [a] p with
  | Ret _ p1 =>
    define_table [a] p1
    = Raise (mkParseError (line p1) (pos p1)
               (Errorf "%s was defined as %s" [ArgS (normalizeKey a); ArgS "array"]))
  | _ => True
  end.
Proof.
  unfold define_table, define_array, scanTableEnd, scanArrayTableEnd, errorf.
  unfold createTableArray.
  destruct p as [mk ps ln inp bk rt ev ks nm sp nu sc er].
  go. destruct rt as [| | | | | |im m]; go; try done.
  destruct (m !! a) as [[| | | | |ca la|ia ma]|] eqn:Ha; go; try done.
  all: crush.
Qed.

(** X9.  A name cannot be both a table and an array of tables: after a
    header [[a]] has been resolved, [[[a]]] is the error
    [a was defined as table], and after [[[a]]], [[a]] is the error
    [a was defined as array]; this on any tree. *)
Theorem X9_table_or_array (p p1 : parser) (a : string) (r : option scanner) :
  (define_table [a] p = Ret r p1 →
   define_array [a] p1
   = Raise (mkParseError (line p1) (pos p1)
              (Errorf "%s was defined as %s" [ArgS (normalizeKey a); ArgS "table"])))
  ∧ (define_array [a] p = Ret r p1 →
     define_table [a] p1
     = Raise (mkParseError (line p1) (pos p1)
                (Errorf "%s was defined as %s" [ArgS (normalizeKey a); ArgS "array"]))).
Proof.
  split; intros E.
  - pose proof (table_then_array p a) as Ht. by rewrite E in Ht.
  - pose proof (array_then_table p a) as Ht. by rewrite E in Ht.
Qed.
(** ** The emitter on arrays of mixed types *)

Lemma marshalArrayValue_step f path elems options :
  marshalArrayValue (S f) path elems options
  = wbind (WriteString "[") (λ _,
    wbind (wfold (array_step f path options) elems (" ", "", 0%nat)) (λ _,
    wbind (WriteString " ]") (λ _, wret "array"))).
Proof. reflexivity. Qed.

Lemma kind_of_plain g : plain_go g → kind_of g ≠ "".
Proof. by destruct g. Qed.

Lemma array_step_plain f path sep ty i g buf :
  plain_go g → ty = "" ∨ ty = kind_of g →
  ∃ buf', array_step f path None (sep, ty, i) g buf
          = Wrote (", ", kind_of g, S i) buf'.
Proof.
  intros Hg Hty. destruct g; try done; cbn [array_step kind_of];
    unfold wbind, WriteString, check, marshalBoolValue, marshalIntValue,
      marshalRawValue; cbn [Has orb];
    (destruct Hty as [->| ->]; cbn [String.eqb Ascii.eqb Bool.eqb negb];
     [|rewrite ?String.eqb_refl; cbn [negb]]); eexists; reflexivity.
Qed.

Lemma array_step_mismatch f path sep ty i g buf :
  plain_go g → ty ≠ "" → ty ≠ kind_of g →
  array_step f path None (sep, ty, i) g buf
  = Failed (MarshalArrayError ty (kind_of g)).
Proof.
  intros Hg Hne Hty.
  assert (E1 : String.eqb ty "" = false) by (by apply String.eqb_neq).
  assert (E2 : String.eqb ty (kind_of g) = false) by (by apply String.eqb_neq).
  destruct g; try done; cbn [array_step kind_of] in *;
    unfold wbind, WriteString, check; rewrite E1, E2; reflexivity.
Qed.

Lemma wfold_plain f path xs : ∀ κ sep ty i buf,
  Forall (λ x, plain_go x ∧ kind_of x = κ) xs → ty = "" ∨ ty = κ →
  ∃ sep' ty' buf',
    wfold (array_step f path None) xs (sep, ty, i) buf
    = Wrote (sep', ty', (i + length xs)%nat) buf'
    ∧ (ty' = ty ∧ xs = [] ∨ ty' = κ).
Proof.
  induction xs as [|x xs IH]; intros κ sep ty i buf Hxs Hty.
  - exists sep, ty, buf. cbn [wfold length]. unfold wret.
    rewrite Nat.add_0_r. split; [done|by left].
  - inversion Hxs as [|? ? [Hx Hk] Hxs']; subst. cbn [wfold length].
    unfold wbind at 1.
    destruct (array_step_plain f path sep ty i x buf Hx Hty) as [buf1 ->].
    destruct (IH (kind_of x) ", " (kind_of x) (S i) buf1 Hxs') as
      (sep' & ty' & buf' & -> & Hty'); [by right|].
    exists sep', ty', buf'. split; [f_equal; f_equal; lia|].
    right. by destruct Hty' as [[-> _]| ->].
Qed.

Lemma wfold_app {A S} (g : S → A → W S) l1 : ∀ l2 s0 b,
  wfold g (l1 ++ l2) s0 b
  = match wfold g l1 s0 b with
    | Wrote s1 b1 => wfold g l2 s1 b1
    | Failed e => Failed e
    | Aborted => Aborted
    | Starved => Starved
    end.
Proof.
  induction l1 as [|a l1 IH]; intros l2 s0 b; [done|].
  cbn [wfold app]. unfold wbind. destruct (g s0 a b); [apply IH|done..].
Qed.

(** X10.  An array field whose elements are booleans and integers: when
    an element has another type than the ones before it, [Marshal] fails
    with [MarshalArrayError], naming the type of the first elements and
    the type met; nothing after that element is looked at. *)
Theorem X10_array_of_mixed_types (f : nat) (k : string)
    (x : GoValue) (xs : list GoValue) (y : GoValue) (rest : list GoValue)
    (es : list (string * GoValue)) :
  plain_go x → Forall (λ z, plain_go z ∧ kind_of z = kind_of x) xs →
  plain_go y → kind_of y ≠ kind_of x →
  Marshal (S (S f)) (GoMap ((k, GoSlice (x :: xs ++ y :: rest)) :: es))
  = Failed (MarshalArrayError (kind_of x) (kind_of y)).
Proof.
  intros Hx Hxs Hy Hk. unfold Marshal. cbn [marshalMap].
  unfold wbind at 1. unfold wbind at 1. cbn [wfold]. unfold wbind at 1.
  assert (Ht : textMarshaler x = false ∧ isTableType x = false)
    by (by destruct x).
  destruct Ht as [Ht1 Ht2].
  cbn [marshalTableField Has andb app].
  rewrite Ht1, Ht2. cbn [negb andb].
  unfold marshalField, recordKey. cbn [tkeys]. unfold wbind at 1, wret at 1.
  destruct (fieldSep _) as [s t]. unfold wbind at 1.
  unfold WriteSepKeyAssign. unfold wbind at 1 2 3. unfold WriteString at 1 2 3.
  unfold wbind at 1 2. rewrite marshalArrayValue_step.
  unfold wbind at 1. unfold WriteString at 1. unfold wbind at 1.
  change (x :: (xs ++ y :: rest))%list with ((x :: xs) ++ y :: rest)%list.
  rewrite wfold_app.
  match goal with
  | |- context [wfold (array_step f ?pth None) (x :: xs) _ ?b] =>
    destruct (wfold_plain f pth (x :: xs) (kind_of x) " " "" 0%nat b)
      as (sep' & ty' & buf' & -> & Hty); [by constructor|by left|]
  end.
  destruct Hty as [[_ ?]| ->]; [done|].
  cbn [wfold]. unfold wbind at 1.
  rewrite array_step_mismatch; [done|done|by apply kind_of_plain|done].
Qed.
(** ** The emitter on a table inside a table *)

Lemma marshalTableField_fields f il pth s0 ts k g buf :
  bare_key k → flat_go g → s0 = "" ∨ s0 = nl →
  marshalTableField (S f) (mkTable il pth s0 None ts) k g None buf
  = Wrote (mkTable il pth nl None ts)
          (buf +:+ (s0 +:+ k +:+ " = " +:+ text_of g)).
Proof.
  intros Hk Hg Hs. destruct nl_sep as [Hn1 Hn2].
  assert (Hsep : fieldSep (mkTable il pth s0 None ts)
                 = (s0, mkTable il pth nl None ts)).
  { unfold fieldSep. cbn [sep Inline Path tkeys tables].
    destruct Hs as [->| ->]; [done|]. by rewrite Hn1, Hn2. }
  destruct g as [b|i| |s| | |]; try done; cbn [marshalTableField Has andb];
    unfold marshalField, recordKey; cbn [tkeys]; unfold wbind at 1, wret at 1;
    rewrite Hsep; unfold WriteSepKeyAssign, marshalBoolValue, marshalIntValue,
      marshalRawValue, marshalStringValue, marshalBasicString;
    cbn [Has orb andb text_of flat_go] in *;
    try rewrite (quoteBasic_plain s Hg);
    unfold wbind, WriteString, wret;
    rewrite (normalizeKey_bare k Hk), !append_assoc; reflexivity.
Qed.

Lemma wfold_fields f il pth ts es : ∀ s0 buf,
  flat_entries es → s0 = "" ∨ s0 = nl →
  wfold (λ t '(k, v), marshalTableField (S f) t k v None) es
    (mkTable il pth s0 None ts) buf
  = Wrote (mkTable il pth (next_sep s0 es) None ts) (buf +:+ body s0 es).
Proof.
  induction es as [|[k g] es IH]; intros s0 buf Hes Hs.
  - cbn [wfold body next_sep]. unfold wret. by rewrite append_empty.
  - inversion Hes as [|? ? [Hk Hg] Hes']; subst. cbn [fst snd] in *.
    cbn [wfold]. unfold wbind.
    rewrite marshalTableField_fields by done.
    rewrite IH; [|done|by right]. cbn [body next_sep].
    rewrite !append_assoc. by destruct es.
Qed.

Lemma body_app es1 : ∀ s0 es2,
  body s0 (es1 ++ es2) = body s0 es1 +:+ body (next_sep s0 es1) es2.
Proof.
  induction es1 as [|[k g] es1 IH]; intros s0 es2; [done|].
  cbn [app body next_sep]. rewrite IH, !append_assoc.
  by destruct es1.
Qed.

Lemma marshalTableField_table f pth s0 ts a es buf :
  marshalTableField (S f) (mkTable false pth s0 None ts) a (GoMap es) None buf
  = Wrote (mkTable false pth s0 None (ts ++ [mkField a (GoMap es)])) buf.
Proof. reflexivity. Qed.

Lemma marshalMap_step f pth es :
  marshalMap (S f) pth es
  = wbind (wfold (λ t '(k, v), marshalTableField (S f) t k v None) es
             (mkTable false pth (if String.eqb pth "" then "" else nl) None []))
      (λ t, wbind (wfold (tables_step f) (tables t) t) (λ _, wret tt)).
Proof. reflexivity. Qed.

Lemma marshalMap_fields f pth es buf :
  flat_entries es →
  marshalMap (S f) pth es buf
  = Wrote tt (buf +:+ body (if String.eqb pth "" then "" else nl) es).
Proof.
  intros Hes. rewrite marshalMap_step. unfold wbind at 1. unfold wbind at 1.
  rewrite wfold_fields; [|done|by destruct (String.eqb pth ""); [left|right]].
  cbn [tables wfold]. reflexivity.
Qed.

(** X11.  A table [a] among the scalar fields of the root table: the
    fields are written first, whatever the place of [a] among the keys,
    then, after an empty line when there are fields, the header [[a]] and
    the fields of [a]. *)
Theorem X11_table_after_fields (f : nat) (a : string)
    (rs1 rs2 es : list (string * GoValue)) :
  bare_key a → flat_entries rs1 → flat_entries rs2 → flat_entries es →
  Marshal (S (S f)) (GoMap (rs1 ++ (a, GoMap es) :: rs2))
  = Wrote tt (body "" (rs1 ++ rs2)
              +:+ (match (rs1 ++ rs2)%list with [] => "" | _ => nl +:+ nl end)
              +:+ "[" +:+ a +:+ "]" +:+ body nl es +:+ nl).
Proof.
  intros Ha H1 H2 Hes. unfold Marshal. rewrite marshalMap_step.
  unfold wbind at 1. unfold wbind at 1. cbn [String.eqb].
  rewrite wfold_app. rewrite wfold_fields; [|done|by left].
  cbn [wfold]. unfold wbind at 1.
  rewrite marshalTableField_table. cbn [app].
  rewrite wfold_fields; [|done|destruct rs1; [by left|by right]].
  cbn [tables wfold]. unfold wbind at 1. unfold tables_step.
  unfold tableSep. cbn [sep Inline Path tkeys tables key value].
  unfold combineKeyPath. cbn [String.eqb]. rewrite (normalizeKey_bare a Ha).
  destruct nl_sep as [Hn1 Hn2].
  assert (Ea : String.eqb a "" = false).
  { apply String.eqb_neq. by destruct Ha. }
  assert (Hsep : next_sep (next_sep "" rs1) rs2
                 = match (rs1 ++ rs2)%list with [] => "" | _ => nl end).
  { by destruct rs1, rs2. }
  rewrite Hsep, body_app.
  destruct (rs1 ++ rs2)%list eqn:E.
  - apply app_eq_nil in E as [-> ->]. cbn [String.eqb body next_sep].
    unfold wbind at 1. unfold wbind at 1. unfold WriteString at 1.
    unfold wbind at 1. rewrite marshalMap_fields by done. rewrite Ea.
    unfold wbind, wret, WriteString.
    by rewrite !append_assoc.
  - rewrite Hn1.
    unfold wbind at 1. unfold wbind at 1. unfold WriteString at 1.
    unfold wbind at 1. rewrite marshalMap_fields by done. rewrite Ea.
    unfold wbind, wret, WriteString.
    by rewrite !append_assoc.
Qed.

(** ** The turns of the loop are bounded *)

Lemma rank_le s p : (rank s p ≤ weight s)%nat.
Proof. destruct s; cbn; try lia. case_decide; lia. Qed.

Lemma quiet_ret {A} (a : A) : quiet (ret a).
Proof. intros p a' p' [= <- <-]. done. Qed.

Lemma quiet_get {A} (f : parser → A) : quiet (get f).
Proof. intros p a' p' [= <- <-]. done. Qed.

Lemma quiet_crash {A} : quiet (crash (A := A)).
Proof. by intros p a p'. Qed.

Lemma quiet_raise {A} e : quiet (raise (A := A) e).
Proof. by intros p a p'. Qed.

Lemma quiet_bind {A B} (m : M A) (k : A → M B) :
  quiet m → (∀ a, quiet (k a)) → quiet (bind m k).
Proof.
  intros Hm Hk p b p'. unfold bind.
  destruct (m p) as [a p1| |] eqn:E; [|done..]. intros Hb.
  destruct (Hm _ _ _ E) as (? & ? & ? & ?).
  destruct (Hk _ _ _ _ Hb) as (? & ? & ? & ?). split_and!; congruence.
Qed.

Lemma quiet_modify (f : parser → parser) :
  (∀ p, input (f p) = input p ∧ pos (f p) = pos p
        ∧ backups (f p) = backups p ∧ scanners (f p) = scanners p) →
  quiet (modify f).
Proof. intros Hf p a p' [= _ <-]. apply Hf. Qed.

Ltac quiet_step :=
  first
    [ apply quiet_ret | apply quiet_get | apply quiet_crash | apply quiet_raise
    | apply quiet_modify; intros ?; done
    | apply quiet_bind; [|intros ?]
    | match goal with
      | |- quiet (if ?b then _ else _) => destruct b
      | |- quiet (match ?x with _ => _ end) => destruct x
      | |- quiet (let '(_, _) := ?x in _) => destruct x
      end ].

Ltac quiet_auto := repeat quiet_step; eauto.

Ltac quiet_brute :=
  intros ? ? ?; cbv [bind ret modify get]; cbv zeta;
  repeat case_match; intros; simplify_eq/=; done.

Lemma quiet_topEnv : quiet topEnv.
Proof. unfold topEnv. quiet_brute. Qed.

Lemma quiet_deref e : quiet (deref e).
Proof. unfold deref. quiet_brute. Qed.

Lemma quiet_store_top v : quiet (store_top v).
Proof. unfold store_top. quiet_brute. Qed.

Lemma quiet_topTableKey : quiet topTableKey.
Proof. unfold topTableKey. quiet_brute. Qed.

Lemma quiet_popTableKey : quiet popTableKey.
Proof. unfold popTableKey. quiet_brute. Qed.

Lemma quiet_pushEnv v : quiet (pushEnv v).
Proof.
  unfold pushEnv. quiet_auto;
    first [apply quiet_topEnv | apply quiet_deref | apply quiet_topTableKey].
Qed.

Lemma quiet_popEnv : quiet popEnv.
Proof. unfold popEnv. quiet_brute. Qed.

Lemma quiet_elems_at way : quiet (elems_at way).
Proof. unfold elems_at. quiet_brute. Qed.

Lemma quiet_store_at way v : quiet (store_at way v).
Proof. unfold store_at. quiet_auto. Qed.

Lemma quiet_resetEnv way path : quiet (resetEnv way path).
Proof. unfold resetEnv. quiet_auto. Qed.

Lemma quiet_slice o : quiet (slice o).
Proof. unfold slice. quiet_brute. Qed.

Lemma quiet_str_push s : quiet (str_push s).
Proof. unfold str_push. quiet_auto. Qed.

Lemma quiet_str_join : quiet str_join.
Proof. unfold str_join. quiet_auto. Qed.

Lemma quiet_locateTable_loop names : ∀ way path,
  quiet (locateTable_loop names way path).
Proof.
  induction names as [|name names IH]; intros way path; cbn [locateTable_loop].
  - quiet_auto.
  - quiet_auto; first [apply quiet_elems_at | apply quiet_store_at | apply IH].
Qed.

Lemma quiet_createTable way path name : quiet (createTable way path name).
Proof.
  unfold createTable. quiet_auto;
    first [apply quiet_elems_at | apply quiet_store_at].
Qed.

Lemma quiet_createTableArray way path name :
  quiet (createTableArray way path name).
Proof.
  unfold createTableArray. quiet_auto;
    first [apply quiet_elems_at | apply quiet_store_at].
Qed.
Lemma halts_bind {A} (m : M A) (k : A → M (option scanner)) :
  (∀ a, halts (k a)) → halts (bind m k).
Proof.
  intros Hk p b p'. unfold bind. destruct (m p) as [a p1| |]; [|done..].
  apply Hk.
Qed.

Lemma halts_errorScanner f a : halts (errorScanner f a).
Proof. by intros p b p' [= <- _]. Qed.

Lemma halts_setError e : halts (setError e).
Proof. by intros p b p' [= <- _]. Qed.

Lemma halts_expectStr s : halts (expectStr s).
Proof.
  unfold expectStr. apply halts_bind. intros _. apply halts_bind.
  intros [got n]. apply halts_errorScanner.
Qed.

Lemma halts_expectRune r : halts (expectRune r).
Proof.
  unfold expectRune. apply halts_bind. intros _. apply halts_bind.
  intros [got n]. apply halts_errorScanner.
Qed.

Lemma pops_halts m : halts m → pops m.
Proof. intros Hm p s' p' E. by apply Hm in E. Qed.

Lemma pops_crash : pops crash.
Proof. by intros p s' p'. Qed.

Lemma pops_popScanner : pops popScanner.
Proof.
  intros [mk ps ln inp bk rt ev ks nm sp nu sc er] s' p'.
  unfold popScanner. cbn. destruct sc; [done|]. by intros [= <- <-].
Qed.

Lemma pops_bind {A} (m : M A) (k : A → M (option scanner)) :
  quiet m → (∀ a, pops (k a)) → pops (bind m k).
Proof.
  intros Hm Hk p s' p'. unfold bind.
  destruct (m p) as [a p1| |] eqn:E; [|done..]. intros Hb.
  destruct (Hm _ _ _ E) as (? & ? & ? & ?).
  destruct (Hk _ _ _ _ Hb) as (? & ? & ?). split_and!; [congruence|lia|congruence].
Qed.

Ltac pops_step :=
  first
    [ apply pops_crash | apply pops_popScanner
    | apply pops_halts;
      first [apply halts_errorScanner | apply halts_setError
            | apply halts_expectStr | apply halts_expectRune]
    | apply pops_bind; [|intros ?]
    | match goal with
      | |- pops (if ?b then _ else _) => destruct b
      | |- pops (match ?x with _ => _ end) => destruct x
      | |- pops (let '(_, _) := ?x in _) => destruct x
      end ].

Create HintDb lex.

#[local] Hint Resolve quiet_topEnv quiet_deref quiet_store_top quiet_popTableKey
  quiet_topTableKey quiet_pushEnv quiet_popEnv quiet_slice quiet_str_push
  quiet_str_join quiet_elems_at quiet_store_at quiet_resetEnv
  quiet_locateTable_loop quiet_createTable quiet_createTableArray : lex.

Ltac pops_auto := repeat pops_step; try solve [quiet_auto; eauto with lex].

Lemma pops_setValue v : pops (setValue v).
Proof. unfold setValue. pops_auto. Qed.

Lemma pops_pushTableKey k : pops (pushTableKey k).
Proof. unfold pushTableKey. pops_auto. Qed.

Lemma pops_setFloatValue : pops setFloatValue.
Proof. unfold setFloatValue. pops_auto. Qed.

Lemma pops_setIntegerValue : pops setIntegerValue.
Proof. unfold setIntegerValue. pops_auto. Qed.

Lemma pops_setStringValue : pops setStringValue.
Proof. unfold setStringValue. pops_auto. Qed.

Lemma pops_scanDateValue s : pops (scanDateValue s).
Proof. unfold scanDateValue. pops_auto. Qed.

Lemma pops_scanReturnString s : pops (scanReturnString s).
Proof. unfold scanReturnString. pops_auto. Qed.

#[local] Hint Resolve pops_setValue pops_pushTableKey pops_setFloatValue
  pops_setIntegerValue pops_setStringValue pops_scanDateValue
  pops_scanReturnString : lex.
Lemma readRune_inv p r n p' :
  readRune p = Ret (r, n) p' →
  p' = set_pos (pos p + n) (n :: backups p) p
  ∧ (r ≠ eof → (0 < n)%nat ∧ (pos p < length (input p))%nat).
Proof.
  unfold readRune. case_decide as Hp; [|done].
  destruct (drop (pos p) (input p)) as [|c rest] eqn:Hd.
  - cbn. intros [= <- <- <-]. done.
  - assert (pos p < length (input p))%nat.
    { apply (f_equal length) in Hd. rewrite length_drop in Hd. cbn in Hd. lia. }
    destruct (DecodeRuneInString (c :: rest)) as [r0 n0] eqn:Hr.
    assert (0 < n0)%nat.
    { cbn in Hr. repeat case_match; simplify_eq; lia. }
    destruct ((r0 =? RuneError) && (n0 =? 1)%nat); [done|].
    cbn. intros [= <- <- <-]. done.
Qed.

Lemma readByte_inv p r p' :
  readByte p = Ret r p' →
  ∃ n, p' = set_pos (pos p + n) (n :: backups p) p ∧ (n ≤ 1)%nat.
Proof.
  unfold readByte, bind, stepN, modify, ret.
  destruct (input p !! pos p); intros [= <- <-]; eauto.
Qed.

(** The digits of a fraction: the cursor moves on, and the last step can
    be taken back. *)
Lemma readDigits_inv fuel : ∀ p p',
  readDigits fuel p = Ret tt p' →
  input p' = input p ∧ scanners p' = scanners p
  ∧ (p' = p ∨ ∃ b rest, backups p' = b :: rest ∧ (pos p + b ≤ pos p')%nat).
Proof.
  induction fuel as [|fuel IH]; intros p p'; cbn [readDigits].
  - intros [= <-]. auto.
  - unfold bind at 1. destruct (readByte p) as [r p1| |] eqn:E; [|done..].
    apply readByte_inv in E as (n & -> & Hn).
    destruct (isDigit r).
    + intros (Hi & Hs & Hb)%IH. cbn in Hi, Hs, Hb. split_and!; [done..|].
      right. destruct Hb as [->|(b & rest & Hb & Hp)].
      * exists n, (backups p). cbn. split; [done|lia].
      * exists b, rest. split; [done|lia].
    + intros [= <-]. split_and!; [done..|]. right.
      exists n, (backups p). cbn. split; [done|lia].
Qed.

(** The hexadecimal digits of an escape: the cursor moves on. *)
Lemma readHex_inv n : ∀ p o p',
  readHex n p = Ret o p' →
  match o with
  | None => input p' = input p ∧ (pos p ≤ pos p')%nat
            ∧ scanners p' = scanners p
  | Some s => s = None
  end.
Proof.
  induction n as [|n IH]; intros p o p'; cbn [readHex].
  - intros [= <- <-]. done.
  - unfold bind at 1. destruct (readByte p) as [r p1| |] eqn:E; [|done..].
    apply readByte_inv in E as (k & -> & Hk).
    destruct (negb (isHex r)).
    + unfold bind. destruct (expectStr _ _) as [s p2| |] eqn:E; [|done..].
      apply halts_expectStr in E as ->. by intros [= <- <-].
    + intros Hr%IH. destruct o; [done|]. cbn in Hr.
      destruct Hr as (? & ? & ?). split_and!; [done|lia|done].
Qed.

Lemma pops_scanUnicodeRune n : pops (scanUnicodeRune n).
Proof.
  intros p s' p'. unfold scanUnicodeRune, record. unfold bind at 1.
  unfold modify. unfold bind at 1.
  destruct (readHex n _) as [o p1| |] eqn:E; [|done..].
  apply readHex_inv in E. destruct o as [s|].
  - subst s. by intros [= <-].
  - cbn in E. destruct E as (Hi & Hp & Hs). intros Hk.
    assert (Hq : pops (λ p, bind (slice 0) (λ s,
                  match ParseUint s 16 with
                  | inr e => setError (NumError "ParseUint" s e)
                  | inl codepoint =>
                    let r := rune_of_uint64 codepoint in
                    if negb (ValidRune r)
                    then errorScanner "%s is not a valid utf8 rune" [ArgS s]
                    else scanReturnString (string_of_rune r)
                  end) p)).
    { apply pops_bind; [apply quiet_slice|]. intros s. cbv zeta.
      pops_auto. }
    apply Hq in Hk as (? & ? & ?). split_and!; [congruence|lia|congruence].
Qed.

Lemma scanTableEnd_inv p s' p' :
  scanTableEnd p = Ret (Some s') p' →
  s' = ScanTopEnd ∧ input p' = input p ∧ pos p' = pos p
  ∧ scanners p' = scanners p.
Proof.
  unfold scanTableEnd. unfold bind at 1. unfold get.
  destruct (split_last (names p)) as [[prefix name]|]; [|done].
  unfold bind at 1.
  destruct (locateTable prefix p) as [[way path] p1| |] eqn:E1; [|done..].
  apply quiet_locateTable_loop in E1 as (? & ? & ? & ?).
  unfold bind at 1.
  destruct (createTable way path name p1) as [[way' path'] p2| |] eqn:E2;
    [|done..].
  apply quiet_createTable in E2 as (? & ? & ? & ?).
  unfold resetEnv, bind, modify, ret. intros [= <- <-].
  cbn. split_and!; congruence.
Qed.

Lemma scanArrayTableEnd_inv p s' p' :
  scanArrayTableEnd p = Ret (Some s') p' →
  s' = ScanTopEnd ∧ input p' = input p ∧ pos p' = pos p
  ∧ scanners p' = scanners p.
Proof.
  unfold scanArrayTableEnd. unfold bind at 1. unfold get.
  destruct (split_last (names p)) as [[prefix name]|]; [|done].
  unfold bind at 1.
  destruct (locateTable prefix p) as [[way path] p1| |] eqn:E1; [|done..].
  apply quiet_locateTable_loop in E1 as (? & ? & ? & ?).
  unfold bind at 1.
  destruct (createTableArray way path name p1) as [[way' path'] p2| |] eqn:E2;
    [|done..].
  apply quiet_createTableArray in E2 as (? & ? & ? & ?).
  unfold resetEnv, bind, modify, ret. intros [= <- <-].
  cbn. split_and!; congruence.
Qed.

#[local] Hint Resolve pops_scanUnicodeRune : lex.

Ltac lex_case x :=
  let E := fresh "E" in
  destruct x eqn:E;
  try lazymatch type of E with
  | readRune _ = Ret ?a _ =>
    destruct a; apply readRune_inv in E as [-> ?]
  | readDigits _ _ = Ret ?a ?p1 =>
    destruct a; apply readDigits_inv in E;
    cbn [input pos backups scanners] in E;
    destruct E as (? & ? & [->|(? & ? & ? & ?)]);
    [|destruct p1; cbn [input pos backups scanners] in *; subst]
  | ?m ?p = Ret ?a ?p1 =>
    let Hq := fresh in
    assert (Hq : quiet m) by (quiet_auto; eauto with lex);
    apply Hq in E; clear Hq;
    destruct p1; cbn [input pos backups scanners] in E;
    destruct E as (? & ? & ? & ?); subst
  end.

Ltac innermost Ht :=
  match type of Ht with
  | context [match ?x with _ => _ end] =>
    lazymatch x with
    | context [match _ with _ => _ end] => fail
    | context [eof] =>
      let v := eval vm_compute in x in
      lazymatch v with
      | true => change x with true in Ht
      | false => change x with false in Ht
      | _ => lex_case x
      end
    | _ => lex_case x
    end
  end.

Ltac lex_unfold Ht :=
  cbv beta iota zeta delta
    [turn call scanByte scanDigit scanConsumeSpaceOrNewline scanEscapedRune
     scanLiteral scanMultiLineLiteral scanMultiLineString scanComment
     scanTableStart scanString scanTableNameString scanTableNameStart
     scanTableNameInside scanTableNameEnd scanTop scanTopEnd
     scanInlineTableFieldEnd scanInlineTableStart scanFloatFraction
     scanFloatExponent scanFloatExponentSign scanNumber scanNumberStart
     scanStringStart scanLiteralStart scanArrayValue scanArrayStart
     scanArrayEnd scanValue scanDateEnd scanDateTimeEnd scanDateTime id
     scanDateTimeFraction
     scanNumberOrDate scanFieldAssign scanBareKey scanKeyEnd scanTableField
     scanColon scanHash scanRecord0
     clearBackups bind ret modify get readByte peekByte tryReadByte stepN
     unread skipNewline tryReadNewline tryReadPrefix seqScanner popScanner
     pushScanner record scanRecord raise crash peekRune slice str_push str_join
     scanReturnString
     pushInteger pushFraction pushExponent set_sign set_expo set_esign
     appendTableName
     set_mark set_pos set_line set_backups set_root set_envs set_keys
     set_names set_strparts set_num set_scanners set_err
     mark pos line input backups root envs keys names strparts num
     scanners err app] in Ht.

Ltac lex_split Ht :=
  lex_unfold Ht; repeat (innermost Ht; lex_unfold Ht).

Ltac lex_facts :=
  unfold eof, dquote, squote, backslash in *;
  repeat match goal with
  | E : context [chr (Ascii ?a ?b ?c ?d ?e ?f ?g ?h)] |- _ =>
    let v := eval vm_compute in (chr (Ascii a b c d e f g h)) in
    change (chr (Ascii a b c d e f g h)) with v in E
  end;
  repeat match goal with
  | E : _ !! _ = Some _ |- _ => apply lookup_lt_Some in E
  | E : _ !! _ = None |- _ => apply lookup_ge_None in E
  end.

Ltac lex_close :=
  try match goal with
      | |- (turns_left ?s ?p < _)%nat => pose proof (rank_le s p)
      end;
  unfold turns_left;
  cbn [rank weight fmap list_fmap sum_list sum_list_with id input pos scanners]
    in *;
  unfold left_over in *; cbn [input pos] in *;
  lex_facts; repeat case_decide; lia.

Ltac lex_pops Ht :=
  match type of Ht with
  | ?m ?p = Ret (Some ?s') ?p' =>
    let Hp := fresh in
    assert (Hp : pops m) by first [solve [eauto with lex] | pops_auto];
    apply Hp in Ht; cbn [input pos scanners] in Ht;
    destruct Ht as (Hi & Hpos & Hs);
    pose proof (rank_le s' p');
    unfold turns_left, left_over; rewrite Hi; simplify_eq;
    lex_close
  end.

Ltac lex_settles Ht :=
  first [ apply scanTableEnd_inv in Ht | apply scanArrayTableEnd_inv in Ht ];
  cbn [input pos scanners] in Ht;
  destruct Ht as (-> & Hi & Hpos & Hs);
  unfold turns_left, left_over; rewrite Hi, Hpos, Hs;
  lex_close.

Ltac descend :=
  intros [mk ps ln inp bk rt ev ks nm sp nu sc er] s' p' Ht;
  lex_split Ht;
  first [ discriminate Ht
        | injection Ht as <- <-; lex_close
        | lex_settles Ht
        | lex_pops Ht ].

Lemma descends_ScanByte r : descends (ScanByte r).
Proof. descend. Qed.

Lemma descends_ScanDigit : descends ScanDigit.
Proof. descend. Qed.

Lemma descends_ScanConsumeSpaceOrNewline : descends ScanConsumeSpaceOrNewline.
Proof. descend. Qed.

Lemma descends_ScanRecord o : descends (ScanRecord o).
Proof. descend. Qed.

Lemma descends_ScanEscapedRune : descends ScanEscapedRune.
Proof. descend. Qed.

Lemma descends_ScanLiteral : descends ScanLiteral.
Proof. descend. Qed.

Lemma descends_ScanMultiLineLiteral : descends ScanMultiLineLiteral.
Proof. descend. Qed.

Lemma descends_ScanMultiLineString : descends ScanMultiLineString.
Proof. descend. Qed.

Lemma descends_ScanComment : descends ScanComment.
Proof. descend. Qed.

Lemma descends_ScanArrayTableEnd : descends ScanArrayTableEnd.
Proof. descend. Qed.

Lemma descends_ScanTableEnd : descends ScanTableEnd.
Proof. descend. Qed.

Lemma descends_ScanTableStart : descends ScanTableStart.
Proof. descend. Qed.

Lemma descends_ScanString : descends ScanString.
Proof. descend. Qed.

Lemma descends_ScanTableNameString : descends ScanTableNameString.
Proof. descend. Qed.

Lemma descends_ScanTableNameStart : descends ScanTableNameStart.
Proof. descend. Qed.

Lemma descends_ScanTableNameInside : descends ScanTableNameInside.
Proof. descend. Qed.

Lemma descends_ScanTableNameEnd : descends ScanTableNameEnd.
Proof. descend. Qed.

Lemma descends_ScanTop : descends ScanTop.
Proof. descend. Qed.

Lemma descends_ScanTopEnd : descends ScanTopEnd.
Proof. descend. Qed.

Lemma descends_ScanInlineTableFieldEnd : descends ScanInlineTableFieldEnd.
Proof. descend. Qed.

Lemma descends_ScanInlineTableStart : descends ScanInlineTableStart.
Proof. descend. Qed.

Lemma descends_ScanFloatFraction : descends ScanFloatFraction.
Proof. descend. Qed.

Lemma descends_ScanFloatExponent : descends ScanFloatExponent.
Proof. descend. Qed.

Lemma descends_ScanFloatExponentSign : descends ScanFloatExponentSign.
Proof. descend. Qed.

Lemma descends_ScanNumber : descends ScanNumber.
Proof. descend. Qed.

Lemma descends_ScanNumberStart : descends ScanNumberStart.
Proof. descend. Qed.

Lemma descends_SetStringValue : descends SetStringValue.
Proof. descend. Qed.

Lemma descends_ScanStringStart : descends ScanStringStart.
Proof. descend. Qed.

Lemma descends_ScanLiteralStart : descends ScanLiteralStart.
Proof. descend. Qed.

Lemma descends_ScanArrayValue : descends ScanArrayValue.
Proof. descend. Qed.

Lemma descends_ScanArrayStart : descends ScanArrayStart.
Proof. descend. Qed.

Lemma descends_ScanArrayEnd : descends ScanArrayEnd.
Proof. descend. Qed.

Lemma descends_ScanValue : descends ScanValue.
Proof. descend. Qed.

Lemma descends_ScanDateEnd : descends ScanDateEnd.
Proof. descend. Qed.

Lemma descends_ScanDateTimeEnd : descends ScanDateTimeEnd.
Proof. descend. Qed.

Lemma descends_ScanDateTimeFraction : descends ScanDateTimeFraction.
Proof. descend. Qed.

Lemma descends_ScanDateTime : descends ScanDateTime.
Proof. descend. Qed.

Lemma descends_ScanNumberOrDate : descends ScanNumberOrDate.
Proof. descend. Qed.

Lemma descends_ScanFieldAssign : descends ScanFieldAssign.
Proof. descend. Qed.

Lemma descends_ScanBareKey : descends ScanBareKey.
Proof. descend. Qed.

Lemma descends_ScanKeyEnd : descends ScanKeyEnd.
Proof. descend. Qed.

Lemma descends_ScanTableField : descends ScanTableField.
Proof. descend. Qed.

Lemma turn_descends s : descends s.
Proof.
  destruct s;
    [ apply descends_ScanByte | apply descends_ScanDigit
    | apply descends_ScanConsumeSpaceOrNewline | apply descends_ScanRecord
    | apply descends_ScanEscapedRune | apply descends_ScanLiteral
    | apply descends_ScanMultiLineLiteral | apply descends_ScanMultiLineString
    | apply descends_ScanComment | apply descends_ScanArrayTableEnd
    | apply descends_ScanTableEnd | apply descends_ScanTableStart
    | apply descends_ScanString | apply descends_ScanTableNameString
    | apply descends_ScanTableNameStart | apply descends_ScanTableNameInside
    | apply descends_ScanTableNameEnd | apply descends_ScanTop
    | apply descends_ScanTopEnd | apply descends_ScanInlineTableFieldEnd
    | apply descends_ScanInlineTableStart | apply descends_ScanFloatFraction
    | apply descends_ScanFloatExponent | apply descends_ScanFloatExponentSign
    | apply descends_ScanNumber | apply descends_ScanNumberStart
    | apply descends_SetStringValue | apply descends_ScanStringStart
    | apply descends_ScanLiteralStart | apply descends_ScanArrayValue
    | apply descends_ScanArrayStart | apply descends_ScanArrayEnd
    | apply descends_ScanValue | apply descends_ScanDateEnd
    | apply descends_ScanDateTimeEnd | apply descends_ScanDateTimeFraction
    | apply descends_ScanDateTime | apply descends_ScanNumberOrDate
    | apply descends_ScanFieldAssign | apply descends_ScanBareKey
    | apply descends_ScanKeyEnd | apply descends_ScanTableField ].
Qed.

(** The loop ends within the turns left. *)
Lemma loop_ends : ∀ fuel s p,
  (turns_left s p < fuel)%nat → ∃ o, loop fuel (Some s) p = Some o.
Proof.
  induction fuel as [|fuel IH]; intros s p Hf; [lia|].
  cbn [loop]. destruct (turn s p) as [[s'|] p'| |] eqn:Ht; eauto.
  - apply turn_descends in Ht. apply IH. lia.
  - destruct fuel; cbn; eauto.
Qed.

(** More fuel does not change what the loop returns. *)
Lemma loop_more : ∀ fuel s p o k,
  loop fuel s p = Some o → loop (fuel + k) s p = Some o.
Proof.
  induction fuel as [|fuel IH]; intros [s|] p o k; cbn [loop Nat.add].
  - done.
  - intros [= <-]. by destruct k.
  - destruct (turn s p) as [s' p'| |]; [apply IH|done..].
  - intros [= <-]. done.
Qed.

(** X12.  [parse] returns on every input: the loop over the scanners
    reaches the [nil] scanner, an error or a panic within sixteen turns
    for each byte of the input and five more, and more fuel gives the
    same result. *)
Theorem X12_parse_returns (data : string) :
  ∃ r, ∀ fuel, (16 * length (bytes data) + 5 ≤ fuel)%nat →
    parse fuel data = Some r.
Proof.
  destruct (loop_ends (16 * length (bytes data) + 5) ScanTop
              (newParser (newTable false) (bytes data))) as [o Ho].
  { unfold turns_left, left_over. cbn. case_decide; lia. }
  exists (match o with
          | Ret _ p => match err p with Some e => Failure e | None => Tree (root p) end
          | Raise e => Failure e
          | Crash => Panic
          end).
  intros fuel Hf. unfold parse.
  replace fuel with (16 * length (bytes data) + 5
                     + (fuel - (16 * length (bytes data) + 5)))%nat by lia.
  rewrite (loop_more _ _ _ _ _ Ho). by destruct o.
Qed.

End Properties.



(** The witness of C10: a NUL at the beginning of the second line. *)
Lemma C10_nul_ends_parse_witness :
  parse (H := TextStd) 10 ("a = 1" +:+ nl +:+ of_bytes [nul] +:+ "b = 2")
  = Some (Tree (VTable false {["a" := VInteger 1]})).
Proof.
  assert (∃ p, steps (H := TextStd) 9 ScanTop
                 (newParser (newTable false)
                    (bytes ("a = 1" +:+ nl +:+ of_bytes [nul] +:+ "b = 2")))
               = Some (Some ScanTop, p)
               ∧ input p !! pos p = Some nul
               ∧ root p = VTable false {["a" := VInteger 1]}) as (p & Hs & Hn & Hr).
  { vm_compute. eexists. split_and!; reflexivity. }
  rewrite <- Hr. exact (proj1 (C10_nul_ends_parse _ _ _ Hs Hn)).
Defined.

(** The counterexample of C4: the token [20-01] takes the date branch,
    and its fifth character is no hyphen. *)
Lemma C4_counterexample :
  branch_of (H := TextStd) "20-01" = Some DateBranch
  ∧ spec_branch "20-01" = NumberBranch
  ∧ branch_of (H := TextStd) "20-01" ≠ Some (spec_branch "20-01").
Proof. split_and!; [vm_compute; reflexivity..|vm_compute; congruence]. Qed.

(** The witness of C4: the tokens [2016-01-07] and [2016]. *)
Lemma C4_date_branch_after_digits_witness :
  branch_of (H := TextStd) "2016-01-07" = Some DateBranch
  ∧ branch_of (H := TextStd) "2016" = Some NumberBranch.
Proof.
  apply (C4_date_branch_after_digits (H := TextStd)
           (bytes "2016") "-"%char (bytes "01-07")).
  - done.
  - repeat constructor.
  - reflexivity.
Defined.


(** The witness of X1: an integer and a string, listed in the other
    order by the map. *)
Lemma X1_emit_parse_flat_table_witness :
  (∀ f, Marshal (H := TextStd) (S f)
          (GoMap [("a", GoInt (-2)); ("s", GoString "hi")])
        = Wrote tt ("a = -2" +:+ nl +:+ "s = " +:+ dq +:+ "hi" +:+ dq +:+ nl))
  ∧ ∃ n, ∀ fuel, (n ≤ fuel)%nat →
      parse (H := TextStd) fuel
        ("a = -2" +:+ nl +:+ "s = " +:+ dq +:+ "hi" +:+ dq +:+ nl)
      = Some (Tree (VTable false
                      {["a" := VInteger (-2); "s" := VString "hi"]})).
Proof.
  apply (X1_emit_parse_flat_table (H := TextStd)
           {["a" := VInteger (-2); "s" := VString "hi"]}
           [("a", GoInt (-2)); ("s", GoString "hi")]).
  - intros k v [[<- <-]|[_ [<- <-]%lookup_singleton_Some]]%lookup_insert_Some.
    + split; [by split|]. unfold flat_value, int64_range. lia.
    + split; [by split|]. unfold flat_value, plain_string.
      repeat (first [apply Forall_nil_2 | apply Forall_cons_2]);
        unfold plain_char; cbn; repeat split; (lia || done).
  - vm_compute (map_to_list _). apply perm_swap.
Defined.

(** The witness of X2: two headers [[[x]]]. *)
Lemma X2_arrays_of_tables_witness :
  parse (H := TextStd) 30 ("[[x]]" +:+ nl +:+ "[[x]]")
  = Some (Tree (VTable false
                  {["x" := VArray false [VTable false ∅; VTable false ∅]]}))
  ∧ is_root (H := TextStd)
      (VTable false {["x" := VArray false [VTable false ∅; VTable false ∅]]}).
Proof.
  assert (parse (H := TextStd) 30 ("[[x]]" +:+ nl +:+ "[[x]]")
          = Some (Tree (VTable false
                    {["x" := VArray false [VTable false ∅; VTable false ∅]]})))
    as Hp by (vm_compute; reflexivity).
  split; [exact Hp|].
  exact (proj1 (X2_arrays_of_tables (H := TextStd) _ _ _ Hp)).
Defined.

(** The witness of X3: an empty line, and a line of a space and a tab. *)
Lemma X3_blank_document_witness :
  parse (H := TextStd) 5 (of_bytes [lf; " "%char; "009"%char; lf])
  = Some (Tree (VTable false ∅)).
Proof.
  apply (X3_blank_document (H := TextStd) [lf; " "%char; "009"%char; lf] 0).
  repeat (first [apply Forall_nil_2 | apply Forall_cons_2; [unfold blank; auto|]]).
Defined.

(** The witness of X4: [= 1] on the third line. *)
Lemma X4_empty_key_position_witness :
  parse (H := TextStd) 5 (of_bytes [lf; lf; " "%char; "="%char; " "%char; "1"%char])
  = Some (Failure (mkParseError 3 4 (Errorf "key must be non-empty" []))).
Proof.
  apply (X4_empty_key_position (H := TextStd) [lf; lf; " "%char]
           [" "%char; "1"%char] 0).
  repeat (first [apply Forall_nil_2 | apply Forall_cons_2; [unfold blank; auto|]]).
Defined.

(** The witness of X5: [a = 1] and [a = true]. *)
Lemma X5_key_defined_twice_witness :
  ∃ n, ∀ fuel, (n ≤ fuel)%nat →
    parse (H := TextStd) fuel ("a = 1" +:+ nl +:+ "a = true")
    = Some (Failure (mkParseError 2 8
              (Errorf "table %s has key %s defined as %s"
                 [ArgS ""; ArgS "a"; ArgS "integer"]))).
Proof.
  apply (X5_key_defined_twice (H := TextStd) [("a", GoInt 1)] "a" (GoInt 1)
           " "%char (bytes "= true")).
  - repeat constructor; done.
  - repeat constructor. set_solver.
  - set_solver.
  - by left.
Defined.

(** The witness of X6: the header [[a]] on the empty root, twice. *)
Lemma X6_table_defined_twice_witness :
  ∃ p1, define_table (H := TextStd) ["a"] (newParser (newTable false) [])
        = Ret (Some ScanTopEnd) p1
        ∧ define_table ["a"] p1
          = Raise (mkParseError 1 0
                     (Errorf "table %s was defined twice" [ArgS "a"])).
Proof.
  eexists. split; [vm_compute; reflexivity|].
  refine (proj1 (X6_table_defined_twice (H := TextStd)
                   (newParser (newTable false) []) _ "a" "b" (Some ScanTopEnd)) _).
  vm_compute. reflexivity.
Defined.

(** The witness of X7: [[a.b]] and [[a]] on the empty root. *)
Lemma X7_implicit_made_explicit_witness :
  tree_after (H := TextStd) (define_table ["a"; "b"]) (newParser (newTable false) [])
  = Some (VTable (H := TextStd) false
            (<["a" := VTable true {["b" := VTable false ∅]}]> ∅))
  ∧ tree_after (H := TextStd)
      (bind (define_table ["a"; "b"]) (λ _, define_table ["a"]))
      (newParser (newTable false) [])
    = Some (VTable (H := TextStd) false
              (<["a" := VTable false {["b" := VTable false ∅]}]> ∅)).
Proof.
  apply (X7_implicit_made_explicit (H := TextStd) (newParser (newTable false) [])
           false ∅ "a" "b"); reflexivity.
Defined.

(** The witness of X8: three headers [[[a]]] on the empty root. *)
Lemma X8_array_of_tables_appends_witness :
  tree_after (H := TextStd) (iterate 3 (define_array ["a"]))
    (newParser (newTable false) [])
  = Some (VTable (H := TextStd) false
            (<["a" := VArray false (replicate 3 (VTable false ∅))]> ∅)).
Proof.
  apply (X8_array_of_tables_appends (H := TextStd) 2
           (newParser (newTable false) []) false ∅ "a"); reflexivity.
Defined.

(** The witness of X9: [[a]] and then [[[a]]] on the empty root. *)
Lemma X9_table_or_array_witness :
  ∃ p1, define_table (H := TextStd) ["a"] (newParser (newTable false) [])
        = Ret (Some ScanTopEnd) p1
        ∧ define_array ["a"] p1
          = Raise (mkParseError 1 0
                     (Errorf "%s was defined as %s" [ArgS "a"; ArgS "table"])).
Proof.
  eexists. split; [vm_compute; reflexivity|].
  refine (proj1 (X9_table_or_array (H := TextStd)
                   (newParser (newTable false) []) _ "a" (Some ScanTopEnd)) _).
  vm_compute. reflexivity.
Defined.

(** The witness of X10: the array of [1], [2] and [true]. *)
Lemma X10_array_of_mixed_types_witness :
  Marshal (H := TextStd) 2 (GoMap [("x", GoSlice [GoInt 1; GoInt 2; GoBool true])])
  = Failed (MarshalArrayError "integer" "boolean").
Proof.
  apply (X10_array_of_mixed_types (H := TextStd) 0 "x" (GoInt 1) [GoInt 2]
           (GoBool true) [] []).
  - exact I.
  - repeat constructor.
  - exact I.
  - discriminate.
Defined.

(** The witness of X11: the table [t] between the fields [a] and [b]. *)
Lemma X11_table_after_fields_witness :
  Marshal (H := TextStd) 2
    (GoMap [("a", GoInt 1); ("t", GoMap [("c", GoBool true)]); ("b", GoInt 2)])
  = Wrote tt ("a = 1" +:+ nl +:+ "b = 2" +:+ nl +:+ nl +:+ "[t]" +:+ nl
              +:+ "c = true" +:+ nl).
Proof.
  apply (X11_table_after_fields (H := TextStd) 0 "t" [("a", GoInt 1)]
           [("b", GoInt 2)] [("c", GoBool true)]).
  - by split.
  - repeat constructor; done.
  - repeat constructor; done.
  - repeat constructor; done.
Defined.

(** The witness of X12: the field [a = 1] with a hundred turns. *)
Lemma X12_parse_returns_witness :
  ∃ r, parse (H := TextStd) 100 "a = 1" = Some r.
Proof.
  destruct (X12_parse_returns (H := TextStd) "a = 1") as [r Hr].
  exists r. apply Hr. cbn. lia.
Defined.
